(** * gearfalcon-frontend: credential policy, password generator,
      session token store and authenticated request pipeline

    A shallow embedding of
    - [src/app/shared/lib/validators/passwordValidator.ts]
      (the evaluator with the 80/60/40/20 thresholds and the generator
      built on the Web Crypto source),
    - [src/app/shared/hooks/usePasswordValidation.tsx],
    - [src/app/shared/hooks/useAuth.tsx],
    - [src/app/shared/services/axiosClient.ts],
    followed by the properties established about them.

    Conventions.  A JavaScript string is a [string]: every [ascii] stands
    for one UTF-16 code unit in the range 0..255, so the development covers
    passwords written with Latin-1 characters.  JavaScript numbers that hold
    lengths and scores are integers of [Z]. *)

From Stdlib Require Import ZArith List String Ascii Bool Lia DecimalString.
From Stdlib Require Import Permutation.
From stdpp Require Import base list.
Import ListNotations.

Open Scope string_scope.
Open Scope list_scope.
Open Scope Z_scope.

(* ===================================================================== *)
(** * Strings and regular expressions of the source *)
(* ===================================================================== *)

Module Js.

Definition code (c : ascii) : Z := Z.of_nat (nat_of_ascii c).

Definition between (lo hi : Z) (c : ascii) : bool :=
  (lo <=? code c) && (code c <=? hi).

(** The double quote character, code 34. *)
Definition dquote : ascii := ascii_of_nat 34.

Fixpoint chars (s : string) : list ascii :=
  match s with
  | EmptyString => []
  | String c s' => c :: chars s'
  end.

Fixpoint join (l : list ascii) : string :=
  match l with
  | [] => EmptyString
  | c :: l' => String c (join l')
  end.

(** [s.length] *)
Definition len (s : string) : Z := Z.of_nat (String.length s).

(** [`${n}`] for an integer [n]. *)
Definition showZ (n : Z) : string := NilZero.string_of_int (Z.to_int n).

(** [/[...]/.test(s)] for a character class given as a predicate. *)
Definition testClass (p : ascii -> bool) (s : string) : bool :=
  existsb p (chars s).

(** [String.prototype.toLowerCase] on code units 0..255: the letters
    A-Z and the Latin-1 capitals U+00C0..U+00DE (without the
    multiplication sign U+00D7) move up by 32. *)
Definition lowerChar (c : ascii) : ascii :=
  if between 65 90 c
     || (between 192 222 c && negb (code c =? 215))
  then ascii_of_nat (nat_of_ascii c + 32)
  else c.

Fixpoint toLowerCase (s : string) : string :=
  match s with
  | EmptyString => EmptyString
  | String c s' => String (lowerChar c) (toLowerCase s')
  end.

(** Canonicalisation of the [i] flag (no [u] flag) as far as it can be
    observed against a pattern of ASCII letters and digits: a-z fold to
    A-Z, and no character at or above 128 folds into ASCII. *)
Definition foldCase (c : ascii) : ascii :=
  if between 97 122 c then ascii_of_nat (nat_of_ascii c - 32) else c.

Definition eqChar_i (p c : ascii) : bool :=
  Ascii.eqb (foldCase p) (foldCase c).

Fixpoint prefix_i (p s : string) : bool :=
  match p, s with
  | EmptyString, _ => true
  | String a p', String b s' => eqChar_i a b && prefix_i p' s'
  | String _ _, EmptyString => false
  end.

(** [/lit/i.test(s)] for a literal [lit]. *)
Fixpoint containsLiteral_i (lit s : string) {struct s} : bool :=
  match s with
  | EmptyString => prefix_i lit EmptyString
  | String _ s' => prefix_i lit s || containsLiteral_i lit s'
  end.

(** [/(a1|a2|...)/i.test(s)] for literal alternatives. *)
Definition testAlternatives_i (alts : list string) (s : string) : bool :=
  existsb (fun lit => containsLiteral_i lit s) alts.

(** [.] matches every code unit but the line terminators; of those only
    line feed and carriage return lie in the range 0..255. *)
Definition isLineTerminator (c : ascii) : bool :=
  (code c =? 10) || (code c =? 13).

(** [/(.)\1{2,}/.test(s)]: some character that [.] accepts occurs three
    times in a row. *)
Fixpoint testRepeated (s : string) : bool :=
  match s with
  | EmptyString => false
  | String a t =>
      match t with
      | String b (String c _) =>
          (negb (isLineTerminator a) && Ascii.eqb a b && Ascii.eqb a c)
          || testRepeated t
      | _ => false
      end
  end.

(** [arr.includes(s)] on an array of strings. *)
Definition includes (arr : list string) (s : string) : bool :=
  existsb (String.eqb s) arr.

(** [new Set(s).size]: the number of distinct characters of [s]. *)
Definition distinctCount (s : string) : Z :=
  Z.of_nat (length (nodup ascii_dec (chars s))).

(** [String.prototype.trim] removes white space and line terminators at
    both ends; in the range 0..255 these are tab, line feed, vertical
    tab, form feed, carriage return, space and the no-break space. *)
Definition isWhiteSpace (c : ascii) : bool :=
  between 9 13 c || (code c =? 32) || (code c =? 160).

Fixpoint trimStart (s : string) : string :=
  match s with
  | EmptyString => EmptyString
  | String c s' => if isWhiteSpace c then trimStart s' else s
  end.

Definition reverse (s : string) : string := join (rev (chars s)).

Definition trim (s : string) : string :=
  reverse (trimStart (reverse (trimStart s))).

(** Truthiness of a string: only the empty string is falsy. *)
Definition truthy (s : string) : bool :=
  match s with EmptyString => false | String _ _ => true end.

End Js.

(* ===================================================================== *)
(** * Credential policy evaluator ([passwordValidator.ts]) *)
(* ===================================================================== *)

Module PasswordValidator.

Record PasswordRequirements := {
  minLength : Z;
  maxLength : Z;
  requireUppercase : bool;
  requireLowercase : bool;
  requireNumbers : bool;
  requireSpecialChars : bool;
  preventCommonPasswords : bool
}.

(** [Partial<PasswordRequirements>]: every field may be absent. *)
Record PartialRequirements := {
  opt_minLength : option Z;
  opt_maxLength : option Z;
  opt_requireUppercase : option bool;
  opt_requireLowercase : option bool;
  opt_requireNumbers : option bool;
  opt_requireSpecialChars : option bool;
  opt_preventCommonPasswords : option bool
}.

Record ValidationRequirement := {
  id : string;
  label : string;
  met : bool;
  required : bool
}.

Inductive PasswordStrength :=
| VeryWeak | Weak | Medium | Strong | VeryStrong | Invalid.

(** The feedback messages of the evaluator, one constructor per string
    literal of the source:
    - [PasswordRequired]: 'Password is required'
    - [TooShort n]: `Password must be at least ${n} characters long`
    - [TooLong n]: `Password must not exceed ${n} characters`
    - [NeedUppercase]: 'Password must contain at least one uppercase letter (A-Z)'
    - [NeedLowercase]: 'Password must contain at least one lowercase letter (a-z)'
    - [NeedNumber]: 'Password must contain at least one number (0-9)'
    - [NeedSpecial]: 'Password must contain at least one special character (...)'
    - [TooCommon]: 'This password is too common. Please choose a more unique password'
    - [WarnSequence]: the warning 'Avoid common sequences like 123 or abc for better security'
    - [WarnRepeated]: the warning 'Avoid repeating characters like aaa for better security'
    - [WarnKeyboard]: the warning 'Avoid keyboard patterns like qwerty for better security'
    - [MeetsAll]: 'Password meets all requirements'
    The three warnings are the messages that start with the warning sign. *)
Inductive Feedback :=
| PasswordRequired
| TooShort (n : Z)
| TooLong (n : Z)
| NeedUppercase
| NeedLowercase
| NeedNumber
| NeedSpecial
| TooCommon
| WarnSequence
| WarnRepeated
| WarnKeyboard
| MeetsAll.

Definition isWarning (m : Feedback) : bool :=
  match m with
  | WarnSequence | WarnRepeated | WarnKeyboard => true
  | _ => false
  end.

Record ValidationResult := {
  isValid : bool;
  score : Z;
  strength : PasswordStrength;
  feedback : list Feedback;
  requirements : list ValidationRequirement
}.

Definition DEFAULT_PASSWORD_REQUIREMENTS : PasswordRequirements := {|
  minLength := 8;
  maxLength := 128;
  requireUppercase := true;
  requireLowercase := true;
  requireNumbers := true;
  requireSpecialChars := true;
  preventCommonPasswords := true
|}.

Definition COMMON_PASSWORDS : list string :=
  [ "password"; "123456"; "12345678"; "qwerty"; "abc123";
    "password123"; "admin"; "letmein"; "welcome"; "1234567890";
    "gearfalcon"; "aircon"; "service"; "customer"; "admin123" ].

(** The character class of [REGEX_PATTERNS.specialChars]. *)
Definition specialCharClass : list ascii :=
  Js.chars "!@#$%^&*(),.?" ++ [Js.dquote] ++ Js.chars ":{}|<>_-+=[]\/~`".

Definition isSpecialChar (c : ascii) : bool :=
  existsb (Ascii.eqb c) specialCharClass.

Definition commonSequenceAlternatives : list string :=
  [ "012"; "123"; "234"; "345"; "456"; "567"; "678"; "789"; "890";
    "abc"; "bcd"; "cde"; "def"; "efg"; "fgh"; "ghi"; "hij"; "ijk"; "jkl";
    "klm"; "lmn"; "mno"; "nop"; "opq"; "pqr"; "qrs"; "rst"; "stu"; "tuv";
    "uvw"; "vwx"; "wxy"; "xyz" ].

Definition keyboardAlternatives : list string :=
  [ "qwe"; "wer"; "ert"; "rty"; "tyu"; "yui"; "uio"; "iop"; "asd"; "sdf";
    "dfg"; "fgh"; "ghj"; "hjk"; "jkl"; "zxc"; "xcv"; "cvb"; "vbn"; "bnm" ].

(** [REGEX_PATTERNS.<name>.test(password)] *)
Module REGEX_PATTERNS.
Definition uppercase (s : string) : bool := Js.testClass (Js.between 65 90) s.
Definition lowercase (s : string) : bool := Js.testClass (Js.between 97 122) s.
Definition numbers (s : string) : bool := Js.testClass (Js.between 48 57) s.
Definition specialChars (s : string) : bool := Js.testClass isSpecialChar s.
Definition commonSequence (s : string) : bool :=
  Js.testAlternatives_i commonSequenceAlternatives s.
Definition repeatedChars (s : string) : bool := Js.testRepeated s.
Definition keyboard (s : string) : bool :=
  Js.testAlternatives_i keyboardAlternatives s.
End REGEX_PATTERNS.

(** [{ ...DEFAULT_PASSWORD_REQUIREMENTS, ...options }] *)
Definition mergeConfig (options : PartialRequirements) : PasswordRequirements :=
  let d := DEFAULT_PASSWORD_REQUIREMENTS in {|
  minLength := default (minLength d) (opt_minLength options);
  maxLength := default (maxLength d) (opt_maxLength options);
  requireUppercase := default (requireUppercase d) (opt_requireUppercase options);
  requireLowercase := default (requireLowercase d) (opt_requireLowercase options);
  requireNumbers := default (requireNumbers d) (opt_requireNumbers options);
  requireSpecialChars :=
    default (requireSpecialChars d) (opt_requireSpecialChars options);
  preventCommonPasswords :=
    default (preventCommonPasswords d) (opt_preventCommonPasswords options)
|}.

(** The options object that overrides every field. *)
Definition explicitOptions (c : PasswordRequirements) : PartialRequirements := {|
  opt_minLength := Some (minLength c);
  opt_maxLength := Some (maxLength c);
  opt_requireUppercase := Some (requireUppercase c);
  opt_requireLowercase := Some (requireLowercase c);
  opt_requireNumbers := Some (requireNumbers c);
  opt_requireSpecialChars := Some (requireSpecialChars c);
  opt_preventCommonPasswords := Some (preventCommonPasswords c)
|}.

Definition noOptions : PartialRequirements :=
  Build_PartialRequirements None None None None None None None.

Definition getPasswordStrength (score : Z) : PasswordStrength :=
  if score >=? 80 then VeryStrong
  else if score >=? 60 then Strong
  else if score >=? 40 then Medium
  else if score >=? 20 then Weak
  else VeryWeak.

Definition getRequirementsList (password : string) (config : PasswordRequirements)
  : list ValidationRequirement :=
  List.filter (fun req => required req)
    [ {| id := "length";
         label := ("At least " ++ Js.showZ (minLength config) ++ " characters")%string;
         met := Js.len password >=? minLength config;
         required := true |};
      {| id := "uppercase";
         label := "One uppercase letter (A-Z)";
         met := REGEX_PATTERNS.uppercase password;
         required := requireUppercase config |};
      {| id := "lowercase";
         label := "One lowercase letter (a-z)";
         met := REGEX_PATTERNS.lowercase password;
         required := requireLowercase config |};
      {| id := "numbers";
         label := "One number (0-9)";
         met := REGEX_PATTERNS.numbers password;
         required := requireNumbers config |};
      {| id := "special";
         label := "One special character (!@#$%^&*)";
         met := REGEX_PATTERNS.specialChars password;
         required := requireSpecialChars config |};
      {| id := "common";
         label := "Not a common password";
         met := negb (Js.includes COMMON_PASSWORDS (Js.toLowerCase password));
         required := preventCommonPasswords config |} ].

(** The argument [password] as it arrives at run time: a string, or a value
    of another type, of which only the truthiness is observed. *)
Inductive PasswordArg :=
| PwString (s : string)
| PwOther (truthy : bool).

(** [!password || typeof password !== 'string'] *)
Definition passwordMissing (password : PasswordArg) : bool :=
  match password with
  | PwString s => negb (Js.truthy s) || false
  | PwOther t => negb t || true
  end.

(** The mutable locals [feedback], [score] and [isValid] of
    [validatePasswordStrength]. *)
Record Locals := {
  l_feedback : list Feedback;
  l_score : Z;
  l_isValid : bool
}.

Definition initialLocals : Locals :=
  {| l_feedback := []; l_score := 0; l_isValid := true |}.

(** [feedback.push(msg); isValid = false;] *)
Definition fail (msg : Feedback) (l : Locals) : Locals :=
  {| l_feedback := l_feedback l ++ [msg];
     l_score := l_score l;
     l_isValid := false |}.

(** [score += n;] *)
Definition addScore (n : Z) (l : Locals) : Locals :=
  {| l_feedback := l_feedback l;
     l_score := l_score l + n;
     l_isValid := l_isValid l |}.

(** [feedback.push(msg); score -= 10;] *)
Definition warn (msg : Feedback) (l : Locals) : Locals :=
  {| l_feedback := l_feedback l ++ [msg];
     l_score := l_score l - 10;
     l_isValid := l_isValid l |}.

Section Rules.
Variable password : string.
Variable config : PasswordRequirements.

Definition lengthValidation (l : Locals) : Locals :=
  if Js.len password <? minLength config then fail (TooShort (minLength config)) l
  else if Js.len password >=? minLength config then addScore 10 l
  else l.

Definition maxLengthValidation (l : Locals) : Locals :=
  if Js.len password >? maxLength config then fail (TooLong (maxLength config)) l
  else l.

(** The shape shared by the four character type requirements:
    [if (required && !present) { push; isValid = false }
     else if (present) { score += 15 }]. *)
Definition characterType (isRequired present : bool) (msg : Feedback)
  (l : Locals) : Locals :=
  if isRequired && negb present then fail msg l
  else if present then addScore 15 l
  else l.

Definition uppercaseRequirement : Locals -> Locals :=
  characterType (requireUppercase config)
                (REGEX_PATTERNS.uppercase password) NeedUppercase.

Definition lowercaseRequirement : Locals -> Locals :=
  characterType (requireLowercase config)
                (REGEX_PATTERNS.lowercase password) NeedLowercase.

Definition numbersRequirement : Locals -> Locals :=
  characterType (requireNumbers config)
                (REGEX_PATTERNS.numbers password) NeedNumber.

Definition specialCharsRequirement : Locals -> Locals :=
  characterType (requireSpecialChars config)
                (REGEX_PATTERNS.specialChars password) NeedSpecial.

Definition commonPasswordCheck (l : Locals) : Locals :=
  if preventCommonPasswords config
     && Js.includes COMMON_PASSWORDS (Js.toLowerCase password)
  then addScore (-20) (fail TooCommon l)
  else l.

(** Pattern-based weaknesses (warnings, not strict requirements). *)
Definition sequenceWarning (l : Locals) : Locals :=
  if REGEX_PATTERNS.commonSequence password then warn WarnSequence l else l.

Definition repeatedWarning (l : Locals) : Locals :=
  if REGEX_PATTERNS.repeatedChars password then warn WarnRepeated l else l.

Definition keyboardWarning (l : Locals) : Locals :=
  if REGEX_PATTERNS.keyboard password then warn WarnKeyboard l else l.

Definition lengthBonus (l : Locals) : Locals :=
  let l1 := if Js.len password >=? 12 then addScore 10 l else l in
  if Js.len password >=? 16 then addScore 10 l1 else l1.

(** [uniqueChars >= password.length * 0.7], compared exactly:
    [10 * uniqueChars >= 7 * password.length]. *)
Definition diversityBonus (l : Locals) : Locals :=
  let uniqueChars := Js.distinctCount (Js.toLowerCase password) in
  if 10 * uniqueChars >=? 7 * Js.len password then addScore 10 l else l.

(** The hard requirements, in the order of the source. *)
Definition hardRules (l : Locals) : Locals :=
  commonPasswordCheck
    (specialCharsRequirement
      (numbersRequirement
        (lowercaseRequirement
          (uppercaseRequirement
            (maxLengthValidation
              (lengthValidation l)))))).

Definition patternWarnings (l : Locals) : Locals :=
  keyboardWarning (repeatedWarning (sequenceWarning l)).

Definition bonuses (l : Locals) : Locals :=
  diversityBonus (lengthBonus l).

Definition evaluateRules : Locals :=
  bonuses (patternWarnings (hardRules initialLocals)).

End Rules.

(** The result of the early return for a missing password. *)
Definition missingResult (config : PasswordRequirements) : ValidationResult :=
  {| isValid := false; score := 0; strength := Invalid;
     feedback := [PasswordRequired];
     requirements := getRequirementsList "" config |}.

Definition validatePasswordStrength
  (password : PasswordArg) (options : PartialRequirements) : ValidationResult :=
  let config := mergeConfig options in
  if passwordMissing password then missingResult config
  else
    match password with
    | PwString s =>
        let l := evaluateRules s config in
        let score := Z.max 0 (l_score l) in
        {| isValid := l_isValid l;
           score := score;
           strength := getPasswordStrength score;
           feedback := if (Z.of_nat (length (l_feedback l)) >? 0)
                       then l_feedback l else [MeetsAll];
           requirements := getRequirementsList s config |}
    | PwOther _ =>
        (* not reached: a value of another type is always missing *)
        missingResult config
    end.

(** Admin-specific and customer-specific requirements. *)
Definition ADMIN_PASSWORD_REQUIREMENTS : PasswordRequirements := {|
  minLength := 12;
  maxLength := 128;
  requireUppercase := requireUppercase DEFAULT_PASSWORD_REQUIREMENTS;
  requireLowercase := requireLowercase DEFAULT_PASSWORD_REQUIREMENTS;
  requireNumbers := requireNumbers DEFAULT_PASSWORD_REQUIREMENTS;
  requireSpecialChars := requireSpecialChars DEFAULT_PASSWORD_REQUIREMENTS;
  preventCommonPasswords := preventCommonPasswords DEFAULT_PASSWORD_REQUIREMENTS
|}.

Definition CUSTOMER_PASSWORD_REQUIREMENTS : PasswordRequirements := {|
  minLength := 8;
  maxLength := maxLength DEFAULT_PASSWORD_REQUIREMENTS;
  requireUppercase := requireUppercase DEFAULT_PASSWORD_REQUIREMENTS;
  requireLowercase := requireLowercase DEFAULT_PASSWORD_REQUIREMENTS;
  requireNumbers := requireNumbers DEFAULT_PASSWORD_REQUIREMENTS;
  requireSpecialChars := requireSpecialChars DEFAULT_PASSWORD_REQUIREMENTS;
  preventCommonPasswords := preventCommonPasswords DEFAULT_PASSWORD_REQUIREMENTS
|}.

Inductive UserType := customer | admin | technician | supervisor | manager.

Definition PASSWORD_CONFIGS (u : UserType) : PasswordRequirements :=
  match u with
  | customer => CUSTOMER_PASSWORD_REQUIREMENTS
  | admin | technician | supervisor | manager => ADMIN_PASSWORD_REQUIREMENTS
  end.

(** What the checklist reports: every listed entry that is required is met. *)
Definition allRequiredMet (r : ValidationResult) : Prop :=
  forall q, In q (requirements r) -> required q = true -> met q = true.

Definition allRequiredMetb (r : ValidationResult) : bool :=
  forallb (fun q => implb (required q) (met q)) (requirements r).

(** The conjunction of the hard requirements, written without the locals. *)
Definition meetsHardRules (password : string) (config : PasswordRequirements) : bool :=
  (Js.len password >=? minLength config)
  && (Js.len password <=? maxLength config)
  && implb (requireUppercase config) (REGEX_PATTERNS.uppercase password)
  && implb (requireLowercase config) (REGEX_PATTERNS.lowercase password)
  && implb (requireNumbers config) (REGEX_PATTERNS.numbers password)
  && implb (requireSpecialChars config) (REGEX_PATTERNS.specialChars password)
  && negb (preventCommonPasswords config
           && Js.includes COMMON_PASSWORDS (Js.toLowerCase password)).

(** The number of pattern-based weaknesses found in a password, and the
    warnings they give, in the order of the source. *)
Definition patternMatches (password : string) : Z :=
  Z.b2z (REGEX_PATTERNS.commonSequence password)
  + Z.b2z (REGEX_PATTERNS.repeatedChars password)
  + Z.b2z (REGEX_PATTERNS.keyboard password).

Definition expectedWarnings (password : string) : list Feedback :=
  (if REGEX_PATTERNS.commonSequence password then [WarnSequence] else [])
  ++ (if REGEX_PATTERNS.repeatedChars password then [WarnRepeated] else [])
  ++ (if REGEX_PATTERNS.keyboard password then [WarnKeyboard] else []).

(** The points added by the two length bonuses and the diversity bonus. *)
Definition bonusPoints (password : string) : Z :=
  (if Js.len password >=? 12 then 10 else 0)
  + (if Js.len password >=? 16 then 10 else 0)
  + (if 10 * Js.distinctCount (Js.toLowerCase password) >=? 7 * Js.len password
     then 10 else 0).

(** The points that the hard rules leave in [score]. *)
Definition classPoints (isRequired present : bool) : Z :=
  if isRequired && negb present then 0 else if present then 15 else 0.

Definition hardPoints (password : string) (config : PasswordRequirements) : Z :=
  (if Js.len password <? minLength config then 0 else 10)
  + classPoints (requireUppercase config) (REGEX_PATTERNS.uppercase password)
  + classPoints (requireLowercase config) (REGEX_PATTERNS.lowercase password)
  + classPoints (requireNumbers config) (REGEX_PATTERNS.numbers password)
  + classPoints (requireSpecialChars config) (REGEX_PATTERNS.specialChars password)
  + (if preventCommonPasswords config
        && Js.includes COMMON_PASSWORDS (Js.toLowerCase password)
     then -20 else 0).

(** A feedback message of a hard requirement: neither a warning nor the
    message of success. *)
Definition isHardFailure (m : Feedback) : bool :=
  match m with
  | WarnSequence | WarnRepeated | WarnKeyboard | MeetsAll => false
  | _ => true
  end.

(** While the hard rules run, [isValid] is true exactly as long as nothing
    was pushed. *)
Definition untouched (l : Locals) : Prop :=
  (l_isValid l = true <-> l_feedback l = [])
  /\ forallb isHardFailure (l_feedback l) = true.

(** The order of the strength categories of a present password. *)
Definition strengthRank (s : PasswordStrength) : Z :=
  match s with
  | Invalid => -1
  | VeryWeak => 0
  | Weak => 1
  | Medium => 2
  | Strong => 3
  | VeryStrong => 4
  end.

(** A configuration with another value of [preventCommonPasswords]. *)
Definition withPreventCommon (b : bool) (c : PasswordRequirements)
  : PasswordRequirements :=
  {| minLength := minLength c; maxLength := maxLength c;
     requireUppercase := requireUppercase c;
     requireLowercase := requireLowercase c;
     requireNumbers := requireNumbers c;
     requireSpecialChars := requireSpecialChars c;
     preventCommonPasswords := b |}.

End PasswordValidator.

(* ===================================================================== *)
(** * Secure password generator ([generateSecurePassword]) *)
(* ===================================================================== *)

Module PasswordGenerator.

(** ** The random source

    The behaviour of the random source is the sequence of numbers it hands
    out, one per request.  A computation reads a finite record of that
    sequence; [Waiting] says that the record ended while the code was still
    asking for a number. *)

Inductive Result (A : Type) :=
| Returned (a : A) (rest : list Z)
| Thrown (message : string)
| Waiting.
Arguments Returned {A} a rest.
Arguments Thrown {A} message.
Arguments Waiting {A}.

Definition Rand (A : Type) : Type := list Z -> Result A.

Definition ret {A} (a : A) : Rand A := fun draws => Returned a draws.

Definition bind {A B} (m : Rand A) (k : A -> Rand B) : Rand B :=
  fun draws =>
    match m draws with
    | Returned a rest => k a rest
    | Thrown msg => Thrown msg
    | Waiting => Waiting
    end.

Notation "x <- m ;; k" := (bind m (fun x => k))
  (at level 100, m at next level, right associativity).

(** [Math.floor(Math.random() * n)]: the next number [d] of the source is
    read as the fraction [(d mod 2^53) / 2^53] of the unit interval. *)
Definition mathRandomFloor (n : Z) : Rand Z :=
  fun draws =>
    match draws with
    | [] => Waiting
    | d :: rest => Returned ((d mod 2 ^ 53) * n / 2 ^ 53) rest
    end.

(** The [do ... while (x >= limit)] loop of [secureRandomInt]:
    [getRandomValues] stores the next number into a [Uint32Array]. *)
Fixpoint rejectionLoop (limit maxExclusive : Z) (draws : list Z) : Result Z :=
  match draws with
  | [] => Waiting
  | d :: rest =>
      let x := d mod 2 ^ 32 in
      if x >=? limit then rejectionLoop limit maxExclusive rest
      else Returned (x mod maxExclusive) rest
  end.

Definition secureRandomInt (maxExclusive : Z) : Rand Z :=
  fun draws =>
    if maxExclusive <=? 0 then Thrown "maxExclusive must be > 0"
    else
      let maxUint32 := 4294967295 in
      let limit := (maxUint32 + 1) / maxExclusive * maxExclusive in
      rejectionLoop limit maxExclusive draws.

(** ** Arrays of characters

    An element is a character or [undefined] ([None]); reading past the end
    yields [undefined], and [join('')] prints [undefined] as nothing. *)

Definition at_ (arr : list (option ascii)) (i : Z) : option ascii :=
  if i <? 0 then None else mjoin (arr !! Z.to_nat i).

(** [pool[i]] on a string. *)
Definition charAt (pool : string) (i : Z) : option ascii :=
  if i <? 0 then None else Js.chars pool !! Z.to_nat i.

Fixpoint joinArray (arr : list (option ascii)) : string :=
  match arr with
  | [] => EmptyString
  | Some c :: arr' => String c (joinArray arr')
  | None :: arr' => joinArray arr'
  end.

(** [[arr[i], arr[j]] = [arr[j], arr[i]]] for indices inside the array (the
    only ones the shuffle produces; an assignment past the end would grow a
    JavaScript array, which the list update does not do). *)
Definition swap (i j : Z) (arr : list (option ascii)) : list (option ascii) :=
  let vj := at_ arr j in
  let vi := at_ arr i in
  <[Z.to_nat j := vi]> (<[Z.to_nat i := vj]> arr).

(** The Fisher-Yates loop [for (let i = arr.length - 1; i > 0; i--)],
    written once for both random sources. *)
Fixpoint fisherYates (rand : Z -> Rand Z) (i : nat) (arr : list (option ascii))
  : Rand (list (option ascii)) :=
  match i with
  | O => ret arr
  | S i' =>
      j <- rand (Z.of_nat i + 1) ;;
      fisherYates rand i' (swap (Z.of_nat i) j arr)
  end.

Definition secureShuffle (arr : list (option ascii)) : Rand (list (option ascii)) :=
  fisherYates secureRandomInt (length arr - 1) arr.

Definition uppercase : string := "ABCDEFGHIJKLMNOPQRSTUVWXYZ".
Definition lowercase : string := "abcdefghijklmnopqrstuvwxyz".
Definition numbers : string := "0123456789".
Definition special : string := "!@#$%^&*()_-=[]{}|;:,.<>?".
Definition allChars : string := (uppercase ++ lowercase ++ numbers ++ special)%string.

Section Generate.
(** Whether [getWebCrypto()] found a Web Crypto object.  Without one the
    source logs a warning and draws from [Math.random]. *)
Variable cryptoObj : bool.

Definition pick (pool : string) : Rand (option ascii) :=
  i <- (if cryptoObj then secureRandomInt (Js.len pool)
        else mathRandomFloor (Js.len pool)) ;;
  ret (charAt pool i).

(** [while (chars.length < 12) chars.push(pick(allChars))]; every turn adds
    one element, so [fuel = 12] turns are never exceeded. *)
Fixpoint fillLoop (fuel : nat) (chars : list (option ascii))
  : Rand (list (option ascii)) :=
  match fuel with
  | O => ret chars
  | S fuel' =>
      if Z.of_nat (length chars) <? 12 then
        c <- pick allChars ;;
        fillLoop fuel' (chars ++ [c])
      else ret chars
  end.

Definition generateSecurePassword : Rand string :=
  c1 <- pick uppercase ;;
  c2 <- pick lowercase ;;
  c3 <- pick numbers ;;
  c4 <- pick special ;;
  chars <- fillLoop 12 [c1; c2; c3; c4] ;;
  shuffled <- (if cryptoObj then secureShuffle chars
               else fisherYates mathRandomFloor (length chars - 1) chars) ;;
  ret (joinArray shuffled).

End Generate.

(** A call with a surplus argument, [generateSecurePassword(n)]: the
    function declares no parameter, so the argument is dropped. *)
Definition generateSecurePassword_with (n : Z) (cryptoObj : bool) : Rand string :=
  generateSecurePassword cryptoObj.

(** A number of the source that the rejection loop accepts for every bound
    up to 87, the size of the largest pool. *)
Definition accepted (d : Z) : bool := d mod 2 ^ 32 <? 2 ^ 32 - 87.

(** The character classes of the four mandatory pools. *)
Definition isUpper (c : ascii) : bool := Js.between 65 90 c.
Definition isLower (c : ascii) : bool := Js.between 97 122 c.
Definition isDigit (c : ascii) : bool := Js.between 48 57 c.
Definition isSpecial (c : ascii) : bool := existsb (Ascii.eqb c) (Js.chars special).

(** ** Two readings of a computation over the random source

    [safe m Q]: [m] never throws, and whatever it returns satisfies [Q].
    [progresses k m]: [m] returns once the source has supplied [k] accepted
    numbers, and leaves the others for what follows. *)

Definition safe {A} (m : Rand A) (Q : A -> Prop) : Prop :=
  forall draws,
    match m draws with
    | Returned a _ => Q a
    | Thrown _ => False
    | Waiting => True
    end.

Definition supply (draws : list Z) : nat := length (List.filter accepted draws).

Definition progresses {A} (k : nat) (m : Rand A) : Prop :=
  forall draws n, (k + n <= supply draws)%nat ->
    exists a rest, m draws = Returned a rest /\ (n <= supply rest)%nat.

(** Either source, as the generator selects it. *)
Definition source (cryptoObj : bool) : Z -> Rand Z :=
  if cryptoObj then secureRandomInt else mathRandomFloor.

(** An element picked from a pool. *)
Definition fromPool (pool : string) (oc : option ascii) : Prop :=
  exists c, oc = Some c /\ In c (Js.chars pool).

(** Some element of the array is a character of the class [p]. *)
Definition hasClass (p : ascii -> bool) (arr : list (option ascii)) : Prop :=
  exists c, In (Some c) arr /\ p c = true.

(** The array before it is joined: twelve characters, one of each class. *)
Definition complete (arr : list (option ascii)) : Prop :=
  length arr = 12%nat
  /\ Forall (fun o => o <> None) arr
  /\ hasClass isUpper arr /\ hasClass isLower arr
  /\ hasClass isDigit arr /\ hasClass isSpecial arr.

(** The generated string: twelve characters, one of each class. *)
Definition wellFormed (pw : string) : Prop :=
  String.length pw = 12%nat
  /\ Js.testClass isUpper pw = true /\ Js.testClass isLower pw = true
  /\ Js.testClass isDigit pw = true /\ Js.testClass isSpecial pw = true.

(** The bound [limit] that [secureRandomInt] computes, and the numbers its
    loop throws away. *)
Definition rejectionLimit (maxExclusive : Z) : Z :=
  (4294967295 + 1) / maxExclusive * maxExclusive.

Definition rejectedBy (limit : Z) (d : Z) : Prop := limit <= d mod 2 ^ 32.

(** A character of the generator's special pool that the evaluator's
    class of special characters holds too: any but the semicolon. *)
Definition isSharedSpecial (c : ascii) : bool :=
  isSpecial c && negb (Ascii.eqb c ";"%char).

(** A number of the source whose low 32 bits lie below [2^31]: the
    rejection loop accepts it for every bound up to [2^31], and
    [Math.random] has nothing to reject. *)
Definition low (d : Z) : bool := d mod 2 ^ 32 <? 2 ^ 31.

Definition lowSupply (draws : list Z) : nat := length (List.filter low draws).

End PasswordGenerator.

(* ===================================================================== *)
(** * The validation hook ([usePasswordValidation]) *)
(* ===================================================================== *)

Module PasswordHook.
Import PasswordValidator.

(** [options: Partial<PasswordRequirements> | UserType] *)
Inductive HookOptions :=
| OptionsObject (o : PartialRequirements)
| OptionsUserType (u : UserType).

(** [resolvedOptions]: a user type selects its predefined configuration. *)
Definition resolvedOptions (options : HookOptions) : PartialRequirements :=
  match options with
  | OptionsUserType u => explicitOptions (PASSWORD_CONFIGS u)
  | OptionsObject o => o
  end.

(** The state cells of the hook, the pending [setTimeout] callback with the
    password and options it has captured, and the record of the passwords
    handed to [validatePasswordStrength] so far. *)
Record HookState := {
  validation : option ValidationResult;
  isValidating : bool;
  timeout : option (string * PartialRequirements);
  evaluated : list string
}.

Definition initialState : HookState :=
  {| validation := None; isValidating := false; timeout := None; evaluated := [] |}.

(** [!password || password.trim() === ''] *)
Definition isBlank (password : string) : bool :=
  negb (Js.truthy password) || String.eqb (Js.trim password) "".

(** The cleanup of the previous effect run, [clearTimeout(timeoutId)]. *)
Definition cleanup (st : HookState) : HookState :=
  {| validation := validation st; isValidating := isValidating st;
     timeout := None; evaluated := evaluated st |}.

(** The effect of [useEffect(..., [password, resolvedOptions])]. *)
Definition effect (password : string) (options : HookOptions) (st : HookState)
  : HookState :=
  let st := cleanup st in
  if isBlank password then
    {| validation := None; isValidating := false;
       timeout := timeout st; evaluated := evaluated st |}
  else
    {| validation := validation st; isValidating := true;
       timeout := Some (password, resolvedOptions options);
       evaluated := evaluated st |}.

(** The callback given to [setTimeout(..., 300)]. *)
Definition timeoutElapsed (st : HookState) : HookState :=
  match timeout st with
  | None => st
  | Some (password, options) =>
      {| validation := Some (validatePasswordStrength (PwString password) options);
         isValidating := false;
         timeout := None;
         evaluated := evaluated st ++ [password] |}
  end.

Inductive Event :=
| EffectRuns (password : string) (options : HookOptions)
| TimeoutElapses.

Definition step (st : HookState) (ev : Event) : HookState :=
  match ev with
  | EffectRuns password options => effect password options st
  | TimeoutElapses => timeoutElapsed st
  end.

Definition run (evs : list Event) (st : HookState) : HookState :=
  fold_left step evs st.

(** The object the hook returns. *)
Record PasswordValidationState := {
  r_validation : option ValidationResult;
  r_isValidating : bool;
  r_isValid : bool;
  r_strength : PasswordStrength;
  r_score : Z;
  r_feedback : list Feedback;
  r_requirements : list ValidationRequirement;
  r_hasError : bool;
  r_isStrong : bool;
  r_isVeryStrong : bool;
  r_meetsMinimum : bool
}.

Definition isStrength (a b : PasswordStrength) : bool :=
  match a, b with
  | VeryWeak, VeryWeak | Weak, Weak | Medium, Medium | Strong, Strong
  | VeryStrong, VeryStrong | Invalid, Invalid => true
  | _, _ => false
  end.

(** [validation?.f || d] where [f] is a boolean or a number. *)
Definition orFalse (v : option bool) : bool :=
  match v with Some b => b || false | None => false end.

Definition orZero (v : option Z) : Z :=
  match v with Some n => if n =? 0 then 0 else n | None => 0 end.

Definition hookReturn (st : HookState) : PasswordValidationState :=
  let v := validation st in
  {| r_validation := v;
     r_isValidating := isValidating st;
     r_isValid := orFalse (isValid <$> v);
     r_strength := default VeryWeak (strength <$> v);
     r_score := orZero (score <$> v);
     r_feedback := default [] (feedback <$> v);
     r_requirements := default [] (requirements <$> v);
     r_hasError := match v with Some r => negb (isValid r) | None => false end;
     r_isStrong := match v with Some r => isStrength (strength r) Strong | None => false end;
     r_isVeryStrong :=
       match v with Some r => isStrength (strength r) VeryStrong | None => false end;
     r_meetsMinimum := orFalse (isValid <$> v) |}.

(** The evaluator has seen, and the pending callback holds, only passwords
    that are not blank. *)
Definition guarded (st : HookState) : Prop :=
  Forall (fun pw => isBlank pw = false) (evaluated st)
  /\ forall pw o, timeout st = Some (pw, o) -> isBlank pw = false.

(** One call of the hook, during a render: the body reads the state cells
    and returns the object derived from them; the effect it hands to
    [useEffect] runs after the render, when [password] or
    [resolvedOptions] has changed. *)
Definition usePasswordValidation (password : string) (options : HookOptions)
  (st : HookState) : PasswordValidationState * (HookState -> HookState) :=
  (hookReturn st, effect password options).

End PasswordHook.

(* ===================================================================== *)
(** * The confirmation and form hooks ([usePasswordConfirmation],
      [usePasswordForm]) *)
(* ===================================================================== *)

Module PasswordForm.
Import PasswordValidator PasswordHook.

(** The state cell [confirmationValidation]. *)
Record ConfirmationValidation := {
  cv_isValid : bool;
  cv_message : string
}.

Definition initialConfirmation : ConfirmationValidation :=
  {| cv_isValid := true; cv_message := EmptyString |}.

(** The effect of [usePasswordConfirmation]; it replaces the cell. *)
Definition confirmationEffect (password confirmPassword : string)
  : ConfirmationValidation :=
  if negb (Js.truthy password) || negb (Js.truthy confirmPassword) then
    {| cv_isValid := true; cv_message := EmptyString |}
  else
    let isMatch := String.eqb password confirmPassword in
    {| cv_isValid := isMatch;
       cv_message := if isMatch then "Passwords match"
                     else "Passwords do not match" |}.

Record PasswordConfirmationState := {
  c_isValid : bool;
  c_message : string;
  c_hasError : bool;
  c_isEmpty : bool
}.

(** The object [usePasswordConfirmation] returns. *)
Definition confirmationReturn (confirmPassword : string)
  (cv : ConfirmationValidation) : PasswordConfirmationState :=
  {| c_isValid := cv_isValid cv;
     c_message := cv_message cv;
     c_hasError := negb (cv_isValid cv) && (Js.len confirmPassword >? 0);
     c_isEmpty := negb (Js.truthy confirmPassword)
                  || String.eqb (Js.trim confirmPassword) EmptyString |}.

(** The state of [usePasswordForm]: that of the two hooks it calls. *)
Record FormState := {
  f_validation : HookState;
  f_confirmation : ConfirmationValidation
}.

Definition initialForm : FormState :=
  {| f_validation := initialState; f_confirmation := initialConfirmation |}.

Inductive FormEvent :=
| ValidationEffect (password : string) (options : HookOptions)
| ConfirmationEffect (password confirmPassword : string)
| Timeout.

Definition formStep (st : FormState) (ev : FormEvent) : FormState :=
  match ev with
  | ValidationEffect password options =>
      {| f_validation := effect password options (f_validation st);
         f_confirmation := f_confirmation st |}
  | ConfirmationEffect password confirmPassword =>
      {| f_validation := f_validation st;
         f_confirmation := confirmationEffect password confirmPassword |}
  | Timeout =>
      {| f_validation := timeoutElapsed (f_validation st);
         f_confirmation := f_confirmation st |}
  end.

Definition formRun (evs : list FormEvent) (st : FormState) : FormState :=
  fold_left formStep evs st.

(** An entry of the array that [getFormErrors] returns: a feedback message
    of the evaluator or the message of the confirmation. *)
Inductive FormError :=
| OfFeedback (m : Feedback)
| OfMessage (message : string).

Record PasswordSubmissionData := {
  d_password : string;
  d_isPasswordValid : bool;
  d_passwordStrength : PasswordStrength;
  d_passwordScore : Z
}.

Record PasswordFormState := {
  p_password : PasswordValidationState;
  p_confirmation : PasswordConfirmationState;
  p_isFormValid : bool;
  p_hasAnyErrors : bool;
  p_canSubmit : bool;
  p_getFormErrors : list FormError;
  p_getSubmissionData : PasswordSubmissionData
}.

(** The object [usePasswordForm] returns for the current props. *)
Definition formReturn (password confirmPassword : string) (st : FormState)
  : PasswordFormState :=
  let passwordValidation := hookReturn (f_validation st) in
  let confirmationValidation :=
    confirmationReturn confirmPassword (f_confirmation st) in
  let isFormValid :=
    r_isValid passwordValidation && c_isValid confirmationValidation in
  {| p_password := passwordValidation;
     p_confirmation := confirmationValidation;
     p_isFormValid := isFormValid;
     p_hasAnyErrors :=
       r_hasError passwordValidation || c_hasError confirmationValidation;
     p_canSubmit :=
       isFormValid && (Js.len password >? 0) && (Js.len confirmPassword >? 0);
     p_getFormErrors :=
       (if r_hasError passwordValidation
        then map OfFeedback (r_feedback passwordValidation) else [])
       ++ (if c_hasError confirmationValidation
           then [OfMessage (c_message confirmationValidation)] else []);
     p_getSubmissionData :=
       {| d_password := password;
          d_isPasswordValid := r_isValid passwordValidation;
          d_passwordStrength := r_strength passwordValidation;
          d_passwordScore := r_score passwordValidation |} |}.

(** The stored validation, if any, is a result of the evaluator. *)
Definition fromEvaluator (st : HookState) : Prop :=
  match validation st with
  | None => True
  | Some r => exists password options,
      r = validatePasswordStrength (PwString password) options
  end.

End PasswordForm.

(* ===================================================================== *)
(** * Session token store ([AuthProvider] in [useAuth.tsx]) *)
(* ===================================================================== *)

Module AuthProvider.

(** [Boolean(v)] for [v : string | null]. *)
Definition Boolean (v : option string) : bool :=
  match v with
  | None => false
  | Some s => Js.truthy s
  end.

(** The state cell [accessToken], initially [null]. *)
Definition initialToken : option string := None.

Definition setAccessToken (token : option string) (accessToken : option string)
  : option string := token.

Definition logout (accessToken : option string) : option string := None.

Record AuthContextValue := {
  accessToken : option string;
  isAuthenticated : bool
}.

(** The memoised context value. *)
Definition value (token : option string) : AuthContextValue :=
  {| accessToken := token; isAuthenticated := Boolean token |}.

End AuthProvider.

(* ===================================================================== *)
(** * Authenticated request pipeline ([axiosClient.ts]) *)
(* ===================================================================== *)

Module AxiosClient.

(** ** Token bridge

    [registerTokenAccess(getter, setter)] installs a pair of functions over
    some store that the client does not see. *)
Record TokenAccess := {
  Store : Type;
  getAccessToken : Store -> option string;
  setAccessToken : option string -> Store -> Store
}.

(** The pair in place before any registration: [() => null] and [() => {}]. *)
Definition unregistered : TokenAccess :=
  {| Store := unit;
     getAccessToken := fun _ => None;
     setAccessToken := fun _ s => s |}.

(** The token store of the specification: one cell, read and written. *)
Definition memoryCell : TokenAccess :=
  {| Store := option string;
     getAccessToken := fun s => s;
     setAccessToken := fun t _ => t |}.

(** The pair that [AuthProvider] registers in its effect: the getter
    [() => accessToken] returns the token of the render that registered it,
    the setter writes the state cell; [rerender] is the next run of the
    effect, which registers a getter over the current cell. *)
Record ProviderStore := {
  cell : option string;
  captured : option string
}.

Definition authProvider : TokenAccess :=
  {| Store := ProviderStore;
     getAccessToken := fun s => captured s;
     setAccessToken := fun t s => {| cell := t; captured := captured s |} |}.

Definition rerender (s : ProviderStore) : ProviderStore :=
  {| cell := cell s; captured := cell s |}.

(** The getter returns what the setter stored last. *)
Definition readsLastWrite (B : TokenAccess) : Prop :=
  forall t s, getAccessToken B (setAccessToken B t s) = t.

(** ** Requests, errors and observable actions *)

Record Request := {
  url : string;
  authorization : option string;  (* the Authorization header *)
  _retry : bool
}.

Record Response := { status : Z }.

Record AxiosError := {
  response : option Response;
  config : Request
}.

(** Values that reject a promise: an error of the HTTP client or an
    [Error] made with [new Error(message)].  Both are objects, so the test
    [if (error)] of [processQueue] holds of them. *)
Inductive JsError :=
| OfAxios (e : AxiosError)
| NewError (message : string).

(** How [await AuthService.refresh()] ends. *)
Inductive RefreshResult :=
| Fulfilled (access_token : string)
| Rejected (refreshErr : JsError).

Inductive Action :=
| CallRefresh                          (* [AuthService.refresh()] is called *)
| Send (r : Request)                   (* [r] leaves for the network *)
| Reject (r : Request) (e : JsError).  (* the promise of the caller of [r] is rejected *)

(** The error made by [new Error] with the message No token available. *)
Definition noTokenAvailable : JsError := NewError "No token available".

Definition bearer (token : string) : string := ("Bearer " ++ token)%string.

Definition withAuthorization (token : string) (r : Request) : Request :=
  {| url := url r; authorization := Some (bearer token); _retry := _retry r |}.

Definition markRetried (r : Request) : Request :=
  {| url := url r; authorization := authorization r; _retry := true |}.

(** A 401 response to the request [r], and a request that was not retried. *)
Definition unauthorized (r : Request) : AxiosError :=
  {| response := Some {| status := 401 |}; config := r |}.

Definition get (path : string) (header : option string) : Request :=
  {| url := path; authorization := header; _retry := false |}.

Section Pipeline.
Variable B : TokenAccess.

(** The module variables [isRefreshing] and [pendingQueue], the store
    behind the bridge, and the handlers suspended at
    [await AuthService.refresh()], each with its [originalRequest].  A
    queue entry is the pair of closures pushed by the handler; both close
    over [originalRequest] only, which stands for the pair. *)
Record Pipeline := {
  store : Store B;
  isRefreshing : bool;
  pendingQueue : list Request;
  awaiting : list Request
}.

(** The request interceptor. *)
Definition requestInterceptor (st : Pipeline) (config : Request) : Request :=
  match getAccessToken B (store st) with
  | Some token => if Js.truthy token then withAuthorization token config else config
  | None => config
  end.

(** [http(config)]: the request passes the request interceptor and leaves. *)
Definition http (st : Pipeline) (config : Request) : list Action :=
  [Send (requestInterceptor st config)].

(** The [resolve] closure of a queue entry. *)
Definition entryResolve (st : Pipeline) (originalRequest : Request)
  (newToken : string) : list Action :=
  http st (withAuthorization newToken originalRequest).

(** The [reject] of a queue entry is the [reject] of the caller's promise. *)
Definition entryReject (originalRequest : Request) (err : JsError) : list Action :=
  [Reject originalRequest err].

Definition settleEntry (st : Pipeline) (error : option JsError)
  (token : option string) (entry : Request) : list Action :=
  match error with
  | Some e => entryReject entry e
  | None =>
      match token with
      | Some t =>
          if Js.truthy t then entryResolve st entry t
          else entryReject entry noTokenAvailable
      | None => entryReject entry noTokenAvailable
      end
  end.

(** [processQueue(error, token)] *)
Definition processQueue (error : option JsError) (token : option string)
  (st : Pipeline) : Pipeline * list Action :=
  ({| store := store st; isRefreshing := isRefreshing st;
      pendingQueue := []; awaiting := awaiting st |},
   flat_map (settleEntry st error token) (pendingQueue st)).

(** [error.response?.status !== 401] *)
Definition statusIsNot401 (error : AxiosError) : bool :=
  match response error with
  | Some r => negb (status r =? 401)
  | None => true
  end.

(** The rejection handler of the response interceptor, from its entry to
    its first suspension or return. *)
Definition onResponseError (error : AxiosError) (st : Pipeline)
  : Pipeline * list Action :=
  let originalRequest := config error in
  if statusIsNot401 error || _retry originalRequest then
    (st, [Reject originalRequest (OfAxios error)])
  else
    let originalRequest := markRetried originalRequest in
    if isRefreshing st then
      ({| store := store st; isRefreshing := isRefreshing st;
          pendingQueue := pendingQueue st ++ [originalRequest];
          awaiting := awaiting st |}, [])
    else
      ({| store := store st; isRefreshing := true;
          pendingQueue := pendingQueue st;
          awaiting := awaiting st ++ [originalRequest] |}, [CallRefresh]).

(** The same handler from the moment the awaited refresh settles: the
    [try] body or the [catch] body, then [finally]. *)
Definition onRefreshSettled (originalRequest : Request) (result : RefreshResult)
  (st : Pipeline) : Pipeline * list Action :=
  match result with
  | Fulfilled access_token =>
      let st1 := {| store := setAccessToken B (Some access_token) (store st);
                    isRefreshing := isRefreshing st;
                    pendingQueue := pendingQueue st;
                    awaiting := awaiting st |} in
      let (st2, queued) := processQueue None (Some access_token) st1 in
      let replay := http st2 (withAuthorization access_token originalRequest) in
      ({| store := store st2; isRefreshing := false;
          pendingQueue := pendingQueue st2; awaiting := awaiting st2 |},
       (queued ++ replay)%list)
  | Rejected refreshErr =>
      let (st1, queued) := processQueue (Some refreshErr) None st in
      ({| store := setAccessToken B None (store st1); isRefreshing := false;
          pendingQueue := pendingQueue st1; awaiting := awaiting st1 |},
       (queued ++ [Reject originalRequest refreshErr])%list)
  end.

Inductive Event :=
| Issue (config : Request)                      (* a caller runs [http(config)] *)
| ResponseError (error : AxiosError)            (* an error reaches the response interceptor *)
| RefreshSettles (n : nat) (result : RefreshResult).
                                                (* the refresh awaited by handler [n] settles *)

Definition step (st : Pipeline) (ev : Event) : Pipeline * list Action :=
  match ev with
  | Issue config => (st, http st config)
  | ResponseError error => onResponseError error st
  | RefreshSettles n result =>
      match awaiting st !! n with
      | Some originalRequest =>
          onRefreshSettled originalRequest result
            {| store := store st; isRefreshing := isRefreshing st;
               pendingQueue := pendingQueue st;
               awaiting := delete n (awaiting st) |}
      | None => (st, [])
      end
  end.

Fixpoint run (st : Pipeline) (evs : list Event) : Pipeline * list Action :=
  match evs with
  | [] => (st, [])
  | ev :: evs' =>
      let (st1, a1) := step st ev in
      let (st2, a2) := run st1 evs' in
      (st2, (a1 ++ a2)%list)
  end.

Definition isCallRefresh (a : Action) : bool :=
  match a with CallRefresh => true | _ => false end.

(** The number of calls of the refresh endpoint among some actions. *)
Definition refreshCalls (acts : list Action) : nat :=
  length (List.filter isCallRefresh acts).

(** The refreshes in flight are the suspended handlers. *)
Definition refreshesInFlight (st : Pipeline) : nat := length (awaiting st).

Definition Idle (st : Pipeline) : Prop :=
  isRefreshing st = false /\ pendingQueue st = [] /\ awaiting st = [].

Definition Refreshing (st : Pipeline) : Prop :=
  isRefreshing st = true /\ refreshesInFlight st = 1%nat.

(** The flag is up exactly while one handler waits for the refresh, and
    the queue is empty while the flag is down. *)
Definition coherent (st : Pipeline) : Prop :=
  Refreshing st \/ Idle st.

Definition initial (s : Store B) : Pipeline :=
  {| store := s; isRefreshing := false; pendingQueue := []; awaiting := [] |}.

(** An authorization failure of a request that has not been retried. *)
Definition fresh401 (error : AxiosError) : Prop :=
  statusIsNot401 error = false /\ _retry (config error) = false.

End Pipeline.

Arguments store {B} _.
Arguments isRefreshing {B} _.
Arguments pendingQueue {B} _.
Arguments awaiting {B} _.

(** The answers among some actions: requests sent and callers rejected. *)
Definition isAnswer (a : Action) : bool :=
  match a with
  | CallRefresh => false
  | Send _ | Reject _ _ => true
  end.

Definition answers (acts : list Action) : nat :=
  length (List.filter isAnswer acts).

(** The requests and errors that entered the pipeline, and the refresh
    settlements, among some events. *)
Definition entered (evs : list Event) : nat :=
  length (List.filter (fun ev => match ev with
                                 | Issue _ | ResponseError _ => true
                                 | RefreshSettles _ _ => false
                                 end) evs).

Definition settlements (evs : list Event) : nat :=
  length (List.filter (fun ev => match ev with
                                 | RefreshSettles _ _ => true
                                 | _ => false
                                 end) evs).

(** The requests held by the pipeline: queued or waiting for the refresh. *)
Definition held {B : TokenAccess} (st : Pipeline B) : list Request :=
  pendingQueue st ++ awaiting st.

(** The requests that some actions answer and the requests that some
    events bring in, each named by its [url]. *)
Definition answeredUrl (a : Action) : list string :=
  match a with
  | CallRefresh => []
  | Send r | Reject r _ => [url r]
  end.

Definition answered (acts : list Action) : list string :=
  flat_map answeredUrl acts.

Definition arrivalUrl (ev : Event) : list string :=
  match ev with
  | Issue config => [url config]
  | ResponseError error => [url (config error)]
  | RefreshSettles _ _ => []
  end.

Definition arrivals (evs : list Event) : list string :=
  flat_map arrivalUrl evs.

End AxiosClient.

(* ===================================================================== *)
(** * Regular expressions matched against a whole string *)
(* ===================================================================== *)

Module Regex.

(** The patterns of the form [/^...$/] that the validators use: character
    classes, concatenation, alternatives and repetition. *)
Inductive Pattern :=
| Never
| Nothing
| Class (p : ascii -> bool)
| Then (a b : Pattern)
| Or (a b : Pattern)
| Many (a : Pattern).

(** [a+] *)
Definition Some1 (a : Pattern) : Pattern := Then a (Many a).

(** The words of a pattern. *)
Inductive Accepts : Pattern -> list ascii -> Prop :=
| AcceptsNothing : Accepts Nothing []
| AcceptsClass p c : p c = true -> Accepts (Class p) [c]
| AcceptsThen a b u v : Accepts a u -> Accepts b v -> Accepts (Then a b) (u ++ v)
| AcceptsOrLeft a b u : Accepts a u -> Accepts (Or a b) u
| AcceptsOrRight a b u : Accepts b u -> Accepts (Or a b) u
| AcceptsManyStop a : Accepts (Many a) []
| AcceptsManyStep a u v :
    Accepts a u -> Accepts (Many a) v -> Accepts (Many a) (u ++ v).

(** Whether a pattern accepts the empty word. *)
Fixpoint acceptsEmpty (a : Pattern) : bool :=
  match a with
  | Never => false
  | Nothing => true
  | Class _ => false
  | Then a b => acceptsEmpty a && acceptsEmpty b
  | Or a b => acceptsEmpty a || acceptsEmpty b
  | Many _ => true
  end.

(** What is left of a pattern once the character [c] has been read. *)
Fixpoint after (c : ascii) (a : Pattern) : Pattern :=
  match a with
  | Never => Never
  | Nothing => Never
  | Class p => if p c then Nothing else Never
  | Then a b =>
      Or (Then (after c a) b) (if acceptsEmpty a then after c b else Never)
  | Or a b => Or (after c a) (after c b)
  | Many a => Then (after c a) (Many a)
  end.

Fixpoint matchChars (a : Pattern) (s : list ascii) : bool :=
  match s with
  | [] => acceptsEmpty a
  | c :: s' => matchChars (after c a) s'
  end.

(** [/^a$/.test(s)] *)
Definition test (a : Pattern) (s : string) : bool := matchChars a (Js.chars s).

End Regex.

(* ===================================================================== *)
(** * The email validator ([isValidEmail]) *)
(* ===================================================================== *)

Module Email.
Import Regex.

(** The class [[^\s@]]. *)
Definition notSpaceNorAt (c : ascii) : bool :=
  negb (Js.isWhiteSpace c || Ascii.eqb c "@"%char).

(** [/^[^\s@]+@[^\s@]+\.[^\s@]+$/] *)
Definition emailRegex : Pattern :=
  Then (Some1 (Class notSpaceNorAt))
    (Then (Class (Ascii.eqb "@"%char))
      (Then (Some1 (Class notSpaceNorAt))
        (Then (Class (Ascii.eqb "."%char))
              (Some1 (Class notSpaceNorAt))))).

Definition isValidEmail (email : string) : bool := test emailRegex email.

(** A word of the class [[^\s@]+]. *)
Definition part (u : list ascii) : Prop :=
  u <> [] /\ Forall (fun c => notSpaceNorAt c = true) u.

End Email.

(* ===================================================================== *)
(** * The admin user form ([AdminUserForm]) *)
(* ===================================================================== *)

Module AdminUserForm.

(** The fields of [User] that the form reads; [password] is optional. *)
Record User := {
  first_name : string;
  last_name : string;
  email : string;
  password : option string
}.

(** [keyof User], with the keys that [getFieldError] tells apart. *)
Inductive Field :=
| FirstName
| LastName
| EmailField
| PasswordField
| OtherField (name : string).

(** [!value] for a field value. *)
Definition blank (v : option string) : bool :=
  match v with
  | None => true
  | Some s => negb (Js.truthy s)
  end.

Definition getFieldError (touched : Field -> bool) (user : User) (field : Field)
  : option string :=
  if negb (touched field) then None
  else
    match field with
    | FirstName =>
        if blank (Some (first_name user)) then Some "First name is required"
        else None
    | LastName =>
        if blank (Some (last_name user)) then Some "Last name is required"
        else None
    | EmailField =>
        if blank (Some (email user)) then Some "Email is required"
        else if negb (Email.isValidEmail (email user))
             then Some "Please enter a valid email address"
             else None
    | PasswordField =>
        if blank (password user) then Some "Password is required" else None
    | OtherField _ => None
    end.

Definition hasErrors (user : User) : bool :=
  blank (Some (first_name user)) || blank (Some (last_name user))
  || blank (Some (email user)) || blank (password user)
  || negb (Email.isValidEmail (email user)).

End AdminUserForm.

(* ===================================================================== *)
(** * The strength indicator ([PasswordStrengthIndicator]) *)
(* ===================================================================== *)

Module StrengthIndicator.
Import PasswordValidator.

(** The inline table [configs] of the component. *)
Definition configs (u : UserType) : PartialRequirements :=
  {| opt_minLength := Some (match u with customer => 8 | _ => 12 end);
     opt_maxLength := None;
     opt_requireUppercase := None; opt_requireLowercase := None;
     opt_requireNumbers := None; opt_requireSpecialChars := None;
     opt_preventCommonPasswords := None |}.

(** [resolvedOptions] of the component, from the optional props
    [validationOptions] and [userType]. *)
Definition resolvedOptions (validationOptions : option PartialRequirements)
  (userType : option UserType) : PartialRequirements :=
  match validationOptions with
  | Some o => o
  | None =>
      match userType with
      | Some u => configs u
      | None => noOptions
      end
  end.

(** The state cell [validation] after the effect has run. *)
Definition validationAfterEffect (password : string)
  (validationOptions : option PartialRequirements) (userType : option UserType)
  : option ValidationResult :=
  if negb (String.eqb password EmptyString) then
    Some (validatePasswordStrength (PwString password)
            (resolvedOptions validationOptions userType))
  else None.

(** The width of the strength meter in percent,
    [Math.min(validation.score, 100)]. *)
Definition meterWidth (r : ValidationResult) : Z := Z.min (score r) 100.

End StrengthIndicator.

(* ===================================================================== *)
(** * The verification page ([VerifyEmailPage]) *)
(* ===================================================================== *)

Module VerifyEmail.

(** [value.replace(/\D/g, '').slice(0, 4)] *)
Definition digitsOnly (value : string) : list ascii :=
  List.filter (Js.between 48 57) (Js.chars value).

Definition sanitize (value : string) : string :=
  Js.join (firstn 4 (digitsOnly value)).

(** The state cells [code] and [error]. *)
Record Page := {
  code : string;
  error : string
}.

Definition initialPage : Page := {| code := EmptyString; error := EmptyString |}.

Inductive PageEvent :=
| CodeChange (value : string)     (* [handleCodeChange] with [e.target.value] *)
| Submit                          (* [handleVerification] up to its [await] *)
| ResendSucceeded.                (* [handleResendCode] after a success *)

(** The calls of [AuthService.verifyEmail(email, code)], by their code. *)
Definition pageStep (st : Page) (ev : PageEvent) : Page * list string :=
  match ev with
  | CodeChange value => ({| code := sanitize value; error := EmptyString |}, [])
  | Submit =>
      if negb (Js.truthy (code st)) || negb (Js.len (code st) =? 4) then
        ({| code := code st;
            error := "Please enter a 4-digit verification code" |}, [])
      else ({| code := code st; error := EmptyString |}, [code st])
  | ResendSucceeded => ({| code := EmptyString; error := EmptyString |}, [])
  end.

Fixpoint pageRun (st : Page) (evs : list PageEvent) : Page * list string :=
  match evs with
  | [] => (st, [])
  | ev :: evs' =>
      let (st1, c1) := pageStep st ev in
      let (st2, c2) := pageRun st1 evs' in
      (st2, c1 ++ c2)
  end.

(** A string of decimal digits. *)
Definition allDigits (s : string) : Prop :=
  Forall (fun c => Js.between 48 57 c = true) (Js.chars s).

(** The stored code holds digits only. *)
Definition tidy (st : Page) : Prop := allDigits (code st).

End VerifyEmail.

(* ===================================================================== *)
(** * Properties of the credential policy evaluator *)
(* ===================================================================== *)

Module PasswordValidatorFacts.
Import PasswordValidator.

(** The spec's scenario: the default policy and the password Ab1!Ab1!. *)
Example scenario_Ab1 :
  let r := validatePasswordStrength (PwString "Ab1!Ab1!") noOptions in
  isValid r = true /\ forallb met (requirements r) = true
  /\ length (requirements r) = 6%nat /\ score r = 70.
Proof. vm_compute. repeat split. Qed.

Example scenario_password :
  let r := validatePasswordStrength (PwString "password") noOptions in
  isValid r = false /\ In TooCommon (feedback r).
Proof. vm_compute. split; [reflexivity | tauto]. Qed.

Example regex_examples :
  REGEX_PATTERNS.commonSequence "xxAbCxx" = true
  /\ REGEX_PATTERNS.commonSequence "a1b2c3" = false
  /\ REGEX_PATTERNS.repeatedChars "baaad" = true
  /\ REGEX_PATTERNS.repeatedChars "aabbaa" = false
  /\ REGEX_PATTERNS.keyboard "myQWErty" = true
  /\ REGEX_PATTERNS.specialChars "abc;" = false
  /\ REGEX_PATTERNS.specialChars "abc~" = true.
Proof. vm_compute. repeat split. Qed.

Example string_examples :
  Js.toLowerCase "PaSSword1!" = "password1!"
  /\ Js.trim "  a b  " = "a b"
  /\ Js.distinctCount "aAbB" = 4
  /\ Js.distinctCount (Js.toLowerCase "aAbB") = 2
  /\ Js.showZ 128 = "128"
  /\ REGEX_PATTERNS.commonSequence "x890x" = true
  /\ REGEX_PATTERNS.keyboard "xBnMx" = true
  /\ REGEX_PATTERNS.repeatedChars "a1111" = true.
Proof. vm_compute. repeat split. Qed.

Example requirements_of_default_policy :
  map (fun q => (id q, label q, met q))
      (getRequirementsList "Ab1!" DEFAULT_PASSWORD_REQUIREMENTS)
  = [ ("length", "At least 8 characters", false);
      ("uppercase", "One uppercase letter (A-Z)", true);
      ("lowercase", "One lowercase letter (a-z)", true);
      ("numbers", "One number (0-9)", true);
      ("special", "One special character (!@#$%^&*)", true);
      ("common", "Not a common password", true) ].
Proof. reflexivity. Qed.

(** ** The locals after each group of rules *)

Lemma fail_isValid msg l : l_isValid (fail msg l) = false.
Proof. reflexivity. Qed.

Lemma characterType_isValid isRequired present msg l :
  l_isValid (characterType isRequired present msg l)
  = l_isValid l && implb isRequired present.
Proof.
  unfold characterType.
  destruct isRequired, present; simpl; destruct (l_isValid l); reflexivity.
Qed.

Lemma lengthValidation_isValid password config l :
  l_isValid (lengthValidation password config l)
  = l_isValid l && (Js.len password >=? minLength config).
Proof.
  unfold lengthValidation.
  destruct (Z.ltb_spec (Js.len password) (minLength config)) as [Hlt | Hge].
  - simpl. replace (Js.len password >=? minLength config) with false by lia.
    now rewrite andb_false_r.
  - replace (Js.len password >=? minLength config) with true by lia.
    simpl. now rewrite andb_true_r.
Qed.

Lemma maxLengthValidation_isValid password config l :
  l_isValid (maxLengthValidation password config l)
  = l_isValid l && (Js.len password <=? maxLength config).
Proof.
  unfold maxLengthValidation.
  destruct (Z.leb_spec (Js.len password) (maxLength config)) as [Hle | Hgt].
  - replace (Js.len password >? maxLength config) with false by lia.
    now rewrite andb_true_r.
  - replace (Js.len password >? maxLength config) with true by lia.
    simpl. now rewrite andb_false_r.
Qed.

Lemma commonPasswordCheck_isValid password config l :
  l_isValid (commonPasswordCheck password config l)
  = l_isValid l
    && negb (preventCommonPasswords config
             && Js.includes COMMON_PASSWORDS (Js.toLowerCase password)).
Proof.
  unfold commonPasswordCheck.
  destruct (preventCommonPasswords config
            && Js.includes COMMON_PASSWORDS (Js.toLowerCase password)); simpl.
  - now rewrite andb_false_r.
  - now rewrite andb_true_r.
Qed.

(** [isValid] after the hard rules is the conjunction of the hard rules. *)
Lemma hardRules_isValid password config :
  l_isValid (hardRules password config initialLocals)
  = meetsHardRules password config.
Proof.
  unfold hardRules, meetsHardRules,
    specialCharsRequirement, numbersRequirement, lowercaseRequirement,
    uppercaseRequirement.
  rewrite commonPasswordCheck_isValid, !characterType_isValid,
    maxLengthValidation_isValid, lengthValidation_isValid.
  reflexivity.
Qed.

(** The warnings and the bonuses leave [isValid] alone. *)
Lemma warn_isValid msg l : l_isValid (warn msg l) = l_isValid l.
Proof. reflexivity. Qed.

Lemma patternWarnings_isValid password l :
  l_isValid (patternWarnings password l) = l_isValid l.
Proof.
  unfold patternWarnings, keyboardWarning, repeatedWarning, sequenceWarning.
  destruct (REGEX_PATTERNS.commonSequence password),
    (REGEX_PATTERNS.repeatedChars password),
    (REGEX_PATTERNS.keyboard password); reflexivity.
Qed.

Lemma bonuses_isValid password l :
  l_isValid (bonuses password l) = l_isValid l.
Proof.
  unfold bonuses, diversityBonus, lengthBonus.
  repeat match goal with |- context [if ?b then _ else _] => destruct b end;
    reflexivity.
Qed.

Lemma bonuses_feedback password l :
  l_feedback (bonuses password l) = l_feedback l.
Proof.
  unfold bonuses, diversityBonus, lengthBonus.
  repeat match goal with |- context [if ?b then _ else _] => destruct b end;
    reflexivity.
Qed.

Lemma bonuses_score password l :
  l_score (bonuses password l) = l_score l + bonusPoints password.
Proof.
  unfold bonuses, diversityBonus, lengthBonus, bonusPoints.
  repeat match goal with |- context [if ?b then _ else _] => destruct b end;
    simpl; lia.
Qed.

Lemma patternWarnings_score password l :
  l_score (patternWarnings password l) = l_score l - 10 * patternMatches password.
Proof.
  unfold patternWarnings, keyboardWarning, repeatedWarning, sequenceWarning,
    patternMatches.
  destruct (REGEX_PATTERNS.commonSequence password),
    (REGEX_PATTERNS.repeatedChars password),
    (REGEX_PATTERNS.keyboard password); simpl; lia.
Qed.

Lemma patternWarnings_feedback password l :
  l_feedback (patternWarnings password l)
  = (l_feedback l ++ expectedWarnings password)%list.
Proof.
  unfold patternWarnings, keyboardWarning, repeatedWarning, sequenceWarning,
    expectedWarnings.
  destruct (REGEX_PATTERNS.commonSequence password),
    (REGEX_PATTERNS.repeatedChars password),
    (REGEX_PATTERNS.keyboard password); simpl;
    rewrite <- ?app_assoc; simpl; rewrite ?app_nil_r; reflexivity.
Qed.

(** No hard rule pushes a warning. *)
Lemma hardRules_no_warning password config :
  List.filter isWarning (l_feedback (hardRules password config initialLocals)) = [].
Proof.
  unfold hardRules, commonPasswordCheck, specialCharsRequirement,
    numbersRequirement, lowercaseRequirement, uppercaseRequirement,
    characterType, maxLengthValidation, lengthValidation.
  repeat match goal with |- context [if ?b then _ else _] => destruct b end;
    reflexivity.
Qed.

Lemma expectedWarnings_all password :
  List.filter isWarning (expectedWarnings password) = expectedWarnings password.
Proof.
  unfold expectedWarnings.
  destruct (REGEX_PATTERNS.commonSequence password),
    (REGEX_PATTERNS.repeatedChars password),
    (REGEX_PATTERNS.keyboard password); reflexivity.
Qed.

Lemma passwordMissing_string s :
  passwordMissing (PwString s) = negb (Js.truthy s).
Proof. unfold passwordMissing. now rewrite orb_false_r. Qed.

Lemma truthy_nonempty s : Js.truthy s = true <-> s <> "".
Proof. destruct s; simpl; split; congruence. Qed.


(** ** The checklist *)

Lemma allRequiredMet_iff r : allRequiredMet r <-> allRequiredMetb r = true.
Proof.
  unfold allRequiredMet, allRequiredMetb. rewrite forallb_forall. split.
  - intros H q Hq. destruct (required q) eqn:Hr; simpl; [now apply H | reflexivity].
  - intros H q Hq Hr. specialize (H q Hq). now rewrite Hr in H.
Qed.

Lemma requirementsList_met password config :
  forallb (fun q => implb (required q) (met q))
          (getRequirementsList password config)
  = (Js.len password >=? minLength config)
    && implb (requireUppercase config) (REGEX_PATTERNS.uppercase password)
    && implb (requireLowercase config) (REGEX_PATTERNS.lowercase password)
    && implb (requireNumbers config) (REGEX_PATTERNS.numbers password)
    && implb (requireSpecialChars config) (REGEX_PATTERNS.specialChars password)
    && negb (preventCommonPasswords config
             && Js.includes COMMON_PASSWORDS (Js.toLowerCase password)).
Proof.
  unfold getRequirementsList.
  destruct (requireUppercase config), (requireLowercase config),
    (requireNumbers config), (requireSpecialChars config),
    (preventCommonPasswords config); cbn [List.filter required forallb met implb];
    cbn [andb negb]; rewrite ?andb_true_r, ?andb_assoc; reflexivity.
Qed.

Lemma meetsHardRules_split password config :
  meetsHardRules password config
  = (Js.len password <=? maxLength config)
    && forallb (fun q => implb (required q) (met q))
               (getRequirementsList password config).
Proof.
  rewrite requirementsList_met. unfold meetsHardRules.
  destruct (Js.len password >=? minLength config),
    (Js.len password <=? maxLength config); reflexivity.
Qed.

(** The result for a password that is present. *)
Lemma validate_present s options :
  Js.truthy s = true ->
  validatePasswordStrength (PwString s) options
  = let config := mergeConfig options in
    let l := evaluateRules s config in
    {| isValid := l_isValid l;
       score := Z.max 0 (l_score l);
       strength := getPasswordStrength (Z.max 0 (l_score l));
       feedback := if (Z.of_nat (length (l_feedback l)) >? 0)
                   then l_feedback l else [MeetsAll];
       requirements := getRequirementsList s config |}.
Proof.
  intros Ht. unfold validatePasswordStrength.
  rewrite passwordMissing_string, Ht. reflexivity.
Qed.

Lemma validate_missing password options :
  passwordMissing password = true ->
  validatePasswordStrength password options = missingResult (mergeConfig options).
Proof. intros H. unfold validatePasswordStrength. now rewrite H. Qed.

Lemma isValid_present s options :
  Js.truthy s = true ->
  isValid (validatePasswordStrength (PwString s) options)
  = meetsHardRules s (mergeConfig options).
Proof.
  intros Ht. rewrite validate_present by assumption. cbn [isValid].
  unfold evaluateRules.
  now rewrite bonuses_isValid, patternWarnings_isValid, hardRules_isValid.
Qed.

(** ** Claims *)

(** C9.  For every password and every policy the score of the result is at
    least 0: the early return gives 0 and the full evaluation ends with
    [Math.max(0, score)]. *)
Theorem score_never_negative (password : PasswordArg) (options : PartialRequirements) :
  0 <= score (validatePasswordStrength password options).
Proof.
  unfold validatePasswordStrength.
  destruct (passwordMissing password); [cbn; lia |].
  destruct password as [s | t]; cbn [score missingResult]; lia.
Qed.

(** C6.  For every policy, an empty password and a password that is not a
    string take the early return: the result has [isValid = false],
    [score = 0], strength [invalid] and the single feedback message
    'Password is required'; it is the fixed record [missingResult], which
    consults no rule. *)
Theorem missing_password_short_circuits
  (password : PasswordArg) (options : PartialRequirements) :
  password = PwString "" \/ (forall s, password <> PwString s) ->
  let r := validatePasswordStrength password options in
  r = missingResult (mergeConfig options)
  /\ isValid r = false
  /\ score r = 0
  /\ strength r = Invalid
  /\ feedback r = [PasswordRequired].
Proof.
  intros H r. subst r.
  assert (Hm : passwordMissing password = true).
  { destruct H as [-> | H]; [reflexivity |].
    destruct password as [s | t]; [now destruct (H s) |].
    unfold passwordMissing. apply orb_true_r. }
  rewrite (validate_missing _ _ Hm). repeat split.
Qed.

Lemma missing_password_short_circuits_witness :
  let r := validatePasswordStrength (PwString "") noOptions in
  r = missingResult (mergeConfig noOptions)
  /\ isValid r = false /\ score r = 0 /\ strength r = Invalid
  /\ feedback r = [PasswordRequired].
Proof.
  apply (missing_password_short_circuits (PwString "") noOptions).
  left. reflexivity.
Defined.

(** C8.  For every password and every policy: each pattern-based weakness
    that matches (a sequential run, a character repeated three times, a
    keyboard run) pushes its warning and takes 10 points off the score and
    leaves [isValid] as it was; in the result the warnings are exactly
    those of the patterns that match, the score (before the clamp at 0) is
    lowered by 10 for each of them, and [isValid] is the conjunction of the
    hard rules alone (for a password that is present), whatever the
    patterns match. *)
Theorem pattern_warnings_never_invalidate
  (s : string) (options : PartialRequirements) (l : Locals) :
  let config := mergeConfig options in
  let r := validatePasswordStrength (PwString s) options in
  (* each check on its own *)
  (REGEX_PATTERNS.commonSequence s = true -> sequenceWarning s l = warn WarnSequence l)
  /\ (REGEX_PATTERNS.repeatedChars s = true -> repeatedWarning s l = warn WarnRepeated l)
  /\ (REGEX_PATTERNS.keyboard s = true -> keyboardWarning s l = warn WarnKeyboard l)
  /\ (forall w, l_feedback (warn w l) = l_feedback l ++ [w]
               /\ l_score (warn w l) = l_score l - 10
               /\ l_isValid (warn w l) = l_isValid l)
  (* the whole evaluation *)
  /\ List.filter isWarning (feedback r) = expectedWarnings s
  /\ isValid r = Js.truthy s && meetsHardRules s config
  /\ (Js.truthy s = true ->
      score r = Z.max 0 (l_score (hardRules s config initialLocals)
                         - 10 * patternMatches s + bonusPoints s)).
Proof.
  intros config r.
  split; [intros H; unfold sequenceWarning; now rewrite H |].
  split; [intros H; unfold repeatedWarning; now rewrite H |].
  split; [intros H; unfold keyboardWarning; now rewrite H |].
  split; [intros w; repeat split |].
  subst r. destruct (Js.truthy s) eqn:Ht.
  - rewrite isValid_present by assumption.
    rewrite validate_present by assumption. cbn [feedback score].
    fold config. unfold evaluateRules.
    rewrite bonuses_feedback, patternWarnings_feedback, bonuses_score,
      patternWarnings_score.
    split; [| split; [reflexivity | reflexivity]].
    destruct (Z.of_nat (length (l_feedback (hardRules s config initialLocals)
                                ++ expectedWarnings s)) >? 0) eqn:Hlen.
    + rewrite List.filter_app, hardRules_no_warning, expectedWarnings_all.
      reflexivity.
    + destruct (l_feedback (hardRules s config initialLocals) ++ expectedWarnings s)
        eqn:Happ;
        [| rewrite Z.gtb_ltb, Z.ltb_ge in Hlen; cbn [length] in Hlen; lia].
      apply app_eq_nil in Happ. destruct Happ as [_ ->]. reflexivity.
  - destruct s; [| discriminate Ht].
    rewrite validate_missing by reflexivity.
    repeat split. discriminate.
Qed.

Example warned_yet_valid :
  let r := validatePasswordStrength (PwString "Qwe123aaa!Z") noOptions in
  isValid r = true
  /\ feedback r = [WarnSequence; WarnRepeated; WarnKeyboard]
  /\ score r = 50.
Proof. vm_compute. repeat split. Qed.

Lemma pattern_warnings_never_invalidate_witness :
  let s := "Qwe123aaa!Z" in
  let r := validatePasswordStrength (PwString s) noOptions in
  List.filter isWarning (feedback r) = [WarnSequence; WarnRepeated; WarnKeyboard]
  /\ isValid r = true.
Proof.
  destruct (pattern_warnings_never_invalidate "Qwe123aaa!Z" noOptions initialLocals)
    as (H1 & _ & _ & _ & Hw & Hv & Hs).
  pose proof (H1 eq_refl) as _. pose proof (Hs eq_refl) as _.
  split; [exact Hw | exact Hv].
Defined.

(** C2, the claim as stated fails: a password longer than [maxLength] is
    not valid although every listed requirement is met. *)
Lemma isValid_iff_requirements_counterexample :
  let options := {| opt_minLength := None; opt_maxLength := Some 8;
                    opt_requireUppercase := None; opt_requireLowercase := None;
                    opt_requireNumbers := None; opt_requireSpecialChars := None;
                    opt_preventCommonPasswords := None |} in
  let r := validatePasswordStrength (PwString "Xy7!Xy7!Q") options in
  ~ (isValid r = true <-> allRequiredMet r).
Proof.
  intros options r [_ H].
  assert (Hall : allRequiredMet r) by (apply allRequiredMet_iff; reflexivity).
  specialize (H Hall). discriminate H.
Qed.

(** The early return is the other way to be invalid with a full checklist:
    the empty password against a policy that asks for nothing. *)
Example empty_password_invalid_with_all_met :
  let options := {| opt_minLength := Some 0; opt_maxLength := None;
                    opt_requireUppercase := Some false;
                    opt_requireLowercase := Some false;
                    opt_requireNumbers := Some false;
                    opt_requireSpecialChars := Some false;
                    opt_preventCommonPasswords := Some false |} in
  let r := validatePasswordStrength (PwString "") options in
  isValid r = false /\ allRequiredMetb r = true.
Proof. split; reflexivity. Qed.

(** C2, amended.  For every password s and policy P,
    [validatePasswordStrength(s, P).isValid] is true if and only if s is
    not empty, s is no longer than [P.maxLength], and every entry of the
    returned requirements list with [required = true] has [met = true]. *)
Theorem isValid_iff_requirements_and_maxLength
  (s : string) (options : PartialRequirements) :
  let r := validatePasswordStrength (PwString s) options in
  isValid r = true
  <-> s <> "" /\ Js.len s <= maxLength (mergeConfig options) /\ allRequiredMet r.
Proof.
  intros r. subst r. destruct (Js.truthy s) eqn:Ht.
  - rewrite isValid_present by assumption.
    rewrite allRequiredMet_iff. unfold allRequiredMetb.
    rewrite validate_present by assumption. cbn [requirements].
    rewrite meetsHardRules_split, andb_true_iff, Z.leb_le.
    apply truthy_nonempty in Ht. tauto.
  - rewrite validate_missing by (rewrite passwordMissing_string, Ht; reflexivity).
    cbn [isValid missingResult]. destruct s; [| discriminate Ht].
    split; [discriminate | intros [H _]; now destruct H].
Qed.

End PasswordValidatorFacts.

(* ===================================================================== *)
(** * Properties of the password generator *)
(* ===================================================================== *)

Module PasswordGeneratorFacts.
Import PasswordGenerator.

(** ** Two readings of a computation over the random source *)

Lemma safe_ret {A} (a : A) (Q : A -> Prop) : Q a -> safe (ret a) Q.
Proof. intros H draws. exact H. Qed.

Lemma safe_bind {A B} (m : Rand A) (k : A -> Rand B) (P : A -> Prop) (Q : B -> Prop) :
  safe m P -> (forall a, P a -> safe (k a) Q) -> safe (bind m k) Q.
Proof.
  intros Hm Hk draws. unfold bind. specialize (Hm draws).
  destruct (m draws) as [a rest | msg |]; [| contradiction | exact I].
  exact (Hk a Hm rest).
Qed.

Lemma safe_returned {A} (m : Rand A) (Q : A -> Prop) draws a rest :
  safe m Q -> m draws = Returned a rest -> Q a.
Proof. intros H E. specialize (H draws). now rewrite E in H. Qed.

Lemma progresses_ret {A} (a : A) : progresses 0 (ret a).
Proof. intros draws n H. exists a, draws. split; [reflexivity | exact H]. Qed.

Lemma progresses_bind {A B} (m : Rand A) (k : A -> Rand B) (P : A -> Prop) k1 k2 :
  progresses k1 m -> safe m P -> (forall a, P a -> progresses k2 (k a)) ->
  progresses (k1 + k2) (bind m k).
Proof.
  intros Hm Hs Hk draws n Hn.
  destruct (Hm draws (k2 + n)%nat) as (a & rest & E & Hrest); [lia |].
  destruct (Hk a (safe_returned _ _ _ _ _ Hs E) rest n Hrest) as (b & rest' & E' & H').
  exists b, rest'. unfold bind. rewrite E. now split.
Qed.

(** ** The two random sources *)

Lemma mathRandomFloor_safe n :
  0 < n -> safe (mathRandomFloor n) (fun j => 0 <= j < n).
Proof.
  intros Hn [| d rest]; simpl; [exact I |].
  assert (Hd : 0 <= d mod 2 ^ 53 < 2 ^ 53) by (apply Z.mod_pos_bound; lia).
  split.
  - apply Z.div_pos; nia.
  - apply Z.div_lt_upper_bound; nia.
Qed.

Lemma rejectionLoop_safe limit n draws :
  0 < n ->
  match rejectionLoop limit n draws with
  | Returned j _ => 0 <= j < n
  | Thrown _ => False
  | Waiting => True
  end.
Proof.
  intros Hn. induction draws as [| d rest IH]; simpl; [exact I |].
  destruct (d mod 2 ^ 32 >=? limit); [exact IH |].
  apply Z.mod_pos_bound. exact Hn.
Qed.

Lemma secureRandomInt_safe n :
  0 < n -> safe (secureRandomInt n) (fun j => 0 <= j < n).
Proof.
  intros Hn draws. unfold secureRandomInt.
  replace (n <=? 0) with false by lia.
  now apply rejectionLoop_safe.
Qed.

Lemma mathRandomFloor_progresses n : progresses 1 (mathRandomFloor n).
Proof.
  intros [| d rest] k H; unfold supply in *; simpl in *; [lia |].
  eexists _, rest. split; [reflexivity |].
  destruct (accepted d); simpl in H; lia.
Qed.

Lemma limit_above_accepted n :
  0 < n <= 87 -> 2 ^ 32 - 87 <= (4294967295 + 1) / n * n.
Proof.
  intros Hn. change (4294967295 + 1) with (2 ^ 32).
  pose proof (Z.mod_pos_bound (2 ^ 32) n ltac:(lia)) as Hm.
  pose proof (Z.div_mod (2 ^ 32) n ltac:(lia)) as Hd.
  nia.
Qed.

Lemma rejectionLoop_progresses limit n draws k :
  2 ^ 32 - 87 <= limit -> (1 + k <= supply draws)%nat ->
  exists j rest, rejectionLoop limit n draws = Returned j rest
                 /\ (k <= supply rest)%nat.
Proof.
  intros Hl. induction draws as [| d rest IH]; intros H.
  - unfold supply in H. simpl in H. lia.
  - simpl. destruct (d mod 2 ^ 32 >=? limit) eqn:Hrej.
    + apply IH. unfold supply in *. simpl in H.
      replace (accepted d) with false in H; [exact H |].
      unfold accepted. lia.
    + eexists _, rest. split; [reflexivity |].
      unfold supply in *. simpl in H. destruct (accepted d); simpl in H; lia.
Qed.

Lemma secureRandomInt_progresses n :
  0 < n <= 87 -> progresses 1 (secureRandomInt n).
Proof.
  intros Hn draws k H. unfold secureRandomInt.
  replace (n <=? 0) with false by lia.
  apply rejectionLoop_progresses; [now apply limit_above_accepted | exact H].
Qed.

Lemma source_safe cryptoObj n :
  0 < n -> safe (source cryptoObj n) (fun j => 0 <= j < n).
Proof.
  destruct cryptoObj; [apply secureRandomInt_safe | apply mathRandomFloor_safe].
Qed.

Lemma source_progresses cryptoObj n :
  0 < n <= 87 -> progresses 1 (source cryptoObj n).
Proof.
  destruct cryptoObj; intros H;
    [now apply secureRandomInt_progresses | apply mathRandomFloor_progresses].
Qed.

(** ** Picking from a pool *)

Lemma chars_length s : length (Js.chars s) = String.length s.
Proof. induction s as [| c s IH]; cbn; [reflexivity | now rewrite IH]. Qed.

Lemma charAt_in_range pool i :
  0 <= i < Js.len pool -> exists c, charAt pool i = Some c /\ In c (Js.chars pool).
Proof.
  intros Hi. unfold charAt. replace (i <? 0) with false by lia.
  assert (Hlen : (Z.to_nat i < length (Js.chars pool))%nat).
  { unfold Js.len in Hi.
    rewrite chars_length. lia. }
  destruct (lookup_lt_is_Some_2 _ _ Hlen) as [c Hc].
  exists c. split; [exact Hc |].
  apply list_elem_of_In. eapply list_elem_of_lookup_2. exact Hc.
Qed.

Lemma pick_eq cryptoObj pool :
  pick cryptoObj pool
  = bind (source cryptoObj (Js.len pool)) (fun i => ret (charAt pool i)).
Proof. unfold pick, source. destruct cryptoObj; reflexivity. Qed.

Lemma pick_safe cryptoObj pool :
  0 < Js.len pool -> safe (pick cryptoObj pool) (fromPool pool).
Proof.
  intros Hp. rewrite pick_eq.
  eapply safe_bind; [now apply source_safe |].
  intros i Hi. apply safe_ret. now apply charAt_in_range.
Qed.

Lemma pick_progresses cryptoObj pool :
  0 < Js.len pool <= 87 -> progresses 1 (pick cryptoObj pool).
Proof.
  intros Hp. rewrite pick_eq. change 1%nat with (1 + 0)%nat.
  eapply progresses_bind with (P := fun _ => True).
  - now apply source_progresses.
  - intros draws. destruct (source cryptoObj (Js.len pool) draws) eqn:E; auto.
    pose proof (source_safe cryptoObj (Js.len pool) ltac:(lia) draws) as H.
    now rewrite E in H.
  - intros i _. apply progresses_ret.
Qed.


(** ** The fill loop *)

Lemma fillLoop_safe cryptoObj fuel : forall chars,
  Forall (fun o => o <> None) chars ->
  (length chars <= 12)%nat -> (12 <= length chars + fuel)%nat ->
  safe (fillLoop cryptoObj fuel chars)
       (fun out => length out = 12%nat /\ Forall (fun o => o <> None) out
                   /\ exists extra, out = (chars ++ extra)%list).
Proof.
  induction fuel as [| fuel IH]; intros chars Hsome Hle Hge; cbn [fillLoop].
  - apply safe_ret. repeat split; [lia | exact Hsome |].
    exists []. now rewrite app_nil_r.
  - destruct (Z.ltb_spec (Z.of_nat (length chars)) 12) as [Hlt | Hnlt].
    + eapply safe_bind; [apply (pick_safe cryptoObj allChars); reflexivity |].
      intros oc (c & -> & _).
      assert (Hsafe := IH (chars ++ [Some c])%list).
      rewrite length_app in Hsafe. cbn [length] in Hsafe.
      intros draws. specialize (Hsafe ltac:(apply Forall_app; split;
        [exact Hsome | repeat constructor; discriminate]) ltac:(lia) ltac:(lia) draws).
      destruct (fillLoop cryptoObj fuel (chars ++ [Some c]) draws)
        as [out rest | |]; auto.
      destruct Hsafe as (H1 & H2 & extra & ->).
      repeat split; [exact H1 | exact H2 |].
      exists (Some c :: extra). now rewrite <- app_assoc.
    + apply safe_ret. repeat split; [lia | exact Hsome |].
      exists []. now rewrite app_nil_r.
Qed.

Lemma fillLoop_progresses cryptoObj fuel : forall chars,
  (12 <= length chars + fuel)%nat ->
  progresses (12 - length chars) (fillLoop cryptoObj fuel chars).
Proof.
  induction fuel as [| fuel IH]; intros chars Hge; cbn [fillLoop].
  - replace (12 - length chars)%nat with 0%nat by lia. apply progresses_ret.
  - destruct (Z.ltb_spec (Z.of_nat (length chars)) 12) as [Hlt | Hnlt].
    + replace (12 - length chars)%nat
        with (1 + (12 - length (chars ++ [None])))%nat
        by (rewrite length_app; cbn [length]; lia).
      eapply progresses_bind with (P := fun _ => True).
      * apply pick_progresses. split; reflexivity || (intro; discriminate).
      * intros draws. pose proof (pick_safe cryptoObj allChars eq_refl draws) as H.
        destruct (pick cryptoObj allChars draws); auto.
      * intros oc _.
        replace (length (chars ++ [None])) with (length (chars ++ [oc]))
          by (rewrite !length_app; reflexivity).
        apply IH. rewrite length_app. cbn [length]. lia.
    + replace (12 - length chars)%nat with 0%nat by lia. apply progresses_ret.
Qed.

(** ** The shuffle *)

Lemma swap_permutation (i j : nat) (arr : list (option ascii)) :
  (i < length arr)%nat -> (j < length arr)%nat ->
  swap (Z.of_nat i) (Z.of_nat j) arr ≡ₚ arr.
Proof.
  intros Hi Hj. unfold swap, at_.
  replace (Z.of_nat i <? 0) with false by lia.
  replace (Z.of_nat j <? 0) with false by lia.
  rewrite !Nat2Z.id.
  destruct (lookup_lt_is_Some_2 _ _ Hi) as [vi Evi].
  destruct (lookup_lt_is_Some_2 _ _ Hj) as [vj Evj].
  rewrite Evi, Evj. cbn [mjoin option_join].
  now apply Permutation_insert_swap.
Qed.

Lemma fisherYates_safe (rand : Z -> Rand Z) :
  (forall n, 0 < n -> safe (rand n) (fun j => 0 <= j < n)) ->
  forall i arr, (i < length arr)%nat ->
    safe (fisherYates rand i arr) (fun out => out ≡ₚ arr).
Proof.
  intros Hrand. induction i as [| i IH]; intros arr Hi; cbn [fisherYates].
  - now apply safe_ret.
  - eapply safe_bind; [apply Hrand; lia |].
    intros j Hj. cbv beta in Hj.
    assert (Hperm : swap (Z.of_nat (S i)) j arr ≡ₚ arr).
    { rewrite <- (Z2Nat.id j) by lia. apply swap_permutation; lia. }
    intros draws.
    assert (Hlen : (i < length (swap (Z.of_nat (S i)) j arr))%nat)
      by (rewrite (Permutation_length Hperm); lia).
    specialize (IH _ Hlen draws).
    destruct (fisherYates rand i (swap (Z.of_nat (S i)) j arr) draws); auto.
    now rewrite IH.
Qed.

Lemma fisherYates_progresses (rand : Z -> Rand Z) :
  (forall n, 0 < n <= 87 -> progresses 1 (rand n)) ->
  (forall n, 0 < n -> safe (rand n) (fun j => 0 <= j < n)) ->
  forall i arr, (i <= 86)%nat -> progresses i (fisherYates rand i arr).
Proof.
  intros Hp Hs. induction i as [| i IH]; intros arr Hi; cbn [fisherYates].
  - apply progresses_ret.
  - change (S i) with (1 + i)%nat at 1.
    eapply progresses_bind with (P := fun _ => True).
    + apply Hp. lia.
    + intros draws. pose proof (Hs (Z.of_nat (S i) + 1) ltac:(lia) draws) as H.
      destruct (rand (Z.of_nat (S i) + 1) draws); auto.
    + intros j _. apply IH. lia.
Qed.

Lemma shuffle_eq (cryptoObj : bool) (chars : list (option ascii)) :
  (if cryptoObj then secureShuffle chars
   else fisherYates mathRandomFloor (length chars - 1) chars)
  = fisherYates (source cryptoObj) (length chars - 1) chars.
Proof. destruct cryptoObj; reflexivity. Qed.

(** ** Joining the array *)

Lemma joinArray_length arr :
  Forall (fun o => o <> None) arr -> String.length (joinArray arr) = length arr.
Proof.
  induction 1 as [| [c |] arr Hc _ IH]; cbn; [reflexivity | | congruence].
  now rewrite IH.
Qed.

Lemma joinArray_class p arr :
  hasClass p arr -> Js.testClass p (joinArray arr) = true.
Proof.
  intros (c & Hin & Hp). unfold Js.testClass. apply existsb_exists.
  exists c. split; [| exact Hp].
  induction arr as [| [d |] arr IH]; cbn in *; [contradiction | |].
  - destruct Hin as [E | Hin]; [left; congruence | right; auto].
  - destruct Hin as [E | Hin]; [discriminate | auto].
Qed.

Lemma hasClass_permutation p (a b : list (option ascii)) :
  a ≡ₚ b -> hasClass p b -> hasClass p a.
Proof.
  intros Hperm (c & Hin & Hp). exists c. split; [| exact Hp].
  eapply Permutation_in; [symmetry; exact Hperm | exact Hin].
Qed.

Lemma complete_wellFormed arr : complete arr -> wellFormed (joinArray arr).
Proof.
  intros (Hlen & Hsome & Hu & Hl & Hd & Hs). unfold wellFormed.
  rewrite joinArray_length by exact Hsome.
  repeat split; auto using joinArray_class.
Qed.

Lemma complete_permutation (a b : list (option ascii)) :
  a ≡ₚ b -> complete b -> complete a.
Proof.
  intros Hperm (Hlen & Hsome & Hu & Hl & Hd & Hs). unfold complete.
  rewrite (Permutation_length Hperm).
  repeat split; eauto using hasClass_permutation.
  eapply Permutation_Forall; [symmetry; exact Hperm | exact Hsome].
Qed.

Lemma pool_class (p : ascii -> bool) pool oc :
  forallb p (Js.chars pool) = true -> fromPool pool oc ->
  exists c, oc = Some c /\ p c = true.
Proof.
  intros Hall (c & -> & Hin). exists c. split; [reflexivity |].
  rewrite forallb_forall in Hall. now apply Hall.
Qed.


(** ** The generator *)

Lemma seeded_complete c1 c2 c3 c4 extra :
  isUpper c1 = true -> isLower c2 = true -> isDigit c3 = true ->
  isSpecial c4 = true ->
  length ([Some c1; Some c2; Some c3; Some c4] ++ extra) = 12%nat ->
  Forall (fun o => o <> None) ([Some c1; Some c2; Some c3; Some c4] ++ extra) ->
  complete ([Some c1; Some c2; Some c3; Some c4] ++ extra).
Proof.
  intros H1 H2 H3 H4 Hlen Hsome. unfold complete, hasClass.
  repeat split; [exact Hlen | exact Hsome | | | |];
    [exists c1 | exists c2 | exists c3 | exists c4];
    (split; [cbn; tauto | assumption]).
Qed.

Lemma generateSecurePassword_safe cryptoObj :
  safe (generateSecurePassword cryptoObj) wellFormed.
Proof.
  unfold generateSecurePassword.
  eapply safe_bind; [apply pick_safe; reflexivity |]. intros o1 H1.
  eapply safe_bind; [apply pick_safe; reflexivity |]. intros o2 H2.
  eapply safe_bind; [apply pick_safe; reflexivity |]. intros o3 H3.
  eapply safe_bind; [apply pick_safe; reflexivity |]. intros o4 H4.
  apply (pool_class isUpper) in H1; [| reflexivity].
  apply (pool_class isLower) in H2; [| reflexivity].
  apply (pool_class isDigit) in H3; [| reflexivity].
  apply (pool_class isSpecial) in H4; [| reflexivity].
  destruct H1 as (c1 & -> & H1), H2 as (c2 & -> & H2),
    H3 as (c3 & -> & H3), H4 as (c4 & -> & H4).
  eapply safe_bind.
  { apply fillLoop_safe; [repeat constructor; discriminate | cbn; lia | cbn; lia]. }
  intros chars (Hlen & Hsome & extra & ->).
  rewrite shuffle_eq.
  eapply safe_bind.
  { apply fisherYates_safe; [apply source_safe | lia]. }
  intros shuffled Hperm. apply safe_ret. apply complete_wellFormed.
  eapply complete_permutation; [exact Hperm |].
  now apply seeded_complete.
Qed.

Lemma generateSecurePassword_progresses cryptoObj :
  progresses 23 (generateSecurePassword cryptoObj).
Proof.
  unfold generateSecurePassword.
  change 23%nat with (1 + (1 + (1 + (1 + ((12 - 4) + (11 + 0))))))%nat.
  eapply progresses_bind;
    [apply pick_progresses; split; reflexivity || (intro; discriminate)
    | apply pick_safe; reflexivity |]. intros o1 _.
  eapply progresses_bind;
    [apply pick_progresses; split; reflexivity || (intro; discriminate)
    | apply pick_safe; reflexivity |]. intros o2 _.
  eapply progresses_bind;
    [apply pick_progresses; split; reflexivity || (intro; discriminate)
    | apply pick_safe; reflexivity |]. intros o3 _.
  eapply progresses_bind;
    [apply pick_progresses; split; reflexivity || (intro; discriminate)
    | apply pick_safe; reflexivity |]. intros o4 _.
  eapply progresses_bind with (P := fun out => length out = 12%nat).
  - apply (fillLoop_progresses cryptoObj 12 [o1; o2; o3; o4]). cbn. lia.
  - intros draws.
    assert (Hweak : forall fuel chars (ds : list Z),
               (length chars <= 12)%nat -> (12 <= length chars + fuel)%nat ->
               match fillLoop cryptoObj fuel chars ds with
               | Returned out _ => length out = 12%nat
               | Thrown _ => False
               | Waiting => True
               end).
    { clear. induction fuel as [| fuel IH]; intros chars ds Hle Hge; cbn [fillLoop].
      - cbn. lia.
      - destruct (Z.ltb_spec (Z.of_nat (length chars)) 12) as [Hlt | Hnlt];
          [| cbn; lia].
        unfold bind.
        pose proof (pick_safe cryptoObj allChars eq_refl ds) as Hpick.
        destruct (pick cryptoObj allChars ds) as [oc rest | |]; auto.
        apply IH; rewrite length_app; cbn [length]; lia. }
    apply Hweak; cbn; lia.
  - intros chars Hlen. rewrite shuffle_eq, Hlen.
    eapply progresses_bind with (P := fun _ => True).
    + apply fisherYates_progresses;
        [apply source_progresses | apply source_safe | lia].
    + intros draws.
      pose proof (fisherYates_safe (source cryptoObj) (source_safe cryptoObj)
                    (12 - 1) chars ltac:(lia) draws) as H.
      destruct (fisherYates (source cryptoObj) (12 - 1) chars draws); auto.
    + intros shuffled _. apply progresses_ret.
Qed.

Example generate_zeros :
  generateSecurePassword true (repeat 0 23) = Returned "a0!AAAAAAAAA" []
  /\ generateSecurePassword false (repeat 0 23) = Returned "a0!AAAAAAAAA" []
  /\ generateSecurePassword true (repeat 0 22) = Waiting
  /\ generateSecurePassword true (4294967295 :: repeat 0 23)
     = Returned "a0!AAAAAAAAA" [].
Proof. vm_compute. repeat split. Qed.

(** The pool of the generator holds the semicolon, which the class of
    [REGEX_PATTERNS.specialChars] does not: a generated password can fail
    the special character requirement of the evaluator. *)
Example generated_special_not_in_evaluator_class :
  let draws := [1; 2; 3; 18; 5; 6; 7; 8; 9; 10; 11; 12; 13; 14; 15; 16; 17;
                18; 19; 20; 21; 22; 23] in
  let r := PasswordValidator.validatePasswordStrength
             (PasswordValidator.PwString "H3LKBJFMIG;c")
             PasswordValidator.noOptions in
  generateSecurePassword true draws = Returned "H3LKBJFMIG;c" []
  /\ PasswordValidator.isValid r = false
  /\ PasswordValidator.feedback r = [PasswordValidator.NeedSpecial].
Proof. vm_compute. repeat split. Qed.

(** ** Claims *)

(** C7, the claim as stated fails: the generator declares no length
    parameter; asked for 4 characters it returns 12. *)
Lemma generated_length_counterexample :
  4 <= 4
  /\ generateSecurePassword_with 4 true (repeat 0 23) = Returned "a0!AAAAAAAAA" []
  /\ Js.len "a0!AAAAAAAAA" <> 4.
Proof. split; [lia |]. split; [vm_compute; reflexivity | vm_compute; discriminate]. Qed.

(** C7, amended.  [generateSecurePassword] takes no length.  For every
    behaviour of the random source, with or without Web Crypto, it never
    throws, it returns as soon as the source has supplied the 23 numbers
    it needs (rejected numbers of the Web Crypto source apart), and the
    string it returns has length exactly 12 and contains at least one
    uppercase letter, one lowercase letter, one digit and one character of
    the generator's special pool. *)
Theorem generated_password_has_every_class (cryptoObj : bool) (draws : list Z) :
  (forall msg, generateSecurePassword cryptoObj draws <> Thrown msg)
  /\ ((23 <= supply draws)%nat ->
      exists pw rest, generateSecurePassword cryptoObj draws = Returned pw rest)
  /\ (forall pw rest,
        generateSecurePassword cryptoObj draws = Returned pw rest ->
        String.length pw = 12%nat
        /\ Js.testClass isUpper pw = true
        /\ Js.testClass isLower pw = true
        /\ Js.testClass isDigit pw = true
        /\ Js.testClass isSpecial pw = true).
Proof.
  pose proof (generateSecurePassword_safe cryptoObj draws) as Hsafe.
  split; [| split].
  - intros msg E. now rewrite E in Hsafe.
  - intros Hsupply.
    destruct (generateSecurePassword_progresses cryptoObj draws 0%nat)
      as (pw & rest & E & _); [lia |].
    now exists pw, rest.
  - intros pw rest E. rewrite E in Hsafe. exact Hsafe.
Qed.

Lemma generated_password_has_every_class_witness :
  String.length "a0!AAAAAAAAA" = 12%nat
  /\ Js.testClass isUpper "a0!AAAAAAAAA" = true
  /\ Js.testClass isLower "a0!AAAAAAAAA" = true
  /\ Js.testClass isDigit "a0!AAAAAAAAA" = true
  /\ Js.testClass isSpecial "a0!AAAAAAAAA" = true.
Proof.
  destruct (generated_password_has_every_class true (repeat 0 23)) as (_ & _ & H).
  apply (H "a0!AAAAAAAAA" []). vm_compute. reflexivity.
Defined.

End PasswordGeneratorFacts.

(* ===================================================================== *)
(** * Properties of the validation hook *)
(* ===================================================================== *)

Module PasswordHookFacts.
Import PasswordValidator PasswordHook.

(** ** Blank passwords are the strings of white space *)

Lemma trimStart_empty_iff s :
  Js.trimStart s = "" <-> forallb Js.isWhiteSpace (Js.chars s) = true.
Proof.
  induction s as [| c s IH]; cbn; [tauto |].
  destruct (Js.isWhiteSpace c); cbn; [exact IH |].
  split; discriminate.
Qed.

Lemma trimStart_head s c t :
  Js.trimStart s = String c t -> Js.isWhiteSpace c = false.
Proof.
  induction s as [| d s IH]; cbn; [discriminate |].
  destruct (Js.isWhiteSpace d) eqn:Hd; [exact IH |].
  intros E. injection E as -> _. exact Hd.
Qed.

Lemma chars_join l : Js.chars (Js.join l) = l.
Proof. induction l as [| c l IH]; cbn; [reflexivity | now rewrite IH]. Qed.

Lemma join_empty l : Js.join l = "" -> l = [].
Proof. destruct l; [reflexivity | discriminate]. Qed.

Lemma reverse_empty s : Js.reverse s = "" -> s = "".
Proof.
  unfold Js.reverse. intros H. apply join_empty in H.
  destruct s as [| c s]; [reflexivity |]. cbn in H.
  now apply app_eq_nil in H as [_ H].
Qed.

Lemma trim_empty_iff s :
  Js.trim s = "" <-> forallb Js.isWhiteSpace (Js.chars s) = true.
Proof.
  unfold Js.trim. split.
  - intros H. apply reverse_empty in H.
    destruct (Js.trimStart s) as [| c t] eqn:E; [now apply trimStart_empty_iff |].
    exfalso. apply trimStart_empty_iff in H.
    unfold Js.reverse in H. rewrite chars_join in H.
    rewrite forallb_forall in H.
    assert (Hc : Js.isWhiteSpace c = true).
    { apply H. apply -> in_rev. left. reflexivity. }
    rewrite (trimStart_head _ _ _ E) in Hc. discriminate Hc.
  - intros H. apply trimStart_empty_iff in H. now rewrite H.
Qed.

(** [isBlank] holds of the empty string and of the strings made of white
    space only. *)
Lemma isBlank_iff s :
  isBlank s = true <-> forallb Js.isWhiteSpace (Js.chars s) = true.
Proof.
  unfold isBlank. rewrite orb_true_iff, String.eqb_eq, trim_empty_iff.
  split; [| tauto]. intros [H | H]; [| exact H].
  destruct s; [reflexivity | discriminate H].
Qed.

(** ** The evaluator only ever sees passwords that are not blank *)

Lemma guarded_initial : guarded initialState.
Proof. split; [constructor | discriminate]. Qed.

Lemma guarded_step st ev : guarded st -> guarded (step st ev).
Proof.
  intros [Hev Hto]. destruct ev as [password options |]; cbn [step].
  - unfold effect. destruct (isBlank password) eqn:Hb; split; cbn; auto.
    + discriminate.
    + intros pw o E. injection E as <- _. exact Hb.
  - unfold timeoutElapsed. destruct (timeout st) as [[pw o] |] eqn:E.
    + split; cbn; [| discriminate].
      apply Forall_app. split; [exact Hev |]. constructor; [exact (Hto pw o eq_refl) | constructor].
    + split; [exact Hev |]. rewrite E. discriminate.
Qed.

Lemma guarded_run evs : forall st, guarded st -> guarded (run evs st).
Proof.
  unfold run. induction evs as [| ev evs IH]; intros st H; cbn; [exact H |].
  apply IH. now apply guarded_step.
Qed.

Lemma run_snoc evs ev st : run (evs ++ [ev]) st = step (run evs st) ev.
Proof. unfold run. now rewrite fold_left_app. Qed.

(** C10, amended.  Whatever happened before, once the effect has run for a
    password that is empty or made of white space only: no validation is
    stored and none is scheduled, so the hook reports [validation = null],
    [isValid = false], [score = 0], no feedback and the strength
    [very-weak], and this does not change when time passes; no password of
    that kind was ever handed to the evaluator; the evaluator itself
    reports the strength [invalid] for the empty password. *)
Theorem hook_never_evaluates_blank_password
  (password : string) (options : HookOptions) (history : list Event) :
  forallb Js.isWhiteSpace (Js.chars password) = true ->
  let st := run (history ++ [EffectRuns password options]) initialState in
  validation st = None
  /\ timeout st = None
  /\ r_validation (hookReturn st) = None
  /\ r_isValid (hookReturn st) = false
  /\ r_score (hookReturn st) = 0
  /\ r_feedback (hookReturn st) = []
  /\ r_strength (hookReturn st) = VeryWeak
  /\ step st TimeoutElapses = st
  /\ Forall (fun pw => forallb Js.isWhiteSpace (Js.chars pw) = false) (evaluated st)
  /\ strength (validatePasswordStrength (PwString "") (resolvedOptions options))
     = Invalid.
Proof.
  intros Hblank st. apply isBlank_iff in Hblank.
  assert (Hg : guarded st) by (apply guarded_run, guarded_initial).
  subst st. rewrite run_snoc in *. cbn [step] in *.
  set (before := run history initialState) in *.
  unfold effect in *. rewrite Hblank in *. cbn.
  repeat split.
  destruct Hg as [Hev _]. cbn in Hev.
  eapply Forall_impl; [exact Hev |]. intros pw Hpw. cbv beta in Hpw.
  destruct (forallb Js.isWhiteSpace (Js.chars pw)) eqn:E; [| reflexivity].
  apply isBlank_iff in E. congruence.
Qed.

Lemma hook_never_evaluates_blank_password_witness :
  let st := run [EffectRuns "Abcdef1!x" (OptionsUserType customer);
                 TimeoutElapses;
                 EffectRuns "   " (OptionsUserType customer)] initialState in
  validation st = None /\ r_strength (hookReturn st) = VeryWeak
  /\ evaluated st = ["Abcdef1!x"].
Proof.
  destruct (hook_never_evaluates_blank_password "   " (OptionsUserType customer)
              [EffectRuns "Abcdef1!x" (OptionsUserType customer); TimeoutElapses]
              eq_refl) as (Hv & _ & _ & _ & _ & _ & Hs & _).
  split; [exact Hv |]. split; [exact Hs | reflexivity].
Defined.

(** C10, the claim as stated fails: the hook is called with the empty
    password in a render, and the effect that clears the state runs only
    after that render.  In that call the hook still returns the verdict of
    the password it validated before, although the evaluator was never
    given the empty one. *)
Lemma hook_blank_password_before_effect_counterexample :
  let st := run [EffectRuns "Abcdef1!x" (OptionsUserType customer);
                 TimeoutElapses] initialState in
  let returned := fst (usePasswordValidation "" (OptionsUserType customer) st) in
  r_validation returned <> None
  /\ r_isValid returned = true
  /\ r_score returned = 70
  /\ r_feedback returned = [WarnSequence]
  /\ r_strength returned = Strong
  /\ evaluated st = ["Abcdef1!x"].
Proof. cbv zeta. split; [discriminate | repeat split]. Qed.

Example whitespace_is_not_missing_for_the_evaluator :
  strength (validatePasswordStrength (PwString "   ") noOptions) = VeryWeak.
Proof. reflexivity. Qed.

End PasswordHookFacts.

(* ===================================================================== *)
(** * Properties of the session token store *)
(* ===================================================================== *)

Module AuthProviderFacts.
Import AuthProvider.

(** C5, the claim as stated fails: after [setAccessToken] with the empty
    string the stored token is not null and [isAuthenticated] is false. *)
Lemma isAuthenticated_empty_token_counterexample :
  let token := setAccessToken (Some "") initialToken in
  accessToken (value token) <> None
  /\ isAuthenticated (value token) = false
  /\ ~ (isAuthenticated (value token) = true <-> accessToken (value token) <> None).
Proof.
  cbn. split; [discriminate |]. split; [reflexivity |].
  intros [_ H].
  assert (E : false = true) by (apply H; discriminate).
  discriminate E.
Qed.

(** C5, amended.  For every state of the token store [isAuthenticated] is
    true if and only if the stored token is neither null nor the empty
    string; in particular after [setAccessToken(t)] it is true exactly
    when the string t is not empty, and after [logout] it is false. *)
Theorem isAuthenticated_iff_token_nonempty (token : option string) :
  (isAuthenticated (value token) = true <-> token <> None /\ token <> Some "")
  /\ (forall t, isAuthenticated (value (setAccessToken (Some t) token)) = true
                <-> t <> "")
  /\ isAuthenticated (value (logout token)) = false.
Proof.
  split; [| split].
  - destruct token as [[| c s] |]; cbn.
    + split; [discriminate | intros [_ H]; now destruct H].
    + split; [intros _; split; discriminate | reflexivity].
    + split; [discriminate | intros [H _]; now destruct H].
  - intros [| c s]; cbn.
    + split; [discriminate | intros H; now destruct H].
    + split; [discriminate | reflexivity].
  - reflexivity.
Qed.

End AuthProviderFacts.

(* ===================================================================== *)
(** * Properties of the authenticated request pipeline *)
(* ===================================================================== *)

Module AxiosClientFacts.
Import AxiosClient.

Section Facts.
Variable B : TokenAccess.
Implicit Types (st : Pipeline B) (error : AxiosError) (r : Request).

Lemma run_app st evs1 evs2 :
  run B st (evs1 ++ evs2)
  = let (st1, a1) := run B st evs1 in
    let (st2, a2) := run B st1 evs2 in
    (st2, (a1 ++ a2)%list).
Proof.
  revert st. induction evs1 as [| ev evs1 IH]; intros st; cbn [run app].
  - now destruct (run B st evs2).
  - destruct (step B st ev) as [st' a]. rewrite IH.
    destruct (run B st' evs1) as [st1 a1].
    destruct (run B st1 evs2) as [st2 a2].
    now rewrite app_assoc.
Qed.

(** ** Counting refresh calls *)

Lemma refreshCalls_app a b :
  refreshCalls (a ++ b) = (refreshCalls a + refreshCalls b)%nat.
Proof. unfold refreshCalls. now rewrite List.filter_app, length_app. Qed.

(** ** Single flight

    In every state that the pipeline reaches, the flag [isRefreshing] is
    up exactly while one handler waits for the refresh, and the queue is
    empty while it is down. *)

Lemma coherent_initial (s : Store B) : coherent B (initial B s).
Proof. right. repeat split. Qed.

Lemma coherent_step st ev : coherent B st -> coherent B (fst (step B st ev)).
Proof.
  intros Hc. destruct ev as [config | error | n result]; cbn [step fst].
  - exact Hc.
  - unfold onResponseError.
    destruct (statusIsNot401 error || _retry (config error)); [exact Hc |].
    destruct Hc as [[Hr Hf] | (Hr & Hq & Ha)]; rewrite Hr; cbn [fst].
    + left. split; [reflexivity | exact Hf].
    + left. split; [reflexivity |].
      unfold refreshesInFlight. cbn. now rewrite Ha.
  - destruct (awaiting st !! n) as [req |] eqn:E; [| exact Hc].
    destruct Hc as [[Hr Hf] | (Hr & Hq & Ha)].
    + unfold refreshesInFlight in Hf.
      destruct (awaiting st) as [| a [| b l]]; try discriminate Hf.
      destruct n as [| n]; [| discriminate E].
      right. destruct result; cbn; repeat split.
    + rewrite Ha in E. discriminate E.
Qed.

Lemma coherent_run evs : forall st,
  coherent B st -> coherent B (fst (run B st evs)).
Proof.
  induction evs as [| ev evs IH]; intros st Hc; cbn [run]; [exact Hc |].
  pose proof (coherent_step st ev Hc) as Hstep.
  destruct (step B st ev) as [st1 a1]. cbn [fst] in Hstep.
  specialize (IH st1 Hstep). destruct (run B st1 evs) as [st2 a2]. exact IH.
Qed.

(** At most one refresh is in flight in every reachable state. *)
Lemma at_most_one_refresh_in_flight (s : Store B) (evs : list Event) :
  (refreshesInFlight B (fst (run B (initial B s) evs)) <= 1)%nat.
Proof.
  destruct (coherent_run evs _ (coherent_initial s)) as [[_ H] | (_ & _ & H)].
  - rewrite H. lia.
  - unfold refreshesInFlight. rewrite H. cbn. lia.
Qed.

(** Until a refresh settles, every call of the refresh endpoint adds one
    waiting handler: no second call is made while one is in flight. *)
Lemma step_refreshCalls st ev :
  (forall n result, ev <> RefreshSettles n result) ->
  (refreshCalls (snd (step B st ev)) + refreshesInFlight B st)%nat
  = refreshesInFlight B (fst (step B st ev)).
Proof.
  intros Hev. destruct ev as [config | error | n result]; cbn [step].
  - reflexivity.
  - unfold onResponseError, refreshesInFlight.
    destruct (statusIsNot401 error || _retry (config error)); [reflexivity |].
    destruct (isRefreshing st); cbn; [reflexivity |].
    rewrite length_app. cbn. lia.
  - now destruct (Hev n result).
Qed.

Lemma one_refresh_call_until_settled evs : forall st,
  coherent B st ->
  (forall n result, ~ In (RefreshSettles n result) evs) ->
  (refreshCalls (snd (run B st evs)) + refreshesInFlight B st <= 1)%nat.
Proof.
  induction evs as [| ev evs IH]; intros st Hc Hevs; cbn [run].
  - cbn. destruct Hc as [[_ H] | (_ & _ & H)]; unfold refreshesInFlight in *;
      rewrite H; cbn; lia.
  - pose proof (step_refreshCalls st ev) as Hstep.
    pose proof (coherent_step st ev Hc) as Hc'.
    destruct (step B st ev) as [st1 a1]. cbn [fst snd] in *.
    specialize (IH st1 Hc').
    destruct (run B st1 evs) as [st2 a2]. cbn [snd] in *.
    rewrite refreshCalls_app.
    assert (Hne : forall n result, ev <> RefreshSettles n result).
    { intros n result ->. apply (Hevs n result). left. reflexivity. }
    specialize (Hstep Hne).
    assert (Hrest : forall n result, ~ In (RefreshSettles n result) evs).
    { intros n result Hin. apply (Hevs n result). right. exact Hin. }
    specialize (IH Hrest). lia.
Qed.

(** ** Arrivals of authorization failures *)

Lemma first_arrival st error :
  isRefreshing st = false -> fresh401 error ->
  step B st (ResponseError error)
  = ({| store := store st; isRefreshing := true;
        pendingQueue := pendingQueue st;
        awaiting := awaiting st ++ [markRetried (config error)] |},
     [CallRefresh]).
Proof.
  intros Hr [H401 Hretry]. cbn [step]. unfold onResponseError.
  now rewrite H401, Hretry, Hr.
Qed.

Lemma later_arrival st error :
  isRefreshing st = true -> fresh401 error ->
  step B st (ResponseError error)
  = ({| store := store st; isRefreshing := true;
        pendingQueue := pendingQueue st ++ [markRetried (config error)];
        awaiting := awaiting st |},
     []).
Proof.
  intros Hr [H401 Hretry]. cbn [step]. unfold onResponseError.
  now rewrite H401, Hretry, Hr.
Qed.

Lemma later_arrivals errors : forall st,
  isRefreshing st = true -> Forall fresh401 errors ->
  run B st (map ResponseError errors)
  = ({| store := store st; isRefreshing := true;
        pendingQueue :=
          pendingQueue st ++ map (fun e => markRetried (config e)) errors;
        awaiting := awaiting st |},
     []).
Proof.
  induction errors as [| e errors IH]; intros st Hr Hall; cbn [map run].
  - rewrite app_nil_r. destruct st; cbn in *. now subst.
  - inversion Hall as [| ? ? He Hrest]; subst.
    rewrite (later_arrival st e Hr He), IH by (assumption || reflexivity).
    cbn. now rewrite <- app_assoc.
Qed.

(** ** Draining the queue *)

Lemma processQueue_fulfilled st t :
  Js.truthy t = true ->
  processQueue B None (Some t) st
  = ({| store := store st; isRefreshing := isRefreshing st;
        pendingQueue := []; awaiting := awaiting st |},
     map (fun q => Send (requestInterceptor B st (withAuthorization t q)))
         (pendingQueue st)).
Proof.
  intros Ht. unfold processQueue. f_equal.
  induction (pendingQueue st) as [| q l IH]; cbn; [reflexivity |].
  now rewrite Ht, IH.
Qed.

Lemma processQueue_no_token st t :
  Js.truthy t = false ->
  processQueue B None (Some t) st
  = ({| store := store st; isRefreshing := isRefreshing st;
        pendingQueue := []; awaiting := awaiting st |},
     map (fun q => Reject q noTokenAvailable) (pendingQueue st)).
Proof.
  intros Ht. unfold processQueue. f_equal.
  induction (pendingQueue st) as [| q l IH]; cbn; [reflexivity |].
  now rewrite Ht, IH.
Qed.

Lemma processQueue_rejected st e :
  processQueue B (Some e) None st
  = ({| store := store st; isRefreshing := isRefreshing st;
        pendingQueue := []; awaiting := awaiting st |},
     map (fun q => Reject q e) (pendingQueue st)).
Proof.
  unfold processQueue. reflexivity.
Qed.

Lemma refreshCalls_sends (f : Request -> Request) l :
  refreshCalls (map (fun q => Send (f q)) l) = 0%nat.
Proof. induction l; cbn; auto. Qed.

Lemma refreshCalls_rejects (e : Request -> JsError) l :
  refreshCalls (map (fun q => Reject q (e q)) l) = 0%nat.
Proof. induction l; cbn; auto. Qed.

(** With a getter that returns the token just stored, the request
    interceptor confirms the header written by the replay. *)
Lemma interceptor_after_set st st' t r :
  readsLastWrite B -> Js.truthy t = true ->
  store st' = setAccessToken B (Some t) (store st) ->
  requestInterceptor B st' (withAuthorization t r) = withAuthorization t r.
Proof.
  intros Hlaw Ht Hs. unfold requestInterceptor. now rewrite Hs, Hlaw, Ht.
Qed.

Lemma requestInterceptor_store st st' r :
  store st = store st' -> requestInterceptor B st r = requestInterceptor B st' r.
Proof. intros E. unfold requestInterceptor. now rewrite E. Qed.

(** The handler that waits for the refresh resumes. *)
Lemma refresh_settles st trigger result :
  awaiting st = [trigger] ->
  step B st (RefreshSettles 0 result)
  = let newStore :=
        match result with
        | Fulfilled t => setAccessToken B (Some t) (store st)
        | Rejected _ => setAccessToken B None (store st)
        end in
    let idle := {| store := newStore; isRefreshing := false;
                   pendingQueue := []; awaiting := [] |} in
    (idle,
     match result with
     | Fulfilled t =>
         (if Js.truthy t
          then map (fun q => Send (requestInterceptor B idle (withAuthorization t q)))
                   (pendingQueue st)
          else map (fun q => Reject q noTokenAvailable)
                   (pendingQueue st))
         ++ [Send (requestInterceptor B idle (withAuthorization t trigger))]
     | Rejected e =>
         map (fun q => Reject q e) (pendingQueue st) ++ [Reject trigger e]
     end).
Proof.
  intros Ha. cbn [step]. rewrite Ha. cbn [lookup list_lookup delete list_delete].
  unfold onRefreshSettled. destruct result as [t | e].
  - destruct (Js.truthy t) eqn:Ht.
    + rewrite processQueue_fulfilled by exact Ht. reflexivity.
    + rewrite processQueue_no_token by exact Ht. reflexivity.
  - rewrite processQueue_rejected. reflexivity.
Qed.

(** ** Claims *)

(** C4.  An error whose request is already marked as retried, and an error
    whose response status is not 401, the network error without a response
    included, is handed to the caller as it is: the state of the pipeline
    does not change, the only action is the rejection of the caller with
    the very same error, and the refresh endpoint is not called. *)
Theorem other_errors_pass_through st error :
  response error = None
  \/ (exists resp, response error = Some resp /\ status resp <> 401)
  \/ _retry (config error) = true ->
  step B st (ResponseError error) = (st, [Reject (config error) (OfAxios error)])
  /\ refreshCalls (snd (step B st (ResponseError error))) = 0%nat.
Proof.
  intros H.
  assert (Hguard : statusIsNot401 error || _retry (config error) = true).
  { unfold statusIsNot401.
    destruct H as [-> | [(resp & -> & Hs) | ->]];
      [reflexivity | | apply orb_true_r].
    apply orb_true_iff. left. apply negb_true_iff. lia. }
  cbn [step]. unfold onResponseError. rewrite Hguard. split; reflexivity.
Qed.

(** C1, amended.  Let k >= 1 authorization failures of requests that were
    not retried arrive while the pipeline is idle.  The first one raises
    the flag and calls the refresh endpoint, the others are queued, and no
    further call is made: exactly one refresh call.  When the refresh
    settles, the queue is drained once and uniformly: every queued
    continuation is resolved with the new token when the refresh succeeded
    with a token that is not empty, every one is rejected with the error
    'No token available' when it succeeded with the empty token, every one
    is rejected with the refresh error when it failed.  Afterwards the
    queue is empty and the pipeline is idle, and after a failure the token
    store has been cleared. *)
Theorem single_flight_refresh st first others result :
  Idle B st -> fresh401 first -> Forall fresh401 others ->
  let trigger := markRetried (config first) in
  let queued := map (fun e => markRetried (config e)) others in
  let refreshing :=
    {| store := store st; isRefreshing := true;
       pendingQueue := queued; awaiting := [trigger] |} in
  let newStore :=
    match result with
    | Fulfilled t => setAccessToken B (Some t) (store st)
    | Rejected _ => setAccessToken B None (store st)
    end in
  let idle :=
    {| store := newStore; isRefreshing := false;
       pendingQueue := []; awaiting := [] |} in
  let drained :=
    match result with
    | Fulfilled t =>
        if Js.truthy t
        then map (fun q => Send (requestInterceptor B idle (withAuthorization t q)))
                 queued
        else map (fun q => Reject q noTokenAvailable) queued
    | Rejected e => map (fun q => Reject q e) queued
    end in
  let original :=
    match result with
    | Fulfilled t => Send (requestInterceptor B idle (withAuthorization t trigger))
    | Rejected e => Reject trigger e
    end in
  run B st (map ResponseError (first :: others)) = (refreshing, [CallRefresh])
  /\ Refreshing B refreshing
  /\ step B refreshing (RefreshSettles 0 result) = (idle, (drained ++ [original])%list)
  /\ refreshCalls ([CallRefresh] ++ drained ++ [original]) = 1%nat
  /\ Idle B idle
  /\ (forall e, result = Rejected e -> store idle = setAccessToken B None (store st)).
Proof.
  intros (Hr & Hq & Ha) Hfirst Hothers trigger queued refreshing newStore idle
    drained original.
  split; [| split; [| split; [| split; [| split]]]].
  - cbn [map run]. rewrite (first_arrival st first Hr Hfirst).
    rewrite later_arrivals by (reflexivity || assumption).
    cbn. now rewrite Hq, Ha.
  - split; reflexivity.
  - rewrite (refresh_settles refreshing trigger result eq_refl).
    subst drained original idle newStore. cbn [pendingQueue store refreshing].
    destruct result as [t | e]; reflexivity.
  - subst drained original. rewrite !refreshCalls_app.
    destruct result as [t | e]; [destruct (Js.truthy t) |];
      rewrite ?refreshCalls_sends,
        ?(refreshCalls_rejects (fun _ => noTokenAvailable)),
        ?(refreshCalls_rejects (fun _ => e)); reflexivity.
  - repeat split.
  - intros e ->. reflexivity.
Qed.

(** C3, amended.  While a refresh is in progress: a request that is newly
    issued is not queued, the request interceptor attaches the token that
    the registered getter returns at that moment and the request leaves at
    once; a request whose authorization failure arrives is queued and
    nothing is sent for it; when the refresh succeeds with a token that is
    not empty, the token is handed to the registered setter and every
    queued request, then the request that started the refresh, is sent
    again, once each: the handler writes the new token into the
    Authorization header and hands the request to [http], where the
    request interceptor runs on it as on any request.  This holds for
    every pair of getter and setter; the header that leaves is the new
    token unless the getter returns another token that is not empty. *)
Theorem requests_while_refreshing st :
  isRefreshing st = true ->
  (forall config,
      step B st (Issue config) = (st, [Send (requestInterceptor B st config)]))
  /\ (forall error, fresh401 error ->
        step B st (ResponseError error)
        = ({| store := store st; isRefreshing := true;
              pendingQueue := pendingQueue st ++ [markRetried (config error)];
              awaiting := awaiting st |}, []))
  /\ (forall trigger t,
        awaiting st = [trigger] -> Js.truthy t = true ->
        let st' := {| store := setAccessToken B (Some t) (store st);
                      isRefreshing := false;
                      pendingQueue := []; awaiting := [] |} in
        let carried := match getAccessToken B (store st') with
                       | Some seen => if Js.truthy seen then seen else t
                       | None => t
                       end in
        step B st (RefreshSettles 0 (Fulfilled t))
        = (st', flat_map (fun q => http B st' (withAuthorization t q))
                         (pendingQueue st ++ [trigger]))
        /\ flat_map (fun q => http B st' (withAuthorization t q))
                    (pendingQueue st ++ [trigger])
           = map (fun q => Send (withAuthorization carried q))
                 (pendingQueue st ++ [trigger])).
Proof.
  intros Hr. split; [| split].
  - reflexivity.
  - intros error He. now apply later_arrival.
  - intros trigger t Ha Ht st' carried.
    assert (Hsend : forall q,
      http B st' (withAuthorization t q) = [Send (withAuthorization carried q)]).
    { intros q. unfold http, requestInterceptor. subst carried.
      destruct (getAccessToken B (store st')) as [seen |]; [| reflexivity].
      destruct (Js.truthy seen); reflexivity. }
    assert (Hall : forall l,
      flat_map (fun q => http B st' (withAuthorization t q)) l
      = map (fun q => Send (withAuthorization carried q)) l).
    { induction l as [| q l IH]; [reflexivity |].
      cbn [flat_map map]. now rewrite Hsend, IH. }
    split; [| apply Hall].
    rewrite (refresh_settles st trigger (Fulfilled t) Ha). cbv zeta. rewrite Ht.
    fold st'. f_equal. rewrite Hall, map_app. cbn [map].
    f_equal; [apply map_ext | f_equal]; intros; f_equal;
      pose proof (Hsend a) as E || pose proof (Hsend trigger) as E;
      unfold http in E; now injection E.
Qed.

End Facts.

(** ** Concrete runs *)

(** The spec's scenario: three calls get 401, the refresh returns T2, and
    the three calls are sent again with [Bearer T2], once each. *)
Example scenario_three_calls :
  snd (run memoryCell (initial memoryCell (Some "T1"))
         [ResponseError (unauthorized (get "/a" (Some "Bearer T1")));
          ResponseError (unauthorized (get "/b" (Some "Bearer T1")));
          ResponseError (unauthorized (get "/c" (Some "Bearer T1")));
          RefreshSettles 0 (Fulfilled "T2")])
  = [CallRefresh;
     Send (markRetried (get "/b" (Some "Bearer T2")));
     Send (markRetried (get "/c" (Some "Bearer T2")));
     Send (markRetried (get "/a" (Some "Bearer T2")))].
Proof. reflexivity. Qed.

Lemma other_errors_pass_through_witness :
  let st := initial memoryCell (Some "T1") in
  let error := {| response := None; config := get "/a" (Some "Bearer T1") |} in
  step memoryCell st (ResponseError error)
  = (st, [Reject (config error) (OfAxios error)]).
Proof.
  intros st error.
  apply (other_errors_pass_through memoryCell st error). left. reflexivity.
Defined.

(** C1, the claim as stated fails: the refresh succeeds with the empty
    token; the queued continuation is rejected, not resolved with the new
    token, while the request that started the refresh is sent again. *)
Lemma single_flight_empty_token_counterexample :
  let ra := get "/a" (Some "Bearer T1") in
  let rb := get "/b" (Some "Bearer T1") in
  let st1 := fst (run memoryCell (initial memoryCell (Some "T1"))
                    [ResponseError (unauthorized ra);
                     ResponseError (unauthorized rb)]) in
  pendingQueue st1 = [markRetried rb]
  /\ snd (step memoryCell st1 (RefreshSettles 0 (Fulfilled "")))
     = [Reject (markRetried rb) noTokenAvailable;
        Send (withAuthorization "" (markRetried ra))].
Proof. split; reflexivity. Qed.

Lemma single_flight_refresh_witness :
  let ra := get "/a" (Some "Bearer T1") in
  let rb := get "/b" (Some "Bearer T1") in
  let st := initial memoryCell (Some "T1") in
  refreshCalls
    (snd (run memoryCell st [ResponseError (unauthorized ra);
                             ResponseError (unauthorized rb);
                             RefreshSettles 0 (Fulfilled "T2")])) = 1%nat.
Proof.
  intros ra rb st.
  destruct (single_flight_refresh memoryCell st (unauthorized ra) [unauthorized rb]
              (Fulfilled "T2"))
    as (_ & _ & _ & H & _).
  - repeat split.
  - split; reflexivity.
  - repeat constructor.
  - exact H.
Defined.

(** C3, the claim as stated fails: a request issued while the refresh is
    in progress is not queued; it leaves at once with the old token. *)
Lemma request_while_refreshing_counterexample :
  let st1 := fst (run memoryCell (initial memoryCell (Some "T1"))
                    [ResponseError (unauthorized (get "/a" (Some "Bearer T1")))]) in
  isRefreshing st1 = true
  /\ step memoryCell st1 (Issue (get "/c" None))
     = (st1, [Send (get "/c" (Some "Bearer T1"))])
  /\ pendingQueue st1 = [].
Proof. repeat split. Qed.

Lemma memoryCell_readsLastWrite : readsLastWrite memoryCell.
Proof. intros t s. reflexivity. Qed.

Lemma requests_while_refreshing_witness :
  let ra := markRetried (get "/a" (Some "Bearer T1")) in
  let rb := markRetried (get "/b" (Some "Bearer T1")) in
  let st := {| store := Some "T1" : Store memoryCell; isRefreshing := true;
               pendingQueue := [rb]; awaiting := [ra] |} in
  snd (step memoryCell st (RefreshSettles 0 (Fulfilled "T2")))
  = [Send (withAuthorization "T2" rb); Send (withAuthorization "T2" ra)].
Proof.
  intros ra rb st.
  destruct (requests_while_refreshing memoryCell st eq_refl) as (_ & _ & H).
  destruct (H ra "T2" eq_refl eq_refl) as [Hstep Hsent].
  rewrite Hstep. cbn [snd]. rewrite Hsent. reflexivity.
Defined.

(** The getter that [AuthProvider] registers returns the token of the
    render that registered it.  Between [setAccessToken] and the next run
    of the provider's effect it does not return the token just stored, and
    the request interceptor writes the old token over the header that the
    replay has set. *)
Example provider_getter_is_stale :
  let s := {| cell := Some "T1"; captured := Some "T1" |} in
  getAccessToken authProvider (setAccessToken authProvider (Some "T2") s) = Some "T1"
  /\ getAccessToken authProvider
       (rerender (setAccessToken authProvider (Some "T2") s)) = Some "T2"
  /\ snd (run authProvider (initial authProvider s)
            [ResponseError (unauthorized (get "/a" (Some "Bearer T1")));
             ResponseError (unauthorized (get "/b" (Some "Bearer T1")));
             RefreshSettles 0 (Fulfilled "T2")])
     = [CallRefresh;
        Send (markRetried (get "/b" (Some "Bearer T1")));
        Send (markRetried (get "/a" (Some "Bearer T1")))].
Proof. repeat split. Qed.

End AxiosClientFacts.

(* ===================================================================== *)
(** * Further properties of the credential policy evaluator *)
(* ===================================================================== *)

Module PasswordValidatorMore.
Import PasswordValidator PasswordValidatorFacts.

(** ** Score *)

Lemma characterType_score isRequired present msg l :
  l_score (characterType isRequired present msg l)
  = l_score l + classPoints isRequired present.
Proof.
  unfold characterType, classPoints.
  destruct (isRequired && negb present); [cbn; lia |].
  destruct present; cbn; lia.
Qed.

Lemma hardRules_score password config :
  l_score (hardRules password config initialLocals) = hardPoints password config.
Proof.
  unfold hardRules, hardPoints, commonPasswordCheck, specialCharsRequirement,
    numbersRequirement, lowercaseRequirement, uppercaseRequirement.
  set (common := preventCommonPasswords config
                 && Js.includes COMMON_PASSWORDS (Js.toLowerCase password)).
  assert (Hbase :
    l_score (maxLengthValidation password config
               (lengthValidation password config initialLocals))
    = (if Js.len password <? minLength config then 0 else 10)).
  { unfold maxLengthValidation, lengthValidation.
    destruct (Z.ltb_spec (Js.len password) (minLength config)).
    - destruct (Js.len password >? maxLength config); reflexivity.
    - replace (Js.len password >=? minLength config) with true by lia.
      destruct (Js.len password >? maxLength config); reflexivity. }
  destruct common; cbn [l_score addScore fail];
    rewrite !characterType_score, Hbase; lia.
Qed.

Lemma classPoints_bounds isRequired present :
  0 <= classPoints isRequired present <= 15.
Proof. unfold classPoints. destruct isRequired, present; cbn; lia. Qed.

Lemma hardPoints_bounds password config :
  -20 <= hardPoints password config <= 70.
Proof.
  unfold hardPoints.
  pose proof (classPoints_bounds (requireUppercase config)
                (REGEX_PATTERNS.uppercase password)).
  pose proof (classPoints_bounds (requireLowercase config)
                (REGEX_PATTERNS.lowercase password)).
  pose proof (classPoints_bounds (requireNumbers config)
                (REGEX_PATTERNS.numbers password)).
  pose proof (classPoints_bounds (requireSpecialChars config)
                (REGEX_PATTERNS.specialChars password)).
  destruct (Js.len password <? minLength config);
    destruct (preventCommonPasswords config
              && Js.includes COMMON_PASSWORDS (Js.toLowerCase password)); lia.
Qed.

Lemma patternMatches_bounds password : 0 <= patternMatches password <= 3.
Proof.
  unfold patternMatches.
  destruct (REGEX_PATTERNS.commonSequence password),
    (REGEX_PATTERNS.repeatedChars password),
    (REGEX_PATTERNS.keyboard password); cbn; lia.
Qed.

Lemma bonusPoints_bounds password : 0 <= bonusPoints password <= 30.
Proof.
  unfold bonusPoints.
  repeat match goal with |- context [if ?b then _ else _] => destruct b end; lia.
Qed.

(** The score of a present password, in one formula. *)
Lemma score_present s options :
  Js.truthy s = true ->
  score (validatePasswordStrength (PwString s) options)
  = Z.max 0 (hardPoints s (mergeConfig options)
             - 10 * patternMatches s + bonusPoints s).
Proof.
  intros Ht. rewrite validate_present by exact Ht. cbn [score].
  unfold evaluateRules.
  now rewrite bonuses_score, patternWarnings_score, hardRules_score.
Qed.

(** X1.  The score never leaves the range 0..100, whatever the password and
    the policy. *)
Theorem score_within_0_100 (password : PasswordArg) (options : PartialRequirements) :
  0 <= score (validatePasswordStrength password options) <= 100.
Proof.
  destruct (passwordMissing password) eqn:Hm.
  - rewrite validate_missing by exact Hm. cbn. lia.
  - destruct password as [s | t]; [| cbn in Hm; now rewrite orb_true_r in Hm].
    rewrite passwordMissing_string in Hm. apply negb_false_iff in Hm.
    rewrite score_present by exact Hm.
    pose proof (hardPoints_bounds s (mergeConfig options)).
    pose proof (patternMatches_bounds s).
    pose proof (bonusPoints_bounds s). lia.
Qed.

Example score_100_is_reached :
  score (validatePasswordStrength (PwString "Tr0ub4dor&Zebra!Vx") noOptions) = 100.
Proof. vm_compute. reflexivity. Qed.

(** ** Strength *)

Lemma getPasswordStrength_rank n :
  0 <= strengthRank (getPasswordStrength n) <= 4.
Proof.
  unfold getPasswordStrength.
  repeat match goal with |- context [if ?b then _ else _] => destruct b end;
    cbn; lia.
Qed.

(** A higher score never gives a lower category. *)
Theorem getPasswordStrength_monotone (a b : Z) :
  a <= b ->
  strengthRank (getPasswordStrength a) <= strengthRank (getPasswordStrength b).
Proof.
  intros Hab. unfold getPasswordStrength.
  destruct (Z.geb_spec a 80), (Z.geb_spec b 80),
    (Z.geb_spec a 60), (Z.geb_spec b 60),
    (Z.geb_spec a 40), (Z.geb_spec b 40),
    (Z.geb_spec a 20), (Z.geb_spec b 20); cbn; lia.
Qed.

Lemma getPasswordStrength_monotone_witness :
  strengthRank (getPasswordStrength 39) <= strengthRank (getPasswordStrength 40).
Proof. apply (getPasswordStrength_monotone 39 40). lia. Defined.

(** X2.  The strength is [invalid] exactly for a missing password; for a
    present one it is the category of the score. *)
Theorem strength_invalid_iff_missing
  (password : PasswordArg) (options : PartialRequirements) :
  let r := validatePasswordStrength password options in
  (strength r = Invalid <-> passwordMissing password = true)
  /\ (passwordMissing password = false ->
      strength r = getPasswordStrength (score r)).
Proof.
  intros r. subst r. destruct (passwordMissing password) eqn:Hm.
  - rewrite validate_missing by exact Hm. cbn. split; [tauto | discriminate].
  - destruct password as [s | t]; [| cbn in Hm; now rewrite orb_true_r in Hm].
    rewrite passwordMissing_string in Hm. apply negb_false_iff in Hm.
    rewrite validate_present by exact Hm. cbn [strength score].
    split; [| reflexivity].
    split; [| discriminate]. intros E.
    pose proof (getPasswordStrength_rank
                  (Z.max 0 (l_score (evaluateRules s (mergeConfig options))))) as H.
    rewrite E in H. cbn in H. lia.
Qed.

Lemma strength_invalid_iff_missing_witness :
  strength (validatePasswordStrength (PwString "Xy7!Xy7!Qm2#") noOptions)
  = getPasswordStrength
      (score (validatePasswordStrength (PwString "Xy7!Xy7!Qm2#") noOptions)).
Proof.
  destruct (strength_invalid_iff_missing (PwString "Xy7!Xy7!Qm2#") noOptions)
    as [_ H].
  apply H. reflexivity.
Defined.

(** ** Feedback *)

Lemma untouched_fail msg l :
  isHardFailure msg = true -> untouched l -> untouched (fail msg l).
Proof.
  intros Hmsg [_ Hall]. split; cbn.
  - split; [discriminate |]. intros E. now apply app_eq_nil in E as [_ E].
  - rewrite forallb_app, Hall. cbn. now rewrite Hmsg.
Qed.

Lemma untouched_addScore n l : untouched l -> untouched (addScore n l).
Proof. intros H. exact H. Qed.

Lemma untouched_characterType isRequired present msg l :
  isHardFailure msg = true -> untouched l ->
  untouched (characterType isRequired present msg l).
Proof.
  intros Hmsg H. unfold characterType.
  destruct (isRequired && negb present); [now apply untouched_fail |].
  destruct present; [now apply untouched_addScore | exact H].
Qed.

Lemma untouched_hardRules password config :
  untouched (hardRules password config initialLocals).
Proof.
  unfold hardRules.
  assert (H0 : untouched initialLocals) by (split; [tauto | reflexivity]).
  assert (H1 : untouched (lengthValidation password config initialLocals)).
  { unfold lengthValidation.
    destruct (Js.len password <? minLength config);
      [now apply untouched_fail |].
    destruct (Js.len password >=? minLength config); [| exact H0].
    now apply untouched_addScore. }
  assert (H2 : untouched (maxLengthValidation password config
                            (lengthValidation password config initialLocals))).
  { unfold maxLengthValidation.
    destruct (Js.len password >? maxLength config);
      [now apply untouched_fail | exact H1]. }
  unfold commonPasswordCheck, specialCharsRequirement, numbersRequirement,
    lowercaseRequirement, uppercaseRequirement.
  destruct (preventCommonPasswords config
            && Js.includes COMMON_PASSWORDS (Js.toLowerCase password));
    [apply untouched_addScore, untouched_fail; [reflexivity |] |];
    repeat (apply untouched_characterType; [reflexivity |]); exact H2.
Qed.

Lemma expectedWarnings_soft password :
  existsb isHardFailure (expectedWarnings password) = false.
Proof.
  unfold expectedWarnings.
  destruct (REGEX_PATTERNS.commonSequence password),
    (REGEX_PATTERNS.repeatedChars password),
    (REGEX_PATTERNS.keyboard password); reflexivity.
Qed.

Lemma feedback_present s options :
  Js.truthy s = true ->
  feedback (validatePasswordStrength (PwString s) options)
  = let all := l_feedback (hardRules s (mergeConfig options) initialLocals)
               ++ expectedWarnings s in
    match all with [] => [MeetsAll] | _ :: _ => all end.
Proof.
  intros Ht. rewrite validate_present by exact Ht. cbn [feedback].
  unfold evaluateRules. rewrite bonuses_feedback, patternWarnings_feedback.
  cbv zeta.
  destruct (l_feedback (hardRules s (mergeConfig options) initialLocals)
            ++ expectedWarnings s) as [| m l]; reflexivity.
Qed.

Lemma feedback_never_empty password options :
  feedback (validatePasswordStrength password options) <> [].
Proof.
  destruct (passwordMissing password) eqn:Hm.
  - rewrite validate_missing by exact Hm. discriminate.
  - destruct password as [s | t]; [| cbn in Hm; now rewrite orb_true_r in Hm].
    rewrite passwordMissing_string in Hm. apply negb_false_iff in Hm.
    rewrite feedback_present by exact Hm. cbv zeta.
    destruct (l_feedback (hardRules s (mergeConfig options) initialLocals)
              ++ expectedWarnings s); discriminate.
Qed.

(** X3.  The feedback is never empty; the result is valid exactly when the
    feedback holds no message of a hard requirement (only warnings, or the
    message of success), and the message of success appears exactly when
    nothing else was said. *)
Theorem feedback_reflects_validity
  (password : PasswordArg) (options : PartialRequirements) :
  let r := validatePasswordStrength password options in
  feedback r <> []
  /\ isValid r = negb (existsb isHardFailure (feedback r))
  /\ (In MeetsAll (feedback r) <-> feedback r = [MeetsAll])
  /\ (feedback r = [MeetsAll] -> isValid r = true).
Proof.
  intros r. subst r. destruct (passwordMissing password) eqn:Hm.
  - rewrite validate_missing by exact Hm. cbn.
    repeat split; try discriminate. intros [E | []]. discriminate E.
  - destruct password as [s | t]; [| cbn in Hm; now rewrite orb_true_r in Hm].
    rewrite passwordMissing_string in Hm. apply negb_false_iff in Hm.
    rewrite isValid_present, feedback_present by exact Hm.
    rewrite <- hardRules_isValid. cbv zeta.
    destruct (untouched_hardRules s (mergeConfig options)) as [Hiff Hall].
    pose proof (expectedWarnings_soft s) as Hsoft.
    set (hard := l_feedback (hardRules s (mergeConfig options) initialLocals)) in *.
    assert (Hno : forall l, existsb isHardFailure l = false -> ~ In MeetsAll l -> True)
      by auto.
    assert (Hmeets_hard : ~ In MeetsAll hard).
    { intros Hin. rewrite forallb_forall in Hall. now specialize (Hall _ Hin). }
    assert (Hmeets_warn : ~ In MeetsAll (expectedWarnings s)).
    { unfold expectedWarnings.
      destruct (REGEX_PATTERNS.commonSequence s),
        (REGEX_PATTERNS.repeatedChars s), (REGEX_PATTERNS.keyboard s);
        cbn; intuition discriminate. }
    destruct (hard ++ expectedWarnings s) as [| m l] eqn:Happ.
    + apply app_eq_nil in Happ as [Hh _].
      rewrite (proj2 Hiff Hh). cbn.
      repeat split; try discriminate; tauto.
    + assert (Hin : ~ In MeetsAll (m :: l)).
      { rewrite <- Happ. intros Hin. apply in_app_or in Hin. tauto. }
      split; [discriminate |]. split; [| split].
      * rewrite <- Happ, existsb_app, Hsoft, orb_false_r.
        destruct hard as [| h hs] eqn:Eh.
        -- now rewrite (proj2 Hiff eq_refl).
        -- cbn in Hall. apply andb_true_iff in Hall as [Hh _].
           cbn. rewrite Hh. cbn.
           destruct (l_isValid (hardRules s (mergeConfig options) initialLocals))
             eqn:Ev; [| reflexivity].
           now specialize (proj1 Hiff eq_refl).
      * split; [tauto |]. intros E. rewrite E in Hin. cbn in Hin. tauto.
      * intros E. rewrite E in Hin. cbn in Hin. tauto.
Qed.

Lemma feedback_reflects_validity_witness :
  isValid (validatePasswordStrength (PwString "Xy7!Xy7!Qm2#") noOptions) = true.
Proof.
  destruct (feedback_reflects_validity (PwString "Xy7!Xy7!Qm2#") noOptions)
    as (_ & _ & _ & H).
  apply H. reflexivity.
Defined.

(** ** The checklist *)

(** X4.  The checklist lists required rules only, starts with the length rule,
    names every rule once, and has the same entries (up to [met]) for every
    password: typing changes the ticks, never the list. *)
Theorem requirements_list_shape
  (password other : string) (config : PasswordRequirements) :
  let l := getRequirementsList password config in
  Forall (fun q => required q = true) l
  /\ (exists q rest, l = q :: rest /\ id q = "length"
                      /\ met q = (Js.len password >=? minLength config))
  /\ NoDup (map id l)
  /\ map (fun q => (id q, label q)) l
     = map (fun q => (id q, label q)) (getRequirementsList other config).
Proof.
  intros l. subst l. split; [| split; [| split]].
  - apply List.Forall_forall. intros q Hin.
    unfold getRequirementsList in Hin. apply filter_In in Hin. tauto.
  - unfold getRequirementsList. cbn [List.filter required].
    eexists _, _. split; [reflexivity |]. split; reflexivity.
  - unfold getRequirementsList.
    destruct (requireUppercase config), (requireLowercase config),
      (requireNumbers config), (requireSpecialChars config),
      (preventCommonPasswords config); cbn [List.filter required map id];
      repeat (constructor;
              [intros Hin; apply list_elem_of_In in Hin; cbn in Hin;
               intuition discriminate |]);
      constructor.
  - unfold getRequirementsList.
    destruct (requireUppercase config), (requireLowercase config),
      (requireNumbers config), (requireSpecialChars config),
      (preventCommonPasswords config); reflexivity.
Qed.

(** ** Policies *)

Lemma mergeConfig_explicit c : mergeConfig (explicitOptions c) = c.
Proof. destruct c. reflexivity. Qed.

(** X5.  A password accepted under the configuration of any user type is
    accepted under the customer configuration. *)
Theorem valid_for_any_role_valid_for_customer (u : UserType) (s : string) :
  isValid (validatePasswordStrength (PwString s) (explicitOptions (PASSWORD_CONFIGS u)))
  = true ->
  isValid (validatePasswordStrength (PwString s)
             (explicitOptions (PASSWORD_CONFIGS customer))) = true.
Proof.
  destruct (Js.truthy s) eqn:Ht.
  - rewrite !isValid_present by exact Ht. rewrite !mergeConfig_explicit.
    destruct u; [tauto | | | |];
      unfold meetsHardRules; cbn [PASSWORD_CONFIGS ADMIN_PASSWORD_REQUIREMENTS
        CUSTOMER_PASSWORD_REQUIREMENTS DEFAULT_PASSWORD_REQUIREMENTS minLength
        maxLength requireUppercase requireLowercase requireNumbers
        requireSpecialChars preventCommonPasswords];
      rewrite !andb_true_iff; intros H;
      repeat match goal with H : _ /\ _ |- _ => destruct H end;
      repeat split; auto; lia.
  - rewrite !validate_missing by (rewrite passwordMissing_string, Ht; reflexivity).
    cbn. discriminate.
Qed.

Lemma valid_for_any_role_valid_for_customer_witness :
  isValid (validatePasswordStrength (PwString "Xy7!Xy7!Qm2#")
             (explicitOptions (PASSWORD_CONFIGS customer))) = true.
Proof.
  apply (valid_for_any_role_valid_for_customer admin "Xy7!Xy7!Qm2#"). reflexivity.
Defined.

(** X6.  Under a policy that requires the four character classes (the default
    and the two role configurations do), a valid password scores at least
    40: its strength is medium or better. *)
Theorem valid_password_is_at_least_medium (s : string) (options : PartialRequirements) :
  let config := mergeConfig options in
  let r := validatePasswordStrength (PwString s) options in
  requireUppercase config = true -> requireLowercase config = true ->
  requireNumbers config = true -> requireSpecialChars config = true ->
  isValid r = true ->
  40 <= score r /\ 2 <= strengthRank (strength r).
Proof.
  intros config r HU HL HN HS Hv. subst r.
  destruct (Js.truthy s) eqn:Ht;
    [| rewrite validate_missing in Hv
         by (rewrite passwordMissing_string, Ht; reflexivity);
       discriminate Hv].
  rewrite isValid_present in Hv by exact Ht. fold config in Hv.
  unfold meetsHardRules in Hv. rewrite HU, HL, HN, HS in Hv.
  rewrite !andb_true_iff in Hv.
  destruct Hv as ((((((Hmin & _) & Hu) & Hl) & Hn) & Hs) & Hc).
  cbn [implb] in *. apply negb_true_iff in Hc.
  assert (Hscore : 40 <= score (validatePasswordStrength (PwString s) options)).
  { rewrite score_present by exact Ht. fold config.
    unfold hardPoints, classPoints. rewrite HU, HL, HN, HS, Hu, Hl, Hn, Hs, Hc.
    replace (Js.len s <? minLength config) with false by lia.
    pose proof (patternMatches_bounds s). pose proof (bonusPoints_bounds s).
    cbn [andb negb]. lia. }
  split; [exact Hscore |].
  rewrite validate_present in * by exact Ht. cbn [strength score] in *.
  apply (getPasswordStrength_monotone 40) in Hscore. exact Hscore.
Qed.

Lemma valid_password_is_at_least_medium_witness :
  40 <= score (validatePasswordStrength (PwString "Qwe123aaa!Z") noOptions).
Proof.
  apply (valid_password_is_at_least_medium "Qwe123aaa!Z" noOptions);
    reflexivity.
Defined.

(** ** The deny-list *)

Lemma lowerChar_special c : isSpecialChar (Js.lowerChar c) = isSpecialChar c.
Proof. destruct c as [[] [] [] [] [] [] [] []]; vm_compute; reflexivity. Qed.

Lemma toLowerCase_special s :
  REGEX_PATTERNS.specialChars (Js.toLowerCase s) = REGEX_PATTERNS.specialChars s.
Proof.
  unfold REGEX_PATTERNS.specialChars, Js.testClass.
  induction s as [| c s IH]; cbn [Js.toLowerCase Js.chars existsb];
    [reflexivity |].
  now rewrite lowerChar_special, IH.
Qed.

Lemma includes_In arr s : Js.includes arr s = true -> In s arr.
Proof.
  unfold Js.includes. intros H. apply existsb_exists in H as (e & Hin & He).
  apply String.eqb_eq in He. now subst.
Qed.

Lemma common_password_has_no_special s :
  Js.includes COMMON_PASSWORDS (Js.toLowerCase s) = true ->
  REGEX_PATTERNS.specialChars s = false.
Proof.
  intros H. apply includes_In in H. rewrite <- toLowerCase_special.
  assert (Hall : forallb (fun e => negb (REGEX_PATTERNS.specialChars e))
                         COMMON_PASSWORDS = true) by reflexivity.
  rewrite forallb_forall in Hall. specialize (Hall _ H).
  now apply negb_true_iff in Hall.
Qed.

(** X7.  Under a policy that requires a special character the deny-list never
    decides: a password on the list, in any letter case, has no special
    character and is invalid already, so switching
    [preventCommonPasswords] on or off does not change [isValid]. *)
Theorem deny_list_never_decides_validity
  (s : string) (c : PasswordRequirements) (b : bool) :
  requireSpecialChars c = true ->
  let valid p := isValid (validatePasswordStrength (PwString s) (explicitOptions p)) in
  valid (withPreventCommon b c) = valid c
  /\ (Js.includes COMMON_PASSWORDS (Js.toLowerCase s) = true -> valid c = false).
Proof.
  intros HS valid. subst valid. cbv beta.
  destruct (Js.truthy s) eqn:Ht.
  - rewrite !isValid_present by exact Ht. rewrite !mergeConfig_explicit.
    unfold meetsHardRules.
    cbn [withPreventCommon minLength maxLength requireUppercase requireLowercase
         requireNumbers requireSpecialChars preventCommonPasswords].
    rewrite HS.
    destruct (Js.includes COMMON_PASSWORDS (Js.toLowerCase s)) eqn:Hc.
    + rewrite (common_password_has_no_special s Hc). cbn [implb].
      rewrite !andb_false_r. cbn. split; [reflexivity | reflexivity].
    + rewrite !andb_false_r. split; [reflexivity | discriminate].
  - rewrite !validate_missing by (rewrite passwordMissing_string, Ht; reflexivity).
    split; reflexivity.
Qed.

Lemma deny_list_never_decides_validity_witness :
  isValid (validatePasswordStrength (PwString "PassWord123")
             (explicitOptions DEFAULT_PASSWORD_REQUIREMENTS)) = false.
Proof.
  destruct (deny_list_never_decides_validity "PassWord123"
              DEFAULT_PASSWORD_REQUIREMENTS false eq_refl) as [_ H].
  apply H. reflexivity.
Defined.

End PasswordValidatorMore.

(* ===================================================================== *)
(** * Further properties of the password generator *)
(* ===================================================================== *)

Module PasswordGeneratorMore.
Import PasswordGenerator PasswordGeneratorFacts.

(** ** Rejection sampling *)

Lemma rejectionLoop_first_accepted limit n : forall draws,
  match rejectionLoop limit n draws with
  | Returned j rest =>
      exists skipped d,
        draws = skipped ++ d :: rest
        /\ Forall (rejectedBy limit) skipped
        /\ d mod 2 ^ 32 < limit
        /\ j = (d mod 2 ^ 32) mod n
  | Thrown _ => False
  | Waiting => Forall (rejectedBy limit) draws
  end.
Proof.
  induction draws as [| d draws IH]; cbn [rejectionLoop]; [constructor |].
  destruct (Z.geb_spec (d mod 2 ^ 32) limit) as [Hge | Hlt].
  - destruct (rejectionLoop limit n draws) as [j rest | msg |].
    + destruct IH as (skipped & d' & -> & Hs & Hd & Hj).
      exists (d :: skipped), d'.
      split; [reflexivity |]. split; [| split; assumption].
      constructor; [exact Hge | exact Hs].
    + exact IH.
    + constructor; [exact Hge | exact IH].
  - exists [], d.
    split; [reflexivity |]. split; [constructor |]. split; [exact Hlt | reflexivity].
Qed.

(** X8.  [secureRandomInt] throws exactly for a bound that is not positive;
    otherwise it skips the numbers at or above [limit] and returns the
    first one below it, reduced modulo the bound, so the result lies in
    the range [0, maxExclusive); it is still waiting only if every number
    supplied so far was thrown away. *)
Theorem secureRandomInt_first_accepted (maxExclusive : Z) (draws : list Z) :
  (maxExclusive <= 0 ->
   secureRandomInt maxExclusive draws = Thrown "maxExclusive must be > 0")
  /\ (0 < maxExclusive ->
      match secureRandomInt maxExclusive draws with
      | Returned j rest =>
          0 <= j < maxExclusive
          /\ exists skipped d,
               draws = skipped ++ d :: rest
               /\ Forall (rejectedBy (rejectionLimit maxExclusive)) skipped
               /\ d mod 2 ^ 32 < rejectionLimit maxExclusive
               /\ j = (d mod 2 ^ 32) mod maxExclusive
      | Thrown _ => False
      | Waiting => Forall (rejectedBy (rejectionLimit maxExclusive)) draws
      end).
Proof.
  unfold secureRandomInt. split; intros Hn.
  - now replace (maxExclusive <=? 0) with true by lia.
  - replace (maxExclusive <=? 0) with false by lia. cbv zeta.
    fold (rejectionLimit maxExclusive).
    pose proof (rejectionLoop_first_accepted
                  (rejectionLimit maxExclusive) maxExclusive draws) as H.
    destruct (rejectionLoop (rejectionLimit maxExclusive) maxExclusive draws)
      as [j rest | |]; auto.
    split; [| exact H].
    destruct H as (_ & d & _ & _ & _ & ->). apply Z.mod_pos_bound. exact Hn.
Qed.

Lemma secureRandomInt_first_accepted_witness :
  secureRandomInt 26 [4294967295; 27] = Returned 1 [] /\ 0 <= 1 < 26.
Proof.
  split; [reflexivity |].
  pose proof (proj2 (secureRandomInt_first_accepted 26 [4294967295; 27])
                ltac:(lia)) as H.
  change (secureRandomInt 26 [4294967295; 27]) with (@Returned Z 1 []) in H.
  exact (proj1 H).
Defined.

Lemma secureRandomInt_one_draw n x :
  0 < n -> 0 <= x < 2 ^ 32 ->
  secureRandomInt n [x]
  = if x >=? rejectionLimit n then Waiting else Returned (x mod n) [].
Proof.
  intros Hn Hx. unfold secureRandomInt.
  replace (n <=? 0) with false by lia. cbv zeta.
  fold (rejectionLimit n). cbn [rejectionLoop].
  rewrite (Z.mod_small x) by exact Hx. reflexivity.
Qed.

(** X9.  The sampling of [secureRandomInt] is unbiased.  On one 32-bit number
    [x] and a bound [n]: the call returns the residue [r] exactly when
    [x = q * n + r] for some [q] below [2^32 / n], it asks for another
    number exactly when [x] is at or above [2^32 / n * n], and distinct
    pairs of [q] and [r] name distinct numbers.  So every residue below
    [n] is returned for the same count, [2^32 / n], of the 32-bit numbers,
    and the numbers left over, fewer than [n], are the ones thrown away. *)
Theorem rejection_sampling_is_unbiased (n x : Z) :
  0 < n -> 0 <= x < 2 ^ 32 ->
  (forall r, secureRandomInt n [x] = Returned r []
             <-> 0 <= r < n /\ exists q, 0 <= q < 2 ^ 32 / n /\ x = q * n + r)
  /\ (secureRandomInt n [x] = Waiting <-> 2 ^ 32 / n * n <= x)
  /\ (forall q r, 0 <= q < 2 ^ 32 / n -> 0 <= r < n ->
        0 <= q * n + r < 2 ^ 32
        /\ secureRandomInt n [q * n + r] = Returned r [])
  /\ (forall q r q' r', 0 <= r < n -> 0 <= r' < n ->
        q * n + r = q' * n + r' -> q = q' /\ r = r').
Proof.
  intros Hn Hx.
  assert (Hlim : rejectionLimit n = 2 ^ 32 / n * n) by reflexivity.
  pose proof (Z.mul_div_le (2 ^ 32) n Hn) as Hle.
  assert (Hsplit : forall q r, 0 <= q < 2 ^ 32 / n -> 0 <= r < n ->
            0 <= q * n + r < 2 ^ 32 / n * n) by (intros; nia).
  split; [| split; [| split]].
  - intros r. rewrite (secureRandomInt_one_draw n x Hn Hx), Hlim.
    destruct (Z.geb_spec x (2 ^ 32 / n * n)) as [Hge | Hlt]; split.
    + discriminate.
    + intros [Hr (q & Hq & ->)]. specialize (Hsplit q r Hq Hr). lia.
    + intros E. injection E as <-.
      split; [apply Z.mod_pos_bound; exact Hn |].
      exists (x / n). split.
      * split; [apply Z.div_pos; lia | apply Z.div_lt_upper_bound; lia].
      * pose proof (Z.div_mod x n ltac:(lia)). lia.
    + intros [Hr (q & Hq & ->)]. f_equal.
      rewrite Z.add_comm, Z.mod_add by lia. now apply Z.mod_small.
  - rewrite (secureRandomInt_one_draw n x Hn Hx), Hlim.
    destruct (Z.geb_spec x (2 ^ 32 / n * n)) as [Hge | Hlt]; split;
      try discriminate; auto; lia.
  - intros q r Hq Hr. specialize (Hsplit q r Hq Hr).
    split; [lia |].
    rewrite secureRandomInt_one_draw by lia. rewrite Hlim.
    replace (q * n + r >=? 2 ^ 32 / n * n) with false by lia. f_equal.
    rewrite Z.add_comm, Z.mod_add by lia. now apply Z.mod_small.
  - intros q r q' r' Hr Hr' E.
    apply (Z.div_mod_unique n q q' r r'); [left; exact Hr | left; exact Hr' | lia].
Qed.

Lemma rejection_sampling_is_unbiased_witness :
  secureRandomInt 26 [53] = Returned 1 []
  /\ secureRandomInt 26 [4294967295] = Waiting.
Proof.
  split.
  - apply (proj1 (rejection_sampling_is_unbiased 26 53 ltac:(lia) ltac:(lia)) 1).
    split; [lia |]. exists 2. split; [split; [lia | reflexivity] | reflexivity].
  - apply (proj1 (proj2 (rejection_sampling_is_unbiased 26 4294967295
                           ltac:(lia) ltac:(lia)))).
    vm_compute. discriminate.
Defined.

(** ** The shuffle *)

Lemma rejectionLimit_above n : 0 < n <= 2 ^ 31 -> 2 ^ 31 <= rejectionLimit n.
Proof.
  intros Hn. unfold rejectionLimit. change (4294967295 + 1) with (2 ^ 32).
  pose proof (Z.div_mod (2 ^ 32) n ltac:(lia)) as Hd.
  pose proof (Z.mod_pos_bound (2 ^ 32) n ltac:(lia)) as Hm.
  change (2 ^ 32) with 4294967296 in *. change (2 ^ 31) with 2147483648 in *.
  lia.
Qed.

Lemma lowSupply_cons d draws :
  lowSupply (d :: draws) = ((if low d then 1 else 0) + lowSupply draws)%nat.
Proof. unfold lowSupply. cbn [List.filter]. now destruct (low d). Qed.

Lemma rejectionLoop_returns limit n :
  2 ^ 31 <= limit ->
  forall draws k, (S k <= lowSupply draws)%nat ->
    exists j rest, rejectionLoop limit n draws = Returned j rest
                   /\ (k <= lowSupply rest)%nat.
Proof.
  intros Hlimit. induction draws as [| d draws IH]; intros k Hk.
  - cbn in Hk. lia.
  - rewrite lowSupply_cons in Hk. cbn [rejectionLoop].
    destruct (Z.geb_spec (d mod 2 ^ 32) limit) as [Hge | Hlt].
    + assert (E : low d = false) by (unfold low; lia).
      rewrite E in Hk. apply IH. exact Hk.
    + exists ((d mod 2 ^ 32) mod n), draws. split; [reflexivity |].
      destruct (low d); lia.
Qed.

Lemma source_returns cryptoObj n :
  0 < n <= 2 ^ 31 ->
  forall draws k, (S k <= lowSupply draws)%nat ->
    exists j rest, source cryptoObj n draws = Returned j rest
                   /\ (k <= lowSupply rest)%nat /\ 0 <= j < n.
Proof.
  intros Hn draws k Hk.
  assert (H : exists j rest, source cryptoObj n draws = Returned j rest
                             /\ (k <= lowSupply rest)%nat).
  { destruct cryptoObj; cbn [source].
    - unfold secureRandomInt. replace (n <=? 0) with false by lia. cbv zeta.
      fold (rejectionLimit n).
      apply rejectionLoop_returns; [now apply rejectionLimit_above | exact Hk].
    - destruct draws as [| d draws]; [cbn in Hk; lia |].
      rewrite lowSupply_cons in Hk.
      eexists _, draws. split; [reflexivity |]. destruct (low d); lia. }
  destruct H as (j & rest & E & Hrest). exists j, rest.
  split; [exact E |]. split; [exact Hrest |].
  pose proof (source_safe cryptoObj n ltac:(lia) draws) as Hs.
  now rewrite E in Hs.
Qed.

Lemma fisherYates_returns cryptoObj : forall i arr draws k,
  (i < length arr)%nat -> Z.of_nat i + 1 <= 2 ^ 31 ->
  (i + k <= lowSupply draws)%nat ->
  exists out rest,
    fisherYates (source cryptoObj) i arr draws = Returned out rest
    /\ out ≡ₚ arr /\ (k <= lowSupply rest)%nat.
Proof.
  induction i as [| i IH]; intros arr draws k Hi Hb Hk.
  - exists arr, draws. split; [reflexivity |]. split; [reflexivity | exact Hk].
  - cbn [fisherYates]. unfold bind.
    destruct (source_returns cryptoObj (Z.of_nat (S i) + 1) ltac:(lia)
                draws (i + k)%nat ltac:(lia)) as (j & rest & E & Hrest & Hj).
    rewrite E.
    assert (Hperm : swap (Z.of_nat (S i)) j arr ≡ₚ arr).
    { rewrite <- (Z2Nat.id j) by lia. apply swap_permutation; lia. }
    destruct (IH (swap (Z.of_nat (S i)) j arr) rest k) as (out & rest' & E' & P & Hk').
    + rewrite (Permutation_length Hperm). lia.
    + lia.
    + exact Hrest.
    + exists out, rest'. split; [exact E' |]. split; [| exact Hk'].
      now rewrite P.
Qed.

(** X10.  Both shuffles return a rearrangement of the array they are given: they
    never throw, whatever they return holds the same elements (none lost,
    duplicated or invented), and they do return, for an array of up to
    [2^31] elements, once the source has supplied one number below [2^31]
    for each element but the first (numbers that the rejection loop
    accepts for every bound up to [2^31]); the numbers not needed are
    left for what follows.  An array of at most one element comes back
    unchanged without a number being drawn. *)
Theorem shuffle_is_a_permutation
  (cryptoObj : bool) (arr : list (option ascii)) (draws : list Z) :
  match fisherYates (source cryptoObj) (length arr - 1) arr draws with
  | Returned out _ => out ≡ₚ arr
  | Thrown _ => False
  | Waiting => True
  end
  /\ (Z.of_nat (length arr) <= 2 ^ 31 ->
      (length arr - 1 <= lowSupply draws)%nat ->
      exists out rest,
        fisherYates (source cryptoObj) (length arr - 1) arr draws
        = Returned out rest
        /\ out ≡ₚ arr
        /\ (lowSupply draws - (length arr - 1) <= lowSupply rest)%nat)
  /\ secureShuffle arr = fisherYates (source true) (length arr - 1) arr
  /\ ((length arr <= 1)%nat ->
      fisherYates (source cryptoObj) (length arr - 1) arr draws
      = Returned arr draws).
Proof.
  split; [| split; [| split]].
  - destruct arr as [| a arr].
    + cbn. reflexivity.
    + apply (fisherYates_safe (source cryptoObj) (source_safe cryptoObj)).
      cbn [length]. lia.
  - intros Hlen Hsupply. destruct arr as [| a arr].
    + exists [], draws. split; [reflexivity |]. split; [reflexivity | cbn; lia].
    + apply fisherYates_returns; cbn [length] in *; lia.
  - reflexivity.
  - intros Hlen. replace (length arr - 1)%nat with 0%nat by lia. reflexivity.
Qed.

Lemma shuffle_is_a_permutation_witness :
  exists out rest,
    secureShuffle [Some "a"%char; Some "b"%char; Some "c"%char]
                  [5; 4294967295; 7; 9]
    = Returned out rest
    /\ out ≡ₚ [Some "a"%char; Some "b"%char; Some "c"%char]
    /\ (1 <= lowSupply rest)%nat.
Proof.
  destruct (shuffle_is_a_permutation true
              [Some "a"%char; Some "b"%char; Some "c"%char]
              [5; 4294967295; 7; 9]) as (_ & H & _).
  destruct H as (out & rest & E & P & Hrest);
    [cbn; lia | vm_compute; lia |].
  exists out, rest. split; [exact E |]. split; [exact P | exact Hrest].
Defined.

(** ** What the generated password is made of *)

Lemma pool_in_allChars pool oc :
  forallb (fun c => existsb (Ascii.eqb c) (Js.chars allChars)) (Js.chars pool) = true ->
  fromPool pool oc -> fromPool allChars oc.
Proof.
  intros Hsub (c & -> & Hin). exists c. split; [reflexivity |].
  rewrite forallb_forall in Hsub. specialize (Hsub c Hin).
  apply existsb_exists in Hsub as (c' & Hin' & E).
  apply Ascii.eqb_eq in E. now subst.
Qed.

Lemma fillLoop_pool cryptoObj fuel : forall chars,
  Forall (fromPool allChars) chars ->
  safe (fillLoop cryptoObj fuel chars) (Forall (fromPool allChars)).
Proof.
  induction fuel as [| fuel IH]; intros chars Hall; cbn [fillLoop].
  - now apply safe_ret.
  - destruct (Z.of_nat (length chars) <? 12); [| now apply safe_ret].
    eapply safe_bind; [apply (pick_safe cryptoObj allChars); reflexivity |].
    intros oc Hoc. apply IH. apply Forall_app. split; [exact Hall |].
    constructor; [exact Hoc | constructor].
Qed.

Lemma joinArray_pool arr :
  Forall (fromPool allChars) arr ->
  Forall (fun c => In c (Js.chars allChars)) (Js.chars (joinArray arr)).
Proof.
  induction 1 as [| o arr (c & -> & Hin) _ IH]; cbn; [constructor |].
  constructor; [exact Hin | exact IH].
Qed.

Lemma generateSecurePassword_pool cryptoObj :
  safe (generateSecurePassword cryptoObj)
       (fun pw => Forall (fun c => In c (Js.chars allChars)) (Js.chars pw)).
Proof.
  unfold generateSecurePassword.
  eapply safe_bind; [apply pick_safe; reflexivity |]. intros o1 H1.
  eapply safe_bind; [apply pick_safe; reflexivity |]. intros o2 H2.
  eapply safe_bind; [apply pick_safe; reflexivity |]. intros o3 H3.
  eapply safe_bind; [apply pick_safe; reflexivity |]. intros o4 H4.
  apply pool_in_allChars in H1; [| reflexivity].
  apply pool_in_allChars in H2; [| reflexivity].
  apply pool_in_allChars in H3; [| reflexivity].
  apply pool_in_allChars in H4; [| reflexivity].
  eapply safe_bind.
  { apply fillLoop_pool. repeat (constructor; [assumption |]). constructor. }
  intros chars Hchars. rewrite shuffle_eq.
  destruct chars as [| ch chars].
  { cbn. intros draws. cbn. constructor. }
  eapply safe_bind.
  { apply fisherYates_safe; [apply source_safe | cbn [length]; lia]. }
  intros shuffled Hperm. apply safe_ret. apply joinArray_pool.
  eapply Permutation_Forall; [symmetry; exact Hperm | exact Hchars].
Qed.

Lemma chars_nonempty s : String.length s = 12%nat -> exists c t, s = String c t.
Proof. destruct s as [| c t]; [discriminate | eauto]. Qed.

(** X11.  Every character of a generated password comes from the pool of 87
    characters; none is white space, so the validation hook never treats a
    generated password as blank. *)
Theorem generated_password_stays_in_pool
  (cryptoObj : bool) (draws : list Z) (pw : string) (rest : list Z) :
  generateSecurePassword cryptoObj draws = Returned pw rest ->
  Forall (fun c => In c (Js.chars allChars)) (Js.chars pw)
  /\ forallb (fun c => negb (Js.isWhiteSpace c)) (Js.chars pw) = true
  /\ PasswordHook.isBlank pw = false.
Proof.
  intros E.
  pose proof (safe_returned _ _ _ _ _ (generateSecurePassword_pool cryptoObj) E)
    as Hpool.
  pose proof (safe_returned _ _ _ _ _ (generateSecurePassword_safe cryptoObj) E)
    as (Hlen & _).
  assert (Hws : forallb (fun c => negb (Js.isWhiteSpace c)) (Js.chars pw) = true).
  { apply forallb_forall. intros c Hc.
    rewrite List.Forall_forall in Hpool. specialize (Hpool c Hc).
    assert (Hall : forallb (fun c => negb (Js.isWhiteSpace c))
                           (Js.chars allChars) = true) by reflexivity.
    rewrite forallb_forall in Hall. now apply Hall. }
  split; [exact Hpool |]. split; [exact Hws |].
  destruct (PasswordHook.isBlank pw) eqn:Hb; [| reflexivity].
  apply PasswordHookFacts.isBlank_iff in Hb.
  destruct (chars_nonempty pw Hlen) as (c & t & ->).
  cbn in Hws, Hb. apply andb_true_iff in Hws as [Hc _].
  apply andb_true_iff in Hb as [Hc' _]. rewrite Hc' in Hc. discriminate Hc.
Qed.

Lemma generated_password_stays_in_pool_witness :
  PasswordHook.isBlank "a0!AAAAAAAAA" = false.
Proof.
  apply (generated_password_stays_in_pool true (repeat 0 23) "a0!AAAAAAAAA" []).
  reflexivity.
Defined.

(** ** The generator against the evaluator *)

Lemma toLowerCase_length s : String.length (Js.toLowerCase s) = String.length s.
Proof. induction s as [| c s IH]; cbn; [reflexivity | now rewrite IH]. Qed.

Lemma twelve_characters_not_common s :
  String.length s = 12%nat ->
  Js.includes PasswordValidator.COMMON_PASSWORDS (Js.toLowerCase s) = false.
Proof.
  intros Hlen.
  destruct (Js.includes PasswordValidator.COMMON_PASSWORDS (Js.toLowerCase s))
    eqn:E; [| reflexivity].
  apply PasswordValidatorMore.includes_In in E.
  assert (Hall : forallb (fun e => negb (Nat.eqb (String.length e) 12))
                         PasswordValidator.COMMON_PASSWORDS = true) by reflexivity.
  rewrite forallb_forall in Hall. specialize (Hall _ E).
  rewrite toLowerCase_length, Hlen in Hall. discriminate Hall.
Qed.

Lemma special_in_pool arr :
  Forall (fun c => In c (Js.chars allChars)) arr ->
  existsb PasswordValidator.isSpecialChar arr = existsb isSharedSpecial arr.
Proof.
  assert (Hall : forallb (fun c => Bool.eqb (PasswordValidator.isSpecialChar c)
                                            (isSharedSpecial c))
                         (Js.chars allChars) = true) by reflexivity.
  rewrite forallb_forall in Hall.
  induction 1 as [| c arr Hc _ IH]; cbn; [reflexivity |].
  rewrite IH. f_equal. apply Bool.eqb_prop. now apply Hall.
Qed.

(** X12.  Against every policy whose length bounds admit 12 characters (the
    default and all role configurations do), a generated password passes
    the length, uppercase, lowercase, number and deny-list rules; it is
    valid exactly when the policy does not require a special character or
    the password holds a special character other than the semicolon. *)
Theorem generated_password_against_policy
  (cryptoObj : bool) (draws : list Z) (pw : string) (rest : list Z)
  (c : PasswordValidator.PasswordRequirements) :
  generateSecurePassword cryptoObj draws = Returned pw rest ->
  PasswordValidator.minLength c <= 12 <= PasswordValidator.maxLength c ->
  PasswordValidator.isValid
    (PasswordValidator.validatePasswordStrength
       (PasswordValidator.PwString pw) (PasswordValidator.explicitOptions c))
  = implb (PasswordValidator.requireSpecialChars c)
          (existsb isSharedSpecial (Js.chars pw)).
Proof.
  intros E Hc.
  pose proof (safe_returned _ _ _ _ _ (generateSecurePassword_pool cryptoObj) E)
    as Hpool.
  pose proof (safe_returned _ _ _ _ _ (generateSecurePassword_safe cryptoObj) E)
    as (Hlen & Hu & Hl & Hd & _).
  destruct (chars_nonempty pw Hlen) as (ch & t & Hpw).
  rewrite PasswordValidatorFacts.isValid_present by (rewrite Hpw; reflexivity).
  rewrite PasswordValidatorMore.mergeConfig_explicit.
  unfold PasswordValidator.meetsHardRules.
  unfold PasswordValidator.REGEX_PATTERNS.uppercase,
    PasswordValidator.REGEX_PATTERNS.lowercase,
    PasswordValidator.REGEX_PATTERNS.numbers,
    PasswordValidator.REGEX_PATTERNS.specialChars.
  change (Js.testClass (Js.between 65 90) pw) with (Js.testClass isUpper pw).
  change (Js.testClass (Js.between 97 122) pw) with (Js.testClass isLower pw).
  change (Js.testClass (Js.between 48 57) pw) with (Js.testClass isDigit pw).
  rewrite Hu, Hl, Hd, (twelve_characters_not_common pw Hlen).
  unfold Js.testClass at 1. rewrite (special_in_pool _ Hpool).
  unfold Js.len. rewrite Hlen.
  change (Z.of_nat 12) with 12.
  rewrite (proj2 (Z.geb_le 12 (PasswordValidator.minLength c)) (proj1 Hc)).
  rewrite (proj2 (Z.leb_le 12 (PasswordValidator.maxLength c)) (proj2 Hc)).
  destruct (PasswordValidator.requireUppercase c),
    (PasswordValidator.requireLowercase c), (PasswordValidator.requireNumbers c),
    (PasswordValidator.preventCommonPasswords c); cbn;
    now rewrite ?andb_true_r.
Qed.

Lemma generated_password_against_policy_witness :
  PasswordValidator.isValid
    (PasswordValidator.validatePasswordStrength
       (PasswordValidator.PwString "H3LKBJFMIG;c")
       (PasswordValidator.explicitOptions
          PasswordValidator.DEFAULT_PASSWORD_REQUIREMENTS))
  = false.
Proof.
  rewrite (generated_password_against_policy true
             [1; 2; 3; 18; 5; 6; 7; 8; 9; 10; 11; 12; 13; 14; 15; 16; 17;
              18; 19; 20; 21; 22; 23]
             "H3LKBJFMIG;c" [] PasswordValidator.DEFAULT_PASSWORD_REQUIREMENTS
             eq_refl).
  - reflexivity.
  - cbn. lia.
Defined.

End PasswordGeneratorMore.

(* ===================================================================== *)
(** * Further properties of the validation, confirmation and form hooks *)
(* ===================================================================== *)

Module PasswordHookMore.
Import PasswordValidator PasswordHook PasswordForm.

(** ** The debounce *)

Lemma orZero_id n : orZero (Some n) = n.
Proof. unfold orZero. destruct (Z.eqb_spec n 0); congruence. Qed.

(** X13.  Once the effect has run for a password that is not blank and the delay
    has elapsed, the hook reports exactly the verdict of the evaluator for
    that password and the resolved options, whatever it held before. *)
Theorem hook_reports_evaluator_after_delay
  (password : string) (options : HookOptions) (st : HookState) :
  isBlank password = false ->
  let result := validatePasswordStrength (PwString password) (resolvedOptions options) in
  let st' := run [EffectRuns password options; TimeoutElapses] st in
  validation st' = Some result
  /\ isValidating st' = false
  /\ timeout st' = None
  /\ r_isValid (hookReturn st') = isValid result
  /\ r_score (hookReturn st') = score result
  /\ r_strength (hookReturn st') = strength result
  /\ r_feedback (hookReturn st') = feedback result
  /\ r_requirements (hookReturn st') = requirements result
  /\ r_hasError (hookReturn st') = negb (isValid result).
Proof.
  intros Hb result st'. subst st'. cbn [run fold_left step].
  unfold effect, timeoutElapsed. rewrite Hb. cbn.
  fold result. rewrite orb_false_r.
  repeat split. apply orZero_id.
Qed.

Lemma hook_reports_evaluator_after_delay_witness :
  r_isValid (hookReturn (run [EffectRuns "Xy7!Xy7!Q" (OptionsUserType customer);
                              TimeoutElapses] initialState)) = true.
Proof.
  destruct (hook_reports_evaluator_after_delay "Xy7!Xy7!Q"
              (OptionsUserType customer) initialState eq_refl)
    as (_ & _ & _ & H & _).
  rewrite H. reflexivity.
Defined.

(** X14.  While the delay runs the hook keeps showing the validation it held
    before, with [isValidating] up; and a password that is replaced before
    the delay elapses is never handed to the evaluator: only the latest
    one is, and only if it is not blank. *)
Theorem superseded_password_is_never_evaluated
  (first second : string) (o1 o2 : HookOptions) (st : HookState) :
  (isBlank first = false ->
   validation (step st (EffectRuns first o1)) = validation st
   /\ isValidating (step st (EffectRuns first o1)) = true
   /\ evaluated (step st (EffectRuns first o1)) = evaluated st)
  /\ evaluated (run [EffectRuns first o1; EffectRuns second o2; TimeoutElapses] st)
     = evaluated st ++ (if isBlank second then [] else [second]).
Proof.
  split.
  - intros Hb. cbn [step]. unfold effect. rewrite Hb. repeat split.
  - cbn [run fold_left step]. unfold effect, timeoutElapsed.
    destruct (isBlank first), (isBlank second); cbn;
      now rewrite ?app_nil_r.
Qed.

Lemma superseded_password_is_never_evaluated_witness :
  evaluated (run [EffectRuns "Abc" (OptionsUserType admin);
                  EffectRuns "Abcd" (OptionsUserType admin);
                  TimeoutElapses] initialState) = ["Abcd"].
Proof.
  destruct (superseded_password_is_never_evaluated "Abc" "Abcd"
              (OptionsUserType admin) (OptionsUserType admin) initialState)
    as [H1 H2].
  pose proof (H1 eq_refl) as _. rewrite H2. reflexivity.
Defined.

(** ** The confirmation *)

Lemma truthy_len s : Js.truthy s = (Js.len s >? 0).
Proof. destruct s; [reflexivity |]. unfold Js.len. cbn. reflexivity. Qed.

(** X15.  After its effect has run for the two fields, the confirmation is in
    error exactly when both fields are filled and differ; while either
    field is empty no mismatch is reported and the message is empty. *)
Theorem confirmation_error_iff_filled_and_different
  (password confirmPassword : string) :
  let c := confirmationReturn confirmPassword
             (confirmationEffect password confirmPassword) in
  (c_hasError c = true
   <-> password <> EmptyString /\ confirmPassword <> EmptyString
       /\ password <> confirmPassword)
  /\ (c_isValid c = negb (c_hasError c))
  /\ (password = EmptyString \/ confirmPassword = EmptyString ->
      c_isValid c = true /\ c_message c = EmptyString)
  /\ (c_message c = "Passwords match"
      <-> password <> EmptyString /\ password = confirmPassword).
Proof.
  intros c. subst c. unfold confirmationReturn, confirmationEffect.
  cbn [c_hasError c_isValid c_message].
  rewrite <- truthy_len.
  destruct password as [| a p], confirmPassword as [| b q];
    cbn [Js.truthy negb orb andb cv_isValid cv_message];
    try (destruct (String.eqb_spec (String a p) (String b q)) as [E | E];
         cbn [negb andb cv_isValid cv_message]);
    (split; [| split; [reflexivity | split]]);
    try (split; intros; try discriminate; try tauto);
    intuition (try discriminate; try congruence).
Qed.

Lemma confirmation_error_iff_filled_and_different_witness :
  c_isValid (confirmationReturn "abc" (confirmationEffect EmptyString "abc")) = true.
Proof.
  destruct (confirmation_error_iff_filled_and_different EmptyString "abc")
    as (_ & _ & H & _).
  apply H. left. reflexivity.
Defined.

(** ** The form *)

Lemma fromEvaluator_initial : fromEvaluator initialState.
Proof. exact I. Qed.

Lemma fromEvaluator_step st ev : fromEvaluator st -> fromEvaluator (step st ev).
Proof.
  unfold fromEvaluator. intros H. destruct ev as [password options |]; cbn [step].
  - unfold effect. destruct (isBlank password); cbn; [exact I | exact H].
  - unfold timeoutElapsed. destruct (timeout st) as [[pw o] |]; [| exact H].
    cbn. eauto.
Qed.

Lemma fromEvaluator_formRun evs : forall st,
  fromEvaluator (f_validation st) ->
  fromEvaluator (f_validation (formRun evs st)).
Proof.
  unfold formRun. induction evs as [| ev evs IH]; intros st H; cbn; [exact H |].
  apply IH. destruct ev; cbn [formStep f_validation]; auto.
  - now apply (fromEvaluator_step _ (EffectRuns password options)).
  - now apply (fromEvaluator_step _ TimeoutElapses).
Qed.

(** X16.  In every state the form reaches and for all props: the list of form
    errors is empty exactly when [hasAnyErrors] is false, and a form that
    can be submitted has no error, both fields filled and a password that
    the stored validation accepts. *)
Theorem form_errors_agree_with_flags
  (history : list FormEvent) (password confirmPassword : string) :
  let form := formReturn password confirmPassword (formRun history initialForm) in
  (p_getFormErrors form = [] <-> p_hasAnyErrors form = false)
  /\ (p_canSubmit form = true ->
      p_isFormValid form = true
      /\ p_hasAnyErrors form = false
      /\ p_getFormErrors form = []
      /\ password <> EmptyString /\ confirmPassword <> EmptyString
      /\ d_isPasswordValid (p_getSubmissionData form) = true).
Proof.
  intros form.
  pose proof (fromEvaluator_formRun history initialForm fromEvaluator_initial)
    as Hev.
  subst form. set (st := formRun history initialForm) in *.
  unfold formReturn. cbv zeta.
  cbn [p_getFormErrors p_hasAnyErrors p_canSubmit p_isFormValid
       p_getSubmissionData d_isPasswordValid].
  assert (Hfb : r_hasError (hookReturn (f_validation st)) = true ->
                r_feedback (hookReturn (f_validation st)) <> []).
  { unfold hookReturn, fromEvaluator in *. cbn.
    destruct (validation (f_validation st)) as [r |]; [| discriminate].
    destruct Hev as (pw & o & ->). intros _. cbn.
    apply PasswordValidatorMore.feedback_never_empty. }
  split.
  - destruct (r_hasError (hookReturn (f_validation st))) eqn:Hh.
    + specialize (Hfb eq_refl). cbn [orb]. split; [| discriminate].
      intros E. apply app_eq_nil in E as [E _].
      destruct (r_feedback (hookReturn (f_validation st)));
        [congruence | discriminate E].
    + cbn [orb app].
      destruct (c_hasError (confirmationReturn confirmPassword (f_confirmation st)));
        split; congruence.
  - rewrite !andb_true_iff, <- !truthy_len. intros [[[Hv Hc] Hp] Hq].
    assert (Hnoerr : r_hasError (hookReturn (f_validation st)) = false).
    { unfold hookReturn in *. cbn in *.
      destruct (validation (f_validation st)) as [r |]; [| reflexivity].
      cbn in Hv. rewrite orb_false_r in Hv. now rewrite Hv. }
    assert (Hnoerr' :
      c_hasError (confirmationReturn confirmPassword (f_confirmation st)) = false).
    { unfold confirmationReturn in *. cbn in *. now rewrite Hc. }
    rewrite Hnoerr, Hnoerr', Hv, Hc.
    repeat split; try reflexivity.
    + intros ->. discriminate Hp.
    + intros ->. discriminate Hq.
Qed.

Lemma form_errors_agree_with_flags_witness :
  p_getFormErrors
    (formReturn "Xy7!Xy7!Q" "Xy7!Xy7!Q"
       (formRun [ValidationEffect "Xy7!Xy7!Q" (OptionsUserType customer);
                 ConfirmationEffect "Xy7!Xy7!Q" "Xy7!Xy7!Q"; Timeout]
                initialForm)) = [].
Proof.
  destruct (form_errors_agree_with_flags
              [ValidationEffect "Xy7!Xy7!Q" (OptionsUserType customer);
               ConfirmationEffect "Xy7!Xy7!Q" "Xy7!Xy7!Q"; Timeout]
              "Xy7!Xy7!Q" "Xy7!Xy7!Q") as [_ H].
  destruct (H eq_refl) as (_ & _ & E & _). exact E.
Defined.

(** X17.  Once both effects have run for the current props and the delay has
    elapsed, the form can be submitted exactly when the password is not
    blank, the evaluator accepts it under the resolved options, and the
    confirmation equals it. *)
Theorem settled_form_can_submit_iff
  (password confirmPassword : string) (options : HookOptions) (st : FormState) :
  let st' := formRun [ValidationEffect password options;
                      ConfirmationEffect password confirmPassword;
                      Timeout] st in
  p_canSubmit (formReturn password confirmPassword st') = true
  <-> isBlank password = false
      /\ isValid (validatePasswordStrength (PwString password)
                    (resolvedOptions options)) = true
      /\ confirmPassword = password.
Proof.
  intros st'. subst st'. cbn [formRun fold_left formStep f_validation f_confirmation].
  unfold formReturn. cbv zeta. cbn [p_canSubmit f_validation f_confirmation].
  rewrite <- !truthy_len.
  unfold effect, timeoutElapsed. destruct (isBlank password) eqn:Hb.
  - cbn. split; [discriminate | intros [H _]; discriminate H].
  - cbn. rewrite orb_false_r.
    assert (Hp : Js.truthy password = true).
    { unfold isBlank in Hb. apply orb_false_iff in Hb as [Hb _].
      now apply negb_false_iff in Hb. }
    unfold confirmationEffect. rewrite Hp. cbn [negb orb].
    destruct confirmPassword as [| b q].
    + cbn. rewrite !andb_false_r. split; [discriminate |].
      intros (_ & _ & E). rewrite <- E in Hp. discriminate Hp.
    + cbn [Js.truthy negb cv_isValid]. rewrite !andb_true_r.
      destruct (String.eqb_spec password (String b q)) as [E | E].
      * rewrite andb_true_r. split; [intros H; repeat split; auto | tauto].
      * rewrite andb_false_r. split; [discriminate |].
        intros (_ & _ & E'). now destruct E.
Qed.

End PasswordHookMore.

(* ===================================================================== *)
(** * Further properties of the authenticated request pipeline *)
(* ===================================================================== *)

Module AxiosClientMore.
Import AxiosClient AxiosClientFacts.

Section More.
Variable B : TokenAccess.
Implicit Types (st : Pipeline B) (error : AxiosError) (r : Request).

(** ** Reachable states *)

Lemma held_retried_step st ev :
  Forall (fun r => _retry r = true) (held st) ->
  Forall (fun r => _retry r = true) (held (fst (step B st ev))).
Proof.
  unfold held. intros H. apply Forall_app in H as [Hq Ha].
  destruct ev as [config | error | n result]; cbn [step fst].
  - apply Forall_app. now split.
  - unfold onResponseError.
    destruct (statusIsNot401 error || _retry (config error));
      [apply Forall_app; now split |].
    destruct (isRefreshing st); cbn [fst pendingQueue awaiting];
      apply Forall_app; split; auto; apply Forall_app; split; auto;
      repeat constructor.
  - destruct (awaiting st !! n) as [req |]; [| apply Forall_app; now split].
    destruct result; cbn; now apply Forall_delete.
Qed.

Lemma held_retried_run evs : forall st,
  Forall (fun r => _retry r = true) (held st) ->
  Forall (fun r => _retry r = true) (held (fst (run B st evs))).
Proof.
  induction evs as [| ev evs IH]; intros st H; cbn [run]; [exact H |].
  pose proof (held_retried_step st ev H) as Hstep.
  destruct (step B st ev) as [st1 a1]. cbn [fst] in Hstep.
  specialize (IH st1 Hstep). destruct (run B st1 evs) as [st2 a2]. exact IH.
Qed.

(** X18.  In every state the pipeline reaches, whatever the events: at most one
    refresh is in flight, the flag [isRefreshing] is up exactly while one
    is, the queue is empty while the flag is down, and every request that
    is queued or waits for the refresh is marked as retried, so none of
    them can start a refresh again. *)
Theorem reachable_states_are_single_flight (s : Store B) (evs : list Event) :
  let st := fst (run B (initial B s) evs) in
  (refreshesInFlight B st <= 1)%nat
  /\ (isRefreshing st = true <-> refreshesInFlight B st = 1%nat)
  /\ (isRefreshing st = false -> pendingQueue st = [])
  /\ Forall (fun r => _retry r = true) (held st).
Proof.
  intros st. subst st.
  pose proof (coherent_run B evs _ (coherent_initial B s)) as Hc.
  pose proof (held_retried_run evs (initial B s) ltac:(constructor)) as Hr.
  set (st := fst (run B (initial B s) evs)) in *.
  unfold refreshesInFlight in *.
  destruct Hc as [[Hflag Hone] | (Hflag & Hq & Ha)].
  - unfold refreshesInFlight in Hone. rewrite Hone, Hflag.
    repeat split; auto; try lia; discriminate.
  - rewrite Ha, Hflag. cbn [length].
    repeat split; auto; try lia; discriminate.
Qed.

(** ** Every request is answered once *)

Lemma answers_app a b : answers (a ++ b) = (answers a + answers b)%nat.
Proof. unfold answers. now rewrite List.filter_app, length_app. Qed.

Lemma settleEntry_answers st (error : option JsError) token q :
  answers (settleEntry B st error token q) = 1%nat.
Proof.
  unfold settleEntry. destruct error; [reflexivity |].
  destruct token as [t |]; [| reflexivity]. destruct (Js.truthy t); reflexivity.
Qed.

Lemma processQueue_answers st (error : option JsError) token :
  answers (snd (processQueue B error token st)) = length (pendingQueue st).
Proof.
  unfold processQueue. cbn [snd].
  induction (pendingQueue st) as [| q l IH]; cbn [flat_map length];
    [reflexivity |].
  now rewrite answers_app, settleEntry_answers, IH.
Qed.

Lemma step_answers st ev :
  (answers (snd (step B st ev)) + length (held (fst (step B st ev))))%nat
  = (entered [ev] + length (held st))%nat.
Proof.
  unfold held. destruct ev as [config | error | n result]; cbn [step].
  - reflexivity.
  - unfold onResponseError.
    destruct (statusIsNot401 error || _retry (config error)); [reflexivity |].
    destruct (isRefreshing st); cbn; rewrite !length_app; cbn; lia.
  - destruct (awaiting st !! n) as [req |] eqn:E; [| reflexivity].
    assert (Hlen : length (awaiting st) = S (length (delete n (awaiting st)))).
    { rewrite length_delete by eauto. apply lookup_lt_Some in E. lia. }
    unfold onRefreshSettled. destruct result as [t | e].
    + pose proof (processQueue_answers
        {| store := setAccessToken B (Some t) (store st);
           isRefreshing := isRefreshing st; pendingQueue := pendingQueue st;
           awaiting := delete n (awaiting st) |} None (Some t)) as Hp.
      destruct (processQueue B None (Some t) _) as [st2 queued] eqn:Ep.
      unfold processQueue in Ep. injection Ep as <- <-.
      cbn [snd fst pendingQueue awaiting] in *.
      rewrite answers_app, Hp, !length_app, Hlen. cbn. lia.
    + pose proof (processQueue_answers
        {| store := store st;
           isRefreshing := isRefreshing st; pendingQueue := pendingQueue st;
           awaiting := delete n (awaiting st) |} (Some e) None) as Hp.
      destruct (processQueue B (Some e) None _) as [st2 queued] eqn:Ep.
      unfold processQueue in Ep. injection Ep as <- <-.
      cbn [snd fst pendingQueue awaiting] in *.
      rewrite answers_app, Hp, !length_app, Hlen. cbn. lia.
Qed.

Lemma entered_cons ev evs : entered (ev :: evs) = (entered [ev] + entered evs)%nat.
Proof. unfold entered. cbn. destruct ev; cbn; lia. Qed.

Lemma run_answers evs : forall st,
  (answers (snd (run B st evs)) + length (held (fst (run B st evs))))%nat
  = (entered evs + length (held st))%nat.
Proof.
  induction evs as [| ev evs IH]; intros st; cbn [run]; [reflexivity |].
  pose proof (step_answers st ev) as Hstep.
  destruct (step B st ev) as [st1 a1]. cbn [fst snd] in Hstep.
  specialize (IH st1). destruct (run B st1 evs) as [st2 a2].
  cbn [fst snd] in *. rewrite answers_app, entered_cons. lia.
Qed.

(** The same account kept request by request, each named by its [url]. *)

Lemma answered_app a b : answered (a ++ b) = answered a ++ answered b.
Proof. unfold answered. apply flat_map_app. Qed.

Lemma arrivals_cons ev evs : arrivals (ev :: evs) = arrivalUrl ev ++ arrivals evs.
Proof. reflexivity. Qed.

Lemma requestInterceptor_url st r : url (requestInterceptor B st r) = url r.
Proof.
  unfold requestInterceptor.
  destruct (getAccessToken B (store st)) as [t |]; [| reflexivity].
  destruct (Js.truthy t); reflexivity.
Qed.

Lemma settleEntry_answered st (error : option JsError) token q :
  answered (settleEntry B st error token q) = [url q].
Proof.
  unfold settleEntry. destruct error; [reflexivity |].
  destruct token as [t |]; [| reflexivity].
  destruct (Js.truthy t); [| reflexivity].
  unfold entryResolve, http. cbn. now rewrite requestInterceptor_url.
Qed.

Lemma processQueue_answered st (error : option JsError) token :
  answered (snd (processQueue B error token st)) = map url (pendingQueue st).
Proof.
  unfold processQueue. cbn [snd].
  induction (pendingQueue st) as [| q l IH]; [reflexivity |].
  cbn [flat_map map]. now rewrite answered_app, settleEntry_answered, IH.
Qed.

Lemma onRefreshSettled_answered req result st :
  answered (snd (onRefreshSettled B req result st))
  = map url (pendingQueue st) ++ [url req]
  /\ held (fst (onRefreshSettled B req result st)) = awaiting st.
Proof.
  unfold onRefreshSettled. destruct result as [t | e].
  - pose proof (processQueue_answered
      {| store := setAccessToken B (Some t) (store st);
         isRefreshing := isRefreshing st; pendingQueue := pendingQueue st;
         awaiting := awaiting st |} None (Some t)) as Hp.
    destruct (processQueue B None (Some t) _) as [st2 queued] eqn:Ep.
    unfold processQueue in Ep. injection Ep as <- <-.
    cbn [snd fst pendingQueue awaiting held] in *.
    rewrite answered_app, Hp. split; [| reflexivity].
    f_equal. unfold http. cbn. now rewrite requestInterceptor_url.
  - pose proof (processQueue_answered st (Some e) None) as Hp.
    destruct (processQueue B (Some e) None st) as [st2 queued] eqn:Ep.
    unfold processQueue in Ep. injection Ep as <- <-.
    cbn [snd fst pendingQueue awaiting held] in *.
    rewrite answered_app, Hp. split; reflexivity.
Qed.

Lemma step_answered st ev :
  answered (snd (step B st ev)) ++ map url (held (fst (step B st ev)))
  ≡ₚ map url (held st) ++ arrivalUrl ev.
Proof.
  destruct ev as [config | error | n result]; cbn [step arrivalUrl].
  - cbn [http snd fst answered flat_map answeredUrl app].
    rewrite requestInterceptor_url.
    apply (Permutation_app_comm [url config]).
  - unfold onResponseError.
    destruct (statusIsNot401 error || _retry (config error)).
    + cbn [snd fst answered flat_map answeredUrl app].
      apply (Permutation_app_comm [url (config error)]).
    + destruct (isRefreshing st); unfold held;
        cbn [snd fst answered flat_map answeredUrl app pendingQueue awaiting];
        rewrite !map_app; cbn [map markRetried url].
      * rewrite <- !app_assoc. apply Permutation_app_head.
        apply (Permutation_app_comm [url (config error)]).
      * now rewrite <- !app_assoc.
  - destruct (awaiting st !! n) as [req |] eqn:E.
    + destruct (onRefreshSettled_answered req result
        {| store := store st; isRefreshing := isRefreshing st;
           pendingQueue := pendingQueue st;
           awaiting := delete n (awaiting st) |}) as [Ha Hh].
      rewrite Ha, Hh. cbn [pendingQueue awaiting]. rewrite app_nil_r.
      unfold held. rewrite map_app, <- !app_assoc. apply Permutation_app_head.
      change ([url req] ++ map url (delete n (awaiting st)))
        with (map url (req :: delete n (awaiting st))).
      symmetry. apply Permutation_map. exact (delete_Permutation _ _ _ E).
    + cbn [snd fst answered flat_map app]. now rewrite app_nil_r.
Qed.

Lemma run_answered evs : forall st,
  answered (snd (run B st evs)) ++ map url (held (fst (run B st evs)))
  ≡ₚ map url (held st) ++ arrivals evs.
Proof.
  induction evs as [| ev evs IH]; intros st; cbn [run].
  - cbn. now rewrite app_nil_r.
  - pose proof (step_answered st ev) as Hstep.
    destruct (step B st ev) as [st1 a1]. cbn [fst snd] in Hstep.
    specialize (IH st1). destruct (run B st1 evs) as [st2 a2].
    cbn [fst snd] in *.
    rewrite answered_app, arrivals_cons, <- app_assoc, IH.
    rewrite !app_assoc. apply Permutation_app_tail. exact Hstep.
Qed.

(** X19.  No request is lost and none is answered twice.  From the initial
    state and over any sequence of events, the requests answered so far
    (sent, or handed back as a rejection) together with the requests still
    held in the queue or by the handler that waits for the refresh are,
    as a multiset of urls, exactly the requests issued and the errors
    received; once [isRefreshing] is down again the answers alone are.  So
    when the urls that came in are pairwise distinct, no url is answered
    twice, none that is still held has been answered, and each one that
    came in is answered or held.  The counts agree as well. *)
Theorem every_request_is_answered_once (s : Store B) (evs : list Event) :
  let st := fst (run B (initial B s) evs) in
  let acts := snd (run B (initial B s) evs) in
  answered acts ++ map url (held st) ≡ₚ arrivals evs
  /\ (isRefreshing st = false -> answered acts ≡ₚ arrivals evs)
  /\ (NoDup (arrivals evs) ->
      NoDup (answered acts)
      /\ (forall r, In r (held st) -> ~ In (url r) (answered acts))
      /\ (forall u, In u (arrivals evs) ->
                    In u (answered acts) \/ In u (map url (held st))))
  /\ (answers acts + length (held st))%nat = entered evs
  /\ (isRefreshing st = false -> answers acts = entered evs).
Proof.
  intros st acts. subst st acts.
  pose proof (run_answered evs (initial B s)) as Hp.
  pose proof (run_answers evs (initial B s)) as H.
  cbn [held initial pendingQueue awaiting app length map] in H, Hp.
  rewrite Nat.add_0_r in H.
  set (st := fst (run B (initial B s) evs)) in *.
  set (acts := snd (run B (initial B s) evs)) in *.
  assert (Hidle : isRefreshing st = false -> held st = []).
  { intros Hflag.
    destruct (coherent_run B evs _ (coherent_initial B s))
      as [[Hup _] | (_ & Hq & Ha)]; [fold st in Hup; congruence |].
    fold st in Hq, Ha. unfold held. now rewrite Hq, Ha. }
  split; [exact Hp |]. split; [| split; [| split; [exact H |]]].
  - intros Hflag. rewrite (Hidle Hflag) in Hp. cbn [map] in Hp.
    now rewrite app_nil_r in Hp.
  - intros Hnodup. rewrite <- Hp in Hnodup.
    apply NoDup_app in Hnodup as (Hans & Hsep & _).
    split; [exact Hans |]. split.
    + intros r Hr Hin. apply (Hsep (url r)).
      * now apply list_elem_of_In.
      * apply list_elem_of_In. now apply in_map.
    + intros u Hu. apply (Permutation_in u (symmetry Hp)) in Hu.
      now apply in_app_or in Hu.
  - intros Hflag. rewrite (Hidle Hflag) in H. cbn in H. lia.
Qed.

(** ** Refresh calls follow settlements *)

Lemma step_refresh_budget st ev :
  (refreshCalls (snd (step B st ev)) + refreshesInFlight B st
   <= refreshesInFlight B (fst (step B st ev)) + settlements [ev])%nat.
Proof.
  unfold refreshesInFlight, settlements.
  destruct ev as [config | error | n result]; cbn [step].
  - cbn. lia.
  - unfold onResponseError.
    destruct (statusIsNot401 error || _retry (config error)); [cbn; lia |].
    destruct (isRefreshing st); cbn; rewrite ?length_app; cbn; lia.
  - destruct (awaiting st !! n) as [req |] eqn:E; [| cbn; lia].
    assert (Hlen : length (awaiting st) = S (length (delete n (awaiting st)))).
    { rewrite length_delete by eauto. apply lookup_lt_Some in E. lia. }
    rewrite (surjective_pairing (onRefreshSettled B req result _)).
    assert (Hcalls : forall st0,
      refreshCalls (snd (onRefreshSettled B req result st0)) = 0%nat).
    { intros st0. unfold onRefreshSettled, processQueue.
      destruct result as [t | e]; cbn [snd]; rewrite refreshCalls_app.
      - assert (Hq : forall l, refreshCalls
                  (flat_map (settleEntry B
                     {| store := setAccessToken B (Some t) (store st0);
                        isRefreshing := isRefreshing st0;
                        pendingQueue := pendingQueue st0;
                        awaiting := awaiting st0 |} None (Some t)) l) = 0%nat).
        { induction l as [| q l IH]; [reflexivity |].
          cbn [flat_map]. rewrite refreshCalls_app, IH.
          unfold settleEntry. destruct (Js.truthy t); reflexivity. }
        now rewrite Hq.
      - assert (Hq : forall l, refreshCalls
                  (flat_map (settleEntry B st0 (Some e) None) l) = 0%nat).
        { induction l as [| q l IH]; [reflexivity |].
          cbn [flat_map]. now rewrite refreshCalls_app, IH. }
        now rewrite Hq. }
    assert (Hflight : forall st0,
      awaiting (fst (onRefreshSettled B req result st0)) = awaiting st0).
    { intros st0. unfold onRefreshSettled, processQueue.
      destruct result; reflexivity. }
    cbn [fst snd]. rewrite Hcalls, Hflight. cbn. lia.
Qed.

Lemma settlements_cons ev evs :
  settlements (ev :: evs) = (settlements [ev] + settlements evs)%nat.
Proof. unfold settlements. cbn. destruct ev; cbn; lia. Qed.

Lemma run_refresh_budget evs : forall st,
  (refreshCalls (snd (run B st evs)) + refreshesInFlight B st
   <= refreshesInFlight B (fst (run B st evs)) + settlements evs)%nat.
Proof.
  induction evs as [| ev evs IH]; intros st; cbn [run]; [cbn; lia |].
  pose proof (step_refresh_budget st ev) as Hstep.
  destruct (step B st ev) as [st1 a1]. cbn [fst snd] in Hstep.
  specialize (IH st1). destruct (run B st1 evs) as [st2 a2].
  cbn [fst snd] in *. rewrite refreshCalls_app, settlements_cons. lia.
Qed.

(** X20.  The refresh endpoint is never called again before the call in flight
    has settled: over any sequence of events from the initial state, the
    calls exceed the settlements by at most one. *)
Theorem refresh_calls_follow_settlements (s : Store B) (evs : list Event) :
  (refreshCalls (snd (run B (initial B s) evs)) <= settlements evs + 1)%nat.
Proof.
  pose proof (run_refresh_budget evs (initial B s)) as H.
  pose proof (coherent_run B evs _ (coherent_initial B s)) as Hc.
  assert (Hone : (refreshesInFlight B (fst (run B (initial B s) evs)) <= 1)%nat).
  { destruct Hc as [[_ H1] | (_ & _ & Ha)]; [lia |].
    unfold refreshesInFlight. rewrite Ha. cbn. lia. }
  unfold refreshesInFlight at 1 in H. cbn [initial awaiting length] in H. lia.
Qed.

(** ** After the refresh *)

(** X21.  With a getter that returns what the setter stored last, the refresh
    decides what the next request carries: after a refresh that failed,
    and after one that succeeded with the empty token, the request
    interceptor attaches nothing and the request leaves as its caller
    built it; after a success with a token that is not empty it leaves
    with that token, whatever header the caller had set. *)
Theorem next_request_after_refresh st trigger result config :
  readsLastWrite B -> awaiting st = [trigger] ->
  let st' := fst (step B st (RefreshSettles 0 result)) in
  snd (step B st' (Issue config))
  = [Send match result with
          | Fulfilled t => if Js.truthy t then withAuthorization t config else config
          | Rejected _ => config
          end].
Proof.
  intros Hlaw Ha st'. subst st'.
  rewrite (refresh_settles B st trigger result Ha). cbv zeta. cbn [fst step snd].
  unfold http, requestInterceptor. cbn [store].
  destruct result as [t | e]; rewrite Hlaw; [| reflexivity].
  destruct (Js.truthy t); reflexivity.
Qed.

End More.

Lemma reachable_states_are_single_flight_witness :
  pendingQueue
    (fst (run memoryCell (initial memoryCell None)
            [ResponseError (unauthorized (get "/a" None));
             ResponseError (unauthorized (get "/b" None));
             RefreshSettles 0 (Fulfilled "T2")])) = [].
Proof.
  destruct (reachable_states_are_single_flight memoryCell None
              [ResponseError (unauthorized (get "/a" None));
               ResponseError (unauthorized (get "/b" None));
               RefreshSettles 0 (Fulfilled "T2")]) as (_ & _ & H & _).
  apply H. reflexivity.
Defined.

Lemma every_request_is_answered_once_witness :
  let evs := [Issue (get "/c" None);
              ResponseError (unauthorized (get "/a" None));
              ResponseError (unauthorized (get "/b" None));
              RefreshSettles 0 (Fulfilled "T2")] in
  answered (snd (run memoryCell (initial memoryCell None) evs))
  ≡ₚ ["/c"; "/a"; "/b"]
  /\ NoDup (answered (snd (run memoryCell (initial memoryCell None) evs))).
Proof.
  intros evs.
  destruct (every_request_is_answered_once memoryCell None evs)
    as (_ & Hidle & Hdistinct & _).
  split; [apply Hidle; reflexivity |].
  apply Hdistinct.
  repeat (constructor;
          [intros Hin; apply list_elem_of_In in Hin; cbn in Hin;
           intuition discriminate |]).
  constructor.
Defined.

Lemma next_request_after_refresh_witness :
  let st := {| store := Some "T1" : Store memoryCell; isRefreshing := true;
               pendingQueue := []; awaiting := [get "/a" None] |} in
  snd (step memoryCell
         (fst (step memoryCell st (RefreshSettles 0 (Rejected noTokenAvailable))))
         (Issue (get "/b" None)))
  = [Send (get "/b" None)].
Proof.
  intros st.
  apply (next_request_after_refresh memoryCell st (get "/a" None)
           (Rejected noTokenAvailable) (get "/b" None));
    [apply memoryCell_readsLastWrite | reflexivity].
Defined.

(** ** The getter that [AuthProvider] registers *)

(** X22.  The getter registered by [AuthProvider] returns the token of the render
    that registered it.  When the refresh succeeds, the queued requests and
    the request that started the refresh are replayed before the provider
    registers a new getter: the request interceptor then overwrites the
    header of each replay with the token captured earlier, if there is one,
    although the new token is already in the provider's cell; the new token
    is served only after the provider has rendered again. *)
Theorem provider_getter_serves_replays
  (st : Pipeline authProvider) (trigger : Request) (old new : string) :
  awaiting st = [trigger] ->
  captured (store st) = Some old -> Js.truthy old = true ->
  Js.truthy new = true ->
  let st' := fst (step authProvider st (RefreshSettles 0 (Fulfilled new))) in
  snd (step authProvider st (RefreshSettles 0 (Fulfilled new)))
  = map (fun q => Send (withAuthorization old q)) (pendingQueue st)
    ++ [Send (withAuthorization old trigger)]
  /\ cell (store st') = Some new
  /\ getAccessToken authProvider (store st') = Some old
  /\ getAccessToken authProvider (rerender (store st')) = Some new.
Proof.
  intros Ha Hc Hold Hnew st'. subst st'.
  rewrite (refresh_settles authProvider st trigger (Fulfilled new) Ha).
  cbv zeta. cbn [fst snd]. rewrite Hnew.
  unfold requestInterceptor. cbn [store getAccessToken setAccessToken authProvider
                                  captured cell rerender].
  rewrite Hc, Hold. repeat split.
Qed.

Lemma provider_getter_serves_replays_witness :
  let st := {| store := {| cell := Some "T1"; captured := Some "T1" |}
                        : Store authProvider;
               isRefreshing := true;
               pendingQueue := [markRetried (get "/b" None)];
               awaiting := [markRetried (get "/a" None)] |} in
  snd (step authProvider st (RefreshSettles 0 (Fulfilled "T2")))
  = [Send (withAuthorization "T1" (markRetried (get "/b" None)));
     Send (withAuthorization "T1" (markRetried (get "/a" None)))].
Proof.
  intros st.
  destruct (provider_getter_serves_replays st (markRetried (get "/a" None))
              "T1" "T2" eq_refl eq_refl eq_refl eq_refl) as [H _].
  exact H.
Defined.

End AxiosClientMore.

(* ===================================================================== *)
(** * Properties of the email validator and of the admin user form *)
(* ===================================================================== *)

Module EmailFacts.
Import Regex Email.

(** ** Reading a derivation backwards *)

Lemma never_inv s : ~ Accepts Never s.
Proof. intros H. inversion H. Qed.

Lemma nothing_inv s : Accepts Nothing s <-> s = [].
Proof. split; [intros H; now inversion H | intros ->; constructor]. Qed.

Lemma class_inv p s : Accepts (Class p) s <-> exists c, s = [c] /\ p c = true.
Proof.
  split.
  - intros H. inversion H; subst. eauto.
  - intros (c & -> & Hc). now constructor.
Qed.

Lemma then_inv a b s :
  Accepts (Then a b) s <-> exists u v, s = u ++ v /\ Accepts a u /\ Accepts b v.
Proof.
  split.
  - intros H. inversion H; subst. eauto.
  - intros (u & v & -> & Hu & Hv). now constructor.
Qed.

Lemma or_inv a b s : Accepts (Or a b) s <-> Accepts a s \/ Accepts b s.
Proof.
  split.
  - intros H. inversion H; subst; auto.
  - intros [H | H]; [now apply AcceptsOrLeft | now apply AcceptsOrRight].
Qed.

Lemma many_cons a c s :
  Accepts (Many a) (c :: s) ->
  exists u v, s = u ++ v /\ Accepts a (c :: u) /\ Accepts (Many a) v.
Proof.
  intros H. remember (Many a) as m eqn:Em. remember (c :: s) as w eqn:Ew.
  revert s Ew.
  induction H as [| | | | | | a' u v Hu _ Hv IHv]; intros s Ew;
    try discriminate Em; [discriminate Ew |].
  injection Em as ->. destruct u as [| c' u].
  - cbn in Ew. now apply IHv.
  - cbn in Ew. injection Ew as -> <-. eauto.
Qed.

(** ** The matcher decides the words of a pattern *)

Lemma acceptsEmpty_spec a : acceptsEmpty a = true <-> Accepts a [].
Proof.
  induction a as [| | p | a IHa b IHb | a IHa b IHb | a IHa]; cbn [acceptsEmpty].
  - split; [discriminate | intros H; now apply never_inv in H].
  - split; [constructor | reflexivity].
  - rewrite class_inv. split; [discriminate |]. intros (c & E & _). discriminate E.
  - rewrite andb_true_iff, IHa, IHb, then_inv. split.
    + intros [Ha Hb]. now exists [], [].
    + intros (u & v & E & Hu & Hv). symmetry in E.
      apply app_eq_nil in E as [-> ->]. now split.
  - now rewrite orb_true_iff, IHa, IHb, or_inv.
  - split; [constructor | reflexivity].
Qed.

Lemma after_spec a : forall c s, Accepts (after c a) s <-> Accepts a (c :: s).
Proof.
  induction a as [| | p | a IHa b IHb | a IHa b IHb | a IHa]; intros c s;
    cbn [after].
  - split; intros H; now apply never_inv in H.
  - rewrite nothing_inv. split; [intros H; now apply never_inv in H | discriminate].
  - rewrite class_inv. destruct (p c) eqn:Hp.
    + rewrite nothing_inv. split.
      * intros ->. eauto.
      * intros (c' & E & _). now injection E.
    + split; [intros H; now apply never_inv in H |].
      intros (c' & E & Hc'). injection E as -> _. congruence.
  - rewrite or_inv, !then_inv. split.
    + intros [(u & v & -> & Hu & Hv) | H].
      * exists (c :: u), v. split; [reflexivity |]. split; [now apply IHa | exact Hv].
      * destruct (acceptsEmpty a) eqn:Hn; [| now apply never_inv in H].
        exists [], (c :: s). split; [reflexivity |].
        split; [now apply acceptsEmpty_spec | now apply IHb].
    + intros (u & v & E & Hu & Hv). destruct u as [| c' u].
      * cbn in E. subst v. right.
        apply acceptsEmpty_spec in Hu. rewrite Hu. now apply IHb.
      * cbn in E. injection E as -> ->. left.
        exists u, v. split; [reflexivity |]. split; [now apply IHa | exact Hv].
  - now rewrite !or_inv, IHa, IHb.
  - rewrite then_inv. split.
    + intros (u & v & -> & Hu & Hv). apply IHa in Hu.
      exact (AcceptsManyStep a (c :: u) v Hu Hv).
    + intros H. apply many_cons in H as (u & v & -> & Hu & Hv).
      exists u, v. split; [reflexivity |]. split; [now apply IHa | exact Hv].
Qed.

Lemma matchChars_spec s : forall a, matchChars a s = true <-> Accepts a s.
Proof.
  induction s as [| c s IH]; intros a; cbn [matchChars].
  - apply acceptsEmpty_spec.
  - rewrite IH. apply after_spec.
Qed.

(** ** Words of a repeated class *)

Lemma many_class p s :
  Accepts (Many (Class p)) s <-> Forall (fun c => p c = true) s.
Proof.
  split.
  - induction s as [| c s IH]; intros H; [constructor |].
    apply many_cons in H as (u & v & -> & Hu & Hv).
    apply class_inv in Hu as (c' & E & Hc).
    injection E as -> E. symmetry in E. subst u. cbn in *.
    constructor; [exact Hc | now apply IH].
  - induction 1 as [| c s Hc _ IH]; [constructor |].
    exact (AcceptsManyStep (Class p) [c] s (AcceptsClass p c Hc) IH).
Qed.

Lemma some1_class p s :
  Accepts (Some1 (Class p)) s <-> s <> [] /\ Forall (fun c => p c = true) s.
Proof.
  unfold Some1. rewrite then_inv. split.
  - intros (u & v & -> & Hu & Hv).
    apply class_inv in Hu as (c & -> & Hc). apply many_class in Hv. cbn.
    split; [discriminate | now constructor].
  - intros [Hne Hall]. destruct Hall as [| c s Hc Hs]; [now destruct Hne |].
    exists [c], s. split; [reflexivity |].
    split; [now constructor | now apply many_class].
Qed.

Lemma class_char (x : ascii) s :
  Accepts (Class (Ascii.eqb x)) s <-> s = [x].
Proof.
  rewrite class_inv. split.
  - intros (c & -> & Hc). apply Ascii.eqb_eq in Hc. now subst.
  - intros ->. exists x. split; [reflexivity | apply Ascii.eqb_refl].
Qed.

Lemma email_words s :
  matchChars emailRegex s = true
  <-> exists local domain tld,
        s = local ++ "@"%char :: domain ++ "."%char :: tld
        /\ part local /\ part domain /\ part tld.
Proof.
  unfold emailRegex, part. rewrite matchChars_spec. split.
  - intros H.
    apply then_inv in H as (l & r1 & -> & Hl & H).
    apply then_inv in H as (at_ & r2 & -> & Hat & H).
    apply then_inv in H as (d & r3 & -> & Hd & H).
    apply then_inv in H as (dot & t & -> & Hdot & Ht).
    apply class_char in Hat, Hdot. subst at_ dot.
    apply some1_class in Hl, Hd, Ht.
    exists l, d, t. auto.
  - intros (l & d & t & -> & Hl & Hd & Ht).
    apply some1_class in Hl, Hd, Ht.
    apply (AcceptsThen _ _ l _ Hl).
    apply (AcceptsThen _ _ ["@"%char] _); [now apply class_char |].
    apply (AcceptsThen _ _ d _ Hd).
    apply (AcceptsThen _ _ ["."%char] _); [now apply class_char | exact Ht].
Qed.

(** X23.  [isValidEmail] accepts exactly the strings of the form
    local@domain.tld whose three parts are not empty and hold neither
    white space nor another at-sign (the domain and the tld may hold
    dots). *)
Theorem isValidEmail_iff_three_parts (email : string) :
  isValidEmail email = true
  <-> exists local domain tld,
        Js.chars email = local ++ "@"%char :: domain ++ "."%char :: tld
        /\ part local /\ part domain /\ part tld.
Proof. unfold isValidEmail, test. apply email_words. Qed.

Lemma part_no_at u : part u -> count_occ ascii_dec u "@"%char = 0%nat.
Proof.
  intros [_ Hall]. induction Hall as [| c u Hc _ IH]; [reflexivity |].
  cbn. destruct (ascii_dec c "@") as [-> | _]; [discriminate Hc | exact IH].
Qed.

Lemma part_no_space u :
  part u -> forallb (fun c => negb (Js.isWhiteSpace c)) u = true.
Proof.
  intros [_ Hall]. induction Hall as [| c u Hc _ IH]; [reflexivity |].
  cbn. rewrite IH, andb_true_r. unfold notSpaceNorAt in Hc.
  apply negb_true_iff, orb_false_iff in Hc as [Hc _]. now rewrite Hc.
Qed.

Lemma part_length u : part u -> (1 <= length u)%nat.
Proof. intros [Hne _]. destruct u; [now destruct Hne | cbn; lia]. Qed.

(** X24.  An address that [isValidEmail] accepts holds exactly one at-sign and no
    white space, has a dot somewhere after the at-sign, starts with a
    character of the local part and counts at least five characters. *)
Theorem valid_email_has_one_at_sign (email : string) :
  isValidEmail email = true ->
  count_occ ascii_dec (Js.chars email) "@"%char = 1%nat
  /\ forallb (fun c => negb (Js.isWhiteSpace c)) (Js.chars email) = true
  /\ (exists before rest, Js.chars email = before ++ "@"%char :: rest
                          /\ before <> [] /\ In "."%char rest)
  /\ (5 <= String.length email)%nat.
Proof.
  unfold isValidEmail, test. intros H.
  apply email_words in H as (l & d & t & E & Hl & Hd & Ht).
  assert (Hlen : String.length email = length (Js.chars email)).
  { clear. induction email as [| c s IH]; cbn; [reflexivity | now rewrite IH]. }
  rewrite Hlen, E. clear Hlen E.
  split; [| split; [| split]].
  - rewrite count_occ_app. cbn [count_occ].
    destruct (ascii_dec "@" "@") as [_ | Hne]; [| now destruct Hne].
    rewrite count_occ_app. cbn [count_occ].
    destruct (ascii_dec "." "@") as [Hne | _]; [discriminate Hne |].
    rewrite (part_no_at l Hl), (part_no_at d Hd), (part_no_at t Ht). reflexivity.
  - rewrite forallb_app. cbn [forallb]. rewrite forallb_app. cbn [forallb].
    rewrite (part_no_space l Hl), (part_no_space d Hd), (part_no_space t Ht).
    reflexivity.
  - exists l, (d ++ "."%char :: t). split; [reflexivity |].
    split; [exact (proj1 Hl) |]. apply in_or_app. right. left. reflexivity.
  - rewrite length_app. cbn [length]. rewrite length_app. cbn [length].
    pose proof (part_length l Hl). pose proof (part_length d Hd).
    pose proof (part_length t Ht). lia.
Qed.

Lemma valid_email_has_one_at_sign_witness :
  count_occ ascii_dec (Js.chars "admin@gearfalcon.test") "@"%char = 1%nat.
Proof.
  apply (valid_email_has_one_at_sign "admin@gearfalcon.test"). reflexivity.
Defined.

Example email_examples :
  isValidEmail "admin@gearfalcon.test" = true
  /\ isValidEmail "a@b.c" = true
  /\ isValidEmail "a@b" = false
  /\ isValidEmail "a b@c.d" = false
  /\ isValidEmail "a@b@c.d" = false
  /\ isValidEmail "a@.c" = false
  /\ isValidEmail "a@b." = false
  /\ isValidEmail "a@b..c" = true
  /\ isValidEmail EmptyString = false.
Proof. vm_compute. repeat split. Qed.

End EmailFacts.

Module AdminUserFormFacts.
Import AdminUserForm.

Lemma blank_empty s : blank (Some s) = false <-> s <> EmptyString.
Proof. destruct s; cbn; split; congruence. Qed.

(** X25.  The form-level check and the field messages agree: a user for which
    [hasErrors] is false gets no message on any field, touched or not;
    once the four required fields are touched, the absence of messages
    means that [hasErrors] is false; a field that was not touched never
    shows a message; and [hasErrors] is false exactly when the two names
    and the password are filled and the email is valid. *)
Theorem field_errors_agree_with_hasErrors (user : User) :
  (hasErrors user = false ->
   forall touched field, getFieldError touched user field = None)
  /\ ((forall field, getFieldError (fun _ => true) user field = None) ->
      hasErrors user = false)
  /\ (forall touched field,
        touched field = false -> getFieldError touched user field = None)
  /\ (hasErrors user = false
      <-> first_name user <> EmptyString /\ last_name user <> EmptyString
          /\ (exists p, password user = Some p /\ p <> EmptyString)
          /\ Email.isValidEmail (email user) = true).
Proof.
  unfold hasErrors. split; [| split; [| split]].
  - rewrite !orb_false_iff, negb_false_iff.
    intros ((((Hf & Hl) & He) & Hp) & Hv) touched field.
    unfold getFieldError. destruct (touched field); [| reflexivity]. cbn [negb].
    destruct field; rewrite ?Hf, ?Hl, ?He, ?Hp, ?Hv; reflexivity.
  - intros H.
    pose proof (H FirstName) as Hf. pose proof (H LastName) as Hl.
    pose proof (H EmailField) as He. pose proof (H PasswordField) as Hp.
    unfold getFieldError in *. cbn [negb] in *.
    destruct (blank (Some (first_name user))); [discriminate Hf |].
    destruct (blank (Some (last_name user))); [discriminate Hl |].
    destruct (blank (Some (email user))); [discriminate He |].
    destruct (blank (password user)); [discriminate Hp |].
    destruct (Email.isValidEmail (email user)); [reflexivity | discriminate He].
  - intros touched field Ht. unfold getFieldError. now rewrite Ht.
  - rewrite !orb_false_iff, negb_false_iff, !blank_empty. split.
    + intros ((((Hf & Hl) & He) & Hp) & Hv). repeat split; auto.
      destruct (password user) as [p |]; [| discriminate Hp].
      exists p. split; [reflexivity | now apply blank_empty].
    + intros (Hf & Hl & (p & Ep & Hp) & Hv). rewrite Ep.
      repeat split; auto; [| now apply blank_empty].
      intros E. rewrite E in Hv. discriminate Hv.
Qed.

Lemma field_errors_agree_with_hasErrors_witness :
  getFieldError (fun _ => true)
    {| first_name := "Ada"; last_name := "Cruz";
       email := "ada@gearfalcon.test"; password := Some "Xy7!Xy7!Q" |}
    EmailField = None.
Proof.
  destruct (field_errors_agree_with_hasErrors
              {| first_name := "Ada"; last_name := "Cruz";
                 email := "ada@gearfalcon.test"; password := Some "Xy7!Xy7!Q" |})
    as [H _].
  apply H. reflexivity.
Defined.

End AdminUserFormFacts.

(* ===================================================================== *)
(** * Properties of the strength indicator and of the verification page *)
(* ===================================================================== *)

Module StrengthIndicatorFacts.
Import PasswordValidator StrengthIndicator.

Lemma configs_merge u :
  mergeConfig (configs u) = PASSWORD_CONFIGS u.
Proof. destruct u; reflexivity. Qed.

Lemma validate_by_config password o1 o2 :
  mergeConfig o1 = mergeConfig o2 ->
  validatePasswordStrength password o1 = validatePasswordStrength password o2.
Proof. intros E. unfold validatePasswordStrength. now rewrite E. Qed.

(** X26.  Given a user type and no explicit options, the indicator validates
    against the same configuration as the validation hook: for every
    password that is not blank both end with the same result.  They part
    on white space: the indicator evaluates a password made of white space
    only, the hook does not.  The meter never needs its cap at 100. *)
Theorem indicator_agrees_with_hook (u : UserType) (password : string) :
  let shown := validationAfterEffect password None (Some u) in
  let hook := PasswordHook.run
                [PasswordHook.EffectRuns password (PasswordHook.OptionsUserType u);
                 PasswordHook.TimeoutElapses] PasswordHook.initialState in
  (PasswordHook.isBlank password = false ->
   shown = PasswordHook.validation hook)
  /\ (PasswordHook.isBlank password = true -> password <> EmptyString ->
      PasswordHook.validation hook = None
      /\ exists r, shown = Some r /\ strength r <> Invalid)
  /\ (forall r, shown = Some r -> meterWidth r = score r).
Proof.
  intros shown hook. subst shown hook.
  unfold validationAfterEffect, resolvedOptions.
  cbn [PasswordHook.run fold_left PasswordHook.step].
  unfold PasswordHook.effect, PasswordHook.timeoutElapsed.
  split; [| split].
  - intros Hb. rewrite Hb. cbn.
    assert (Hne : String.eqb password EmptyString = false).
    { destruct password; [discriminate Hb | reflexivity]. }
    rewrite Hne. cbn. f_equal. apply validate_by_config.
    now rewrite configs_merge, PasswordValidatorMore.mergeConfig_explicit.
  - intros Hb Hne. rewrite Hb. cbn. split; [reflexivity |].
    destruct password as [| c s]; [now destruct Hne |].
    change (String.eqb (String c s) EmptyString) with false. cbn [negb].
    eexists. split; [reflexivity |].
    rewrite PasswordValidatorFacts.validate_present by reflexivity.
    cbn [strength]. intros E.
    pose proof (PasswordValidatorMore.getPasswordStrength_rank
                  (Z.max 0 (l_score (evaluateRules (String c s)
                                       (mergeConfig (configs u)))))) as H.
    rewrite E in H. cbn in H. lia.
  - intros r Hr. unfold meterWidth.
    destruct (String.eqb password EmptyString); [discriminate Hr |].
    cbn in Hr. injection Hr as <-.
    pose proof (PasswordValidatorMore.score_present) as _.
    destruct (passwordMissing (PwString password)) eqn:Hm.
    + rewrite PasswordValidatorFacts.validate_missing by exact Hm. reflexivity.
    + rewrite PasswordValidatorFacts.passwordMissing_string in Hm.
      apply negb_false_iff in Hm.
      rewrite PasswordValidatorMore.score_present by exact Hm.
      pose proof (PasswordValidatorMore.hardPoints_bounds password
                    (mergeConfig (configs u))).
      pose proof (PasswordValidatorMore.patternMatches_bounds password).
      pose proof (PasswordValidatorMore.bonusPoints_bounds password). lia.
Qed.

Lemma indicator_agrees_with_hook_witness :
  validationAfterEffect "Xy7!Xy7!Q" None (Some admin)
  = PasswordHook.validation
      (PasswordHook.run
         [PasswordHook.EffectRuns "Xy7!Xy7!Q" (PasswordHook.OptionsUserType admin);
          PasswordHook.TimeoutElapses] PasswordHook.initialState).
Proof.
  destruct (indicator_agrees_with_hook admin "Xy7!Xy7!Q") as [H _].
  apply H. reflexivity.
Defined.

End StrengthIndicatorFacts.

Module VerifyEmailFacts.
Import VerifyEmail.

Lemma join_length l : String.length (Js.join l) = length l.
Proof. induction l as [| c l IH]; cbn; [reflexivity | now rewrite IH]. Qed.

Lemma sanitize_digits value : allDigits (sanitize value).
Proof.
  unfold allDigits, sanitize. rewrite PasswordHookFacts.chars_join.
  apply Forall_take. apply List.Forall_forall. intros c Hc.
  unfold digitsOnly in Hc. apply filter_In in Hc. tauto.
Qed.

Lemma sanitize_length value : (String.length (sanitize value) <= 4)%nat.
Proof. unfold sanitize. rewrite join_length. apply firstn_le_length. Qed.

Lemma filter_all {A} (p : A -> bool) l :
  Forall (fun x => p x = true) l -> List.filter p l = l.
Proof.
  induction 1 as [| x l Hx _ IH]; cbn; [reflexivity |]. now rewrite Hx, IH.
Qed.

(** X27.  The sanitised code holds digits only and at most four of them;
    sanitising keeps a code of at most four digits as it is (so it is
    idempotent), and keeps the first four digits of anything else. *)
Theorem sanitize_keeps_four_digits (value : string) :
  allDigits (sanitize value)
  /\ (String.length (sanitize value) <= 4)%nat
  /\ sanitize (sanitize value) = sanitize value
  /\ (allDigits value -> (String.length value <= 4)%nat ->
      Js.chars (sanitize value) = Js.chars value).
Proof.
  split; [apply sanitize_digits |]. split; [apply sanitize_length |].
  assert (Hkeep : forall v, allDigits v -> (String.length v <= 4)%nat ->
                            Js.chars (sanitize v) = Js.chars v).
  { intros v Hd Hl. unfold sanitize, digitsOnly. rewrite PasswordHookFacts.chars_join.
    rewrite (filter_all _ _ Hd). apply firstn_all2.
    assert (E : length (Js.chars v) = String.length v)
      by (clear; induction v as [| c s IH]; cbn; [reflexivity | now rewrite IH]).
    rewrite E. exact Hl. }
  split; [| exact (Hkeep value)].
  pose proof (Hkeep (sanitize value) (sanitize_digits value) (sanitize_length value))
    as H.
  assert (Hinj : forall a b, Js.chars a = Js.chars b -> a = b).
  { induction a as [| c a IH]; destruct b as [| d b]; cbn; try discriminate;
      [reflexivity |]. intros E. injection E as -> E. f_equal. now apply IH. }
  now apply Hinj.
Qed.

Lemma sanitize_keeps_four_digits_witness :
  Js.chars (sanitize "4071") = Js.chars "4071".
Proof.
  destruct (sanitize_keeps_four_digits "4071") as (_ & _ & _ & H).
  apply H; [repeat constructor | cbn; lia].
Defined.

Example sanitize_examples :
  sanitize "12a3-45 6" = "1234" /\ sanitize "ab" = EmptyString
  /\ sanitize "007" = "007".
Proof. vm_compute. repeat split. Qed.

(** ** The code that reaches the verification call *)

Lemma tidy_step st ev : tidy st -> tidy (fst (pageStep st ev)).
Proof.
  unfold tidy. intros H. destruct ev as [value | |]; cbn [pageStep].
  - apply sanitize_digits.
  - destruct (negb (Js.truthy (code st)) || negb (Js.len (code st) =? 4)); exact H.
  - constructor.
Qed.

Lemma calls_step st ev :
  tidy st ->
  Forall (fun c => allDigits c /\ String.length c = 4%nat) (snd (pageStep st ev)).
Proof.
  unfold tidy. intros H. destruct ev as [value | |]; cbn [pageStep];
    [constructor | | constructor].
  destruct (negb (Js.truthy (code st)) || negb (Js.len (code st) =? 4)) eqn:G;
    [constructor |].
  apply orb_false_iff in G as [_ G]. apply negb_false_iff, Z.eqb_eq in G.
  unfold Js.len in G. cbn. constructor; [| constructor].
  split; [exact H | lia].
Qed.

(** X28.  Whatever the user types and in whatever order the page is used, every
    call of the verification endpoint carries a code of exactly four
    decimal digits. *)
Theorem verification_call_carries_four_digits (evs : list PageEvent) :
  Forall (fun c => allDigits c /\ String.length c = 4%nat)
         (snd (pageRun initialPage evs)).
Proof.
  assert (H : forall st, tidy st ->
            Forall (fun c => allDigits c /\ String.length c = 4%nat)
                   (snd (pageRun st evs))).
  { induction evs as [| ev evs IH]; intros st Ht; cbn [pageRun];
      [constructor |].
    pose proof (tidy_step st ev Ht) as Ht'.
    pose proof (calls_step st ev Ht) as Hc.
    destruct (pageStep st ev) as [st1 c1]. cbn [fst snd] in *.
    specialize (IH st1 Ht'). destruct (pageRun st1 evs) as [st2 c2].
    cbn [snd] in *. apply Forall_app. now split. }
  apply H. constructor.
Qed.

Example verification_run :
  snd (pageRun initialPage
         [CodeChange "12"; Submit; CodeChange "12x345"; Submit;
          ResendSucceeded; Submit])
  = ["1234"].
Proof. vm_compute. reflexivity. Qed.

End VerifyEmailFacts.
